(** * The Redis front-end of yb/redisserver/redis_service.cc

    A shallow embedding of the batch dispatcher ([Handle]), the conflict-aware
    scheduler ([BatchContext]) and the chained asynchronous flushes ([Block])
    of [src/yb/redisserver/redis_service.cc], with the properties of
    its specification stated over that embedding.

    Conventions of the embedding:
    - a [std::shared_ptr<Block>] is an index into the list of the Blocks that
      [std::make_shared] has allocated so far ([heap]); two pointers alias
      exactly when the indices are equal, the null pointer is [None];
    - what C++ leaves undefined (a null dereference, [command[0]] on an empty
      command, [front()] of an empty vector) is a [Crash] of the [outcome]
      monad;
    - calls on the inbound call and on the backend session are recorded, in
      program order, as a list of [Event]s;
    - the command parsers, the session's verdict on [Apply] and the status
      handed to a flush callback live outside this file and are parameters;
    - the calls of the service are taken one after the other; what an
      attempt to build the client and to open the table meets is a parameter
      of each call. *)

From stdpp Require Import gmap strings list.
From Stdlib Require Import ZArith Ascii.

Local Open Scope string_scope.
Local Open Scope list_scope.
Local Open Scope nat_scope.

(** ** Statuses and faults *)

(** [yb::Status], reduced to what this file looks at: [ok()] and [message()]. *)
Inductive Status :=
| OK
| Failed (message : string).

Definition ok (s : Status) : bool :=
  match s with OK => true | Failed _ => false end.

Inductive Fault :=
| NullDeref      (* [->] through an empty shared_ptr *)
| OutOfBounds    (* [operator[]] or [front()] past the end *)
| OutOfFuel.     (* the recursion bound of the embedding was too small *)

Inductive outcome (A : Type) :=
| Ret (a : A)
| Crash (f : Fault).
Arguments Ret {A} a.
Arguments Crash {A} f.

#[global] Instance outcome_ret : MRet outcome := λ A a, Ret a.
#[global] Instance outcome_bind : MBind outcome := λ A B k m,
  match m with Ret a => k a | Crash f => Crash f end.

(** ** boost::logic::tribool *)

Inductive tribool := tri_false | tri_true | indeterminate.

Definition tribool_of_bool (b : bool) : tribool :=
  if b then tri_true else tri_false.

(** [if (t == b)]: the comparison is itself a tribool and only a definite
    [true] takes the branch. *)
Definition tribool_eq (t : tribool) (b : bool) : bool :=
  match t, b with
  | tri_true, true | tri_false, false => true
  | _, _ => false
  end.

Definition is_indeterminate (t : tribool) : bool :=
  match t with indeterminate => true | _ => false end.

(** ** Operation and Block *)

(** The payload and the metrics handle of an [Operation] are never inspected
    by the scheduler; [index_] and [read_] are. *)
Record Operation := { index : nat; read : bool }.

Record Block := { ops_ : list Operation; next_ : option nat }.

Definition AddOperation (op : Operation) (b : Block) : Block :=
  {| ops_ := ops_ b ++ [op]; next_ := next_ b |}.

(** [p->SetNext(n)] on the Block stored at [p]: the old successor is
    returned, the new one installed. *)
Definition SetNext (h : list Block) (p : option nat) (n : option nat)
  : outcome (option nat * list Block) :=
  match p with
  | None => Crash NullDeref
  | Some i =>
      match h !! i with
      | None => Crash NullDeref
      | Some b => Ret (next_ b, <[i := {| ops_ := ops_ b; next_ := n |}]> h)
      end
  end.

(** ** BatchContext *)

(** [struct BlockData]; its [count] is never read or written. *)
Record BlockData := { used_keys : gset string; block : option nat }.

Record BatchContext := {
  read_data_ : BlockData;
  write_data_ : BlockData;
  flush_head_ : option nat;
  last_conflict_was_read_ : tribool;
  (** every Block made by [std::make_shared<Block>] during this batch *)
  heap : list Block;
  (** indices at which [LOG(DFATAL)] was reached *)
  dfatal : list nat
}.

Definition BatchContext_init : BatchContext :=
  {| read_data_ := {| used_keys := ∅; block := None |};
     write_data_ := {| used_keys := ∅; block := None |};
     flush_head_ := None;
     last_conflict_was_read_ := indeterminate;
     heap := [];
     dfatal := [] |}.

Definition data (rd : bool) (c : BatchContext) : BlockData :=
  if rd then read_data_ c else write_data_ c.

Definition set_data (rd : bool) (d : BlockData) (c : BatchContext) : BatchContext :=
  {| read_data_ := if rd then d else read_data_ c;
     write_data_ := if rd then write_data_ c else d;
     flush_head_ := flush_head_ c;
     last_conflict_was_read_ := last_conflict_was_read_ c;
     heap := heap c;
     dfatal := dfatal c |}.

Definition set_heap (h : list Block) (c : BatchContext) : BatchContext :=
  {| read_data_ := read_data_ c;
     write_data_ := write_data_ c;
     flush_head_ := flush_head_ c;
     last_conflict_was_read_ := last_conflict_was_read_ c;
     heap := h;
     dfatal := dfatal c |}.

Definition set_flush_head (p : option nat) (c : BatchContext) : BatchContext :=
  {| read_data_ := read_data_ c;
     write_data_ := write_data_ c;
     flush_head_ := p;
     last_conflict_was_read_ := last_conflict_was_read_ c;
     heap := heap c;
     dfatal := dfatal c |}.

Definition set_last_conflict (t : tribool) (c : BatchContext) : BatchContext :=
  {| read_data_ := read_data_ c;
     write_data_ := write_data_ c;
     flush_head_ := flush_head_ c;
     last_conflict_was_read_ := t;
     heap := heap c;
     dfatal := dfatal c |}.

Definition log_dfatal (idx : nat) (c : BatchContext) : BatchContext :=
  {| read_data_ := read_data_ c;
     write_data_ := write_data_ c;
     flush_head_ := flush_head_ c;
     last_conflict_was_read_ := last_conflict_was_read_ c;
     heap := heap c;
     dfatal := dfatal c ++ [idx] |}.

(** [BatchContext::ConflictFound] *)
Definition ConflictFound (rd : bool) (c : BatchContext) : outcome BatchContext :=
  c' ← (if is_indeterminate (last_conflict_was_read_ c) then
          let c1 := set_flush_head (block (data (negb rd) c)) c in
          '(_, h) ← SetNext (heap c1) (block (data (negb rd) c1)) (block (data rd c1));
          mret (set_heap h c1)
        else
          mret (set_data rd {| used_keys := ∅; block := None |} c));
  mret (set_last_conflict (tribool_of_bool rd) c').

(** the loop of [BatchContext::CheckConflicts] *)
Definition has_conflict (opposite : BlockData) (keys : list string) : bool :=
  existsb (λ key, bool_decide (key ∈ used_keys opposite)) keys.

(** [BatchContext::CheckConflicts] *)
Definition CheckConflicts (rd : bool) (keys : list string) (c : BatchContext)
  : outcome BatchContext :=
  if tribool_eq (last_conflict_was_read_ c) rd then mret c
  else if has_conflict (data (negb rd) c) keys then ConflictFound rd c
  else mret c.

(** [BatchContext::RememberKeys] *)
Definition RememberKeys (rd : bool) (keys : list string) (c : BatchContext)
  : BatchContext :=
  let dest := data rd c in
  set_data rd {| used_keys := foldl (λ s key, {[key]} ∪ s) (used_keys dest) keys;
                 block := block dest |} c.

(** The first half of [BatchContext::Apply]: after the conflict check, make
    sure the kind has an open Block, and attach a fresh one to the opposite
    Block when this kind led the last conflict. *)
Definition acquire_block (idx : nat) (rd : bool) (c : BatchContext)
  : outcome BatchContext :=
  match block (data rd c) with
  | Some _ => mret c
  | None =>
      let p := length (heap c) in
      let c1 := set_heap (heap c ++ [{| ops_ := []; next_ := None |}]) c in
      let c2 := set_data rd {| used_keys := used_keys (data rd c1); block := Some p |} c1 in
      if tribool_eq (last_conflict_was_read_ c2) rd then
        '(old_value, h) ← SetNext (heap c2) (block (data (negb rd) c2)) (Some p);
        let c3 := set_heap h c2 in
        mret (match old_value with Some _ => log_dfatal idx c3 | None => c3 end)
      else mret c2
  end.

(** [data.block->AddOperation(std::move(operation))] *)
Definition add_to_block (op : Operation) (c : BatchContext) : outcome BatchContext :=
  match block (data (read op) c) with
  | None => Crash NullDeref
  | Some p =>
      match heap c !! p with
      | None => Crash NullDeref
      | Some b => mret (set_heap (<[p := AddOperation op b]> (heap c)) c)
      end
  end.

(** [BatchContext::Apply] *)
Definition Apply (idx : nat) (rd : bool) (keys : list string) (c : BatchContext)
  : outcome BatchContext :=
  let operation := {| index := idx; read := rd |} in
  c1 ← CheckConflicts rd keys c;
  c2 ← acquire_block idx rd c1;
  c3 ← add_to_block operation c2;
  mret (RememberKeys rd keys c3).

(** ** Events *)

(** The protobuf handed to [RespondSuccess]: built from a string by
    [EchoCommand], or the response the backend stored in the operation. *)
Inductive Response :=
| string_response (s : string)
| op_response (idx : nat).

Inductive Event :=
| NewSession (rd : bool)                       (* client->NewSession(read) *)
| SessionApply (idx : nat)                     (* session->Apply(operation) *)
| FlushAsync (p : nat)                         (* session->FlushAsync(callback of p) *)
| RespondSuccess (idx : nat) (r : Response)    (* call->RespondSuccess *)
| RespondFailure (idx : nat) (s : Status).     (* call->RespondFailure *)

(** ** Block::Launch and Block::Done *)

Section Backend.

(** What [session->Apply] answers for the operation of a batch index, and
    the status with which the flush of a Block completes. *)
Variable session_apply : nat → Status.
Variable flush_status : nat → Status.

(** the loop of [Block::Launch]: its calls, and its [has_ok] *)
Definition launch_op (op : Operation) : list Event :=
  SessionApply (index op) ::
  (if ok (session_apply (index op)) then []
   else [RespondFailure (index op) (session_apply (index op))]).

Definition launch_events (ops : list Operation) : list Event :=
  flat_map launch_op ops.

Definition has_ok (ops : list Operation) : bool :=
  existsb (λ op, ok (session_apply (index op))) ops.

(** [Block::Launch] on the Block at [p]: the calls made, and the Blocks
    left with a flush in flight. [fuel] bounds the nested
    [next_->Launch(client)] calls. *)
Fixpoint Launch (fuel : nat) (h : list Block) (p : nat)
  : outcome (list Event * list nat) :=
  match fuel with
  | 0 => Crash OutOfFuel
  | S fuel' =>
      match h !! p with
      | None => Crash NullDeref
      | Some b =>
          match ops_ b with
          | [] => Crash OutOfBounds
          | front :: _ =>
              let evs := NewSession (read front) :: launch_events (ops_ b) in
              if has_ok (ops_ b) then mret (evs ++ [FlushAsync p], [p])
              else
                match next_ b with
                | Some n =>
                    '(evs', fl) ← Launch fuel' h n;
                    mret (evs ++ evs', fl)
                | None => mret (evs, [])
                end
          end
      end
  end.

(** the responses of [Block::Done] *)
Definition done_events (status : Status) (ops : list Operation) : list Event :=
  if ok status then
    map (λ op, RespondSuccess (index op) (op_response (index op))) ops
  else
    map (λ op, RespondFailure (index op) status) ops.

(** [Block::Done], as run by [BlockCallback::Run] *)
Definition Done (fuel : nat) (h : list Block) (p : nat) (status : Status)
  : outcome (list Event * list nat) :=
  match h !! p with
  | None => Crash NullDeref
  | Some b =>
      let evs := done_events status (ops_ b) in
      match next_ b with
      | Some n =>
          '(evs', fl) ← Launch fuel h n;
          mret (evs ++ evs', fl)
      | None => mret (evs, [])
      end
  end.

Definition launch_opt (fuel : nat) (h : list Block) (p : option nat)
  : outcome (list Event * list nat) :=
  match p with
  | Some p => Launch fuel h p
  | None => mret ([], [])
  end.

(** [BatchContext::Commit] *)
Definition Commit (fuel : nat) (c : BatchContext) : outcome (list Event * list nat) :=
  match flush_head_ c with
  | Some hd => Launch fuel (heap c) hd
  | None =>
      '(e1, f1) ← launch_opt fuel (heap c) (block (read_data_ c));
      '(e2, f2) ← launch_opt fuel (heap c) (block (write_data_ c));
      mret (e1 ++ e2, f1 ++ f2)
  end.

(** ** The life of a batch after [Handle] has returned

    [inflight] are the Blocks whose flush the backend has not completed
    yet, [trace] every call made so far. The backend completes the flushes
    in any order; each completion runs [Block::Done] on a callback thread.
    A completion is one step: the calls of one [Done], and of the [Launch]
    calls nested in it, enter the trace together. Along a chain this loses
    nothing, since a chain has at most one flush in flight and [Launch] makes
    no call after [FlushAsync]; two unchained Blocks could interleave their
    calls more finely than the steps do. *)
Record Exec := { inflight : list nat; trace : list Event }.

Inductive step (h : list Block) : Exec → Exec → Prop :=
| step_callback l1 p l2 tr evs fl :
    Done (length h) h p (flush_status p) = Ret (evs, fl) →
    step h {| inflight := l1 ++ p :: l2; trace := tr |}
           {| inflight := l1 ++ fl ++ l2; trace := tr ++ evs |}.

(** The schedule that always completes the oldest flush first, for at most
    [n] completions. *)
Fixpoint run (n : nat) (h : list Block) (e : Exec) : outcome Exec :=
  match inflight e with
  | [] => mret e
  | p :: rest =>
      match n with
      | 0 => Crash OutOfFuel
      | S n' =>
          '(evs, fl) ← Done (length h) h p (flush_status p);
          run n' h {| inflight := rest ++ fl; trace := trace e ++ evs |}
      end
  end.

End Backend.

(** ** The command table *)

Inductive CommandType := READ | WRITE | ECHO.

(** [struct RedisCommandInfo]. The [functor] of an entry is
    [READ_COMMAND], [WRITE_COMMAND] or [ECHO_COMMAND] applied to the parser
    named after the command, so its [CommandType] stands for it. *)
Record RedisCommandInfo := {
  name : string;
  functor : CommandType;
  arity : Z
}.

Definition REDIS_COMMANDS : list RedisCommandInfo :=
  [ {| name := "get"; functor := READ; arity := 2 |};
    {| name := "mget"; functor := READ; arity := -2 |};
    {| name := "hget"; functor := READ; arity := 3 |};
    {| name := "hmget"; functor := READ; arity := -3 |};
    {| name := "hgetall"; functor := READ; arity := 2 |};
    {| name := "smembers"; functor := READ; arity := 2 |};
    {| name := "strlen"; functor := READ; arity := 2 |};
    {| name := "exists"; functor := READ; arity := 2 |};
    {| name := "getrange"; functor := READ; arity := 4 |};
    {| name := "set"; functor := WRITE; arity := -3 |};
    {| name := "mset"; functor := WRITE; arity := -3 |};
    {| name := "hset"; functor := WRITE; arity := 4 |};
    {| name := "hmset"; functor := WRITE; arity := -4 |};
    {| name := "hdel"; functor := WRITE; arity := -3 |};
    {| name := "sadd"; functor := WRITE; arity := -3 |};
    {| name := "srem"; functor := WRITE; arity := -3 |};
    {| name := "getset"; functor := WRITE; arity := 3 |};
    {| name := "append"; functor := WRITE; arity := 3 |};
    {| name := "del"; functor := WRITE; arity := 2 |};
    {| name := "setrange"; functor := WRITE; arity := 4 |};
    {| name := "incr"; functor := WRITE; arity := 2 |};
    {| name := "echo"; functor := ECHO; arity := 2 |} ].

(** [SetupMethod]: [command_name_to_info_map_[info.name] = info] *)
Definition SetupMethod (m : gmap string RedisCommandInfo) (info : RedisCommandInfo)
  : gmap string RedisCommandInfo :=
  <[name info := info]> m.

(** the map that [PopulateHandlers] leaves behind *)
Definition command_name_to_info_map_ : gmap string RedisCommandInfo :=
  foldl SetupMethod ∅ REDIS_COMMANDS.

(** [boost::to_lower] in the classic locale: the 26 capital letters move,
    every other byte stays. *)
Definition to_lower_char (c : ascii) : ascii :=
  let n := nat_of_ascii c in
  if (65 <=? n)%nat && (n <=? 90)%nat then ascii_of_nat (n + 32) else c.

Fixpoint to_lower (s : string) : string :=
  match s with
  | EmptyString => EmptyString
  | String c s' => String (to_lower_char c) (to_lower s')
  end.

(** A [RedisClientCommand] is the vector of its tokens. *)
Definition RedisClientCommand := list string.

(** [RedisServiceImpl::Impl::FetchHandler] *)
Definition FetchHandler (cmd_args : RedisClientCommand) : option RedisCommandInfo :=
  match cmd_args with
  | [] => None
  | cmd_name :: _ => command_name_to_info_map_ !! to_lower cmd_name
  end.

(** ** The dispatcher *)

(** conversion of an [int] to [size_t] (64 bits) *)
Definition to_size_t (z : Z) : Z := z mod 2 ^ 64.

Definition size (command : RedisClientCommand) : Z := Z.of_nat (length command).

(** [STATUS_FORMAT(RuntimeError, "$0: $1", cmd, error)] *)
Definition failure_status (cmd error : string) : Status :=
  Failed (String.append cmd (String.append ": " error)).

(** [RedisServiceImpl::Impl::RespondWithFailure], [command] being
    [call->client_batch()[idx]]. *)
Definition RespondWithFailure (idx : nat) (command : RedisClientCommand)
    (error : string) : outcome (list Event) :=
  match command with
  | [] => Crash OutOfBounds
  | cmd :: _ => mret [RespondFailure idx (failure_status cmd error)]
  end.

(** The four branches of the loop body of [Handle]. *)
Inductive Dispatch :=
| Unsupported
| TooFew
| WrongNumber
| Invoke (info : RedisCommandInfo).

Definition dispatch (c : RedisClientCommand) : Dispatch :=
  match FetchHandler c with
  | None => Unsupported
  | Some cmd_info =>
      if (arity cmd_info <? 0)%Z && (size c <? to_size_t (-1 * arity cmd_info))%Z
      then TooFew
      else if (0 <? arity cmd_info)%Z && negb (size c =? to_size_t (arity cmd_info))%Z
      then WrongNumber
      else Invoke cmd_info
  end.

(** [ParseEcho]: [command[1]] *)
Definition ParseEcho (command : RedisClientCommand) : outcome string :=
  match command !! 1 with
  | Some s => mret s
  | None => Crash OutOfBounds
  end.

Section Dispatcher.

(** The parsers [ParseGet], [ParseSet], ... are declared, not defined, in
    this translation unit. [parser name command] is the status that the
    parser of command [name] returns on [command], and
    [GetBinary name command] what [op->row().GetBinary(kRedisKeyColumnName,
    &key)] then gives on the operation it filled: a status and the key. *)
Variable parser : string → RedisClientCommand → Status.
Variable GetBinary : string → RedisClientCommand → Status * string.
Variable FLAGS_redis_safe_batch : bool.

Variable session_apply : nat → Status.
Variable flush_status : nat → Status.

(** [RedisServiceImpl::Impl::EchoCommand] *)
Definition EchoCommand (idx : nat) (command : RedisClientCommand)
  : outcome (list Event) :=
  s ← ParseEcho command;
  mret [RespondSuccess idx (string_response s)].

(** the status and the keys with which [Command] reaches its test of
    [s.ok()] *)
Definition parse_keys (info : RedisCommandInfo) (command : RedisClientCommand)
  : Status * list string :=
  let s := parser (name info) command in
  if ok s && FLAGS_redis_safe_batch then
    let '(s', key) := GetBinary (name info) command in (s', [key])
  else (s, []).

(** [RedisServiceImpl::Impl::Command<Op>]; [rd] tells [YBRedisReadOp] from
    [YBRedisWriteOp]. *)
Definition Command (rd : bool) (info : RedisCommandInfo) (idx : nat)
    (command : RedisClientCommand) (context : BatchContext)
  : outcome (BatchContext * list Event) :=
  match parse_keys info command with
  | (Failed message, _) =>
      evs ← RespondWithFailure idx command message;
      mret (context, evs)
  | (OK, keys) =>
      context' ← Apply idx rd keys context;
      mret (context', [])
  end.

(** the body of the loop of [Handle] *)
Definition handle_command (idx : nat) (c : RedisClientCommand)
    (context : BatchContext) : outcome (BatchContext * list Event) :=
  match dispatch c with
  | Unsupported =>
      evs ← RespondWithFailure idx c "Unsupported call.";
      mret (context, evs)
  | TooFew =>
      evs ← RespondWithFailure idx c "Too few arguments.";
      mret (context, evs)
  | WrongNumber =>
      evs ← RespondWithFailure idx c "Wrong number of arguments.";
      mret (context, evs)
  | Invoke cmd_info =>
      match functor cmd_info with
      | READ => Command true cmd_info idx c context
      | WRITE => Command false cmd_info idx c context
      | ECHO =>
          evs ← EchoCommand idx c;
          mret (context, evs)
      end
  end.

(** the loop of [Handle], from index [idx] on *)
Fixpoint handle_loop (idx : nat) (batch : list RedisClientCommand)
    (context : BatchContext) : outcome (BatchContext * list Event) :=
  match batch with
  | [] => mret (context, [])
  | c :: rest =>
      '(context1, evs1) ← handle_command idx c context;
      '(context2, evs2) ← handle_loop (S idx) rest context1;
      mret (context2, evs1 ++ evs2)
  end.

(** the loop that answers every index when the client cannot be set up *)
Fixpoint fail_all (idx : nat) (batch : list RedisClientCommand) (message : string)
  : outcome (list Event) :=
  match batch with
  | [] => mret []
  | c :: rest =>
      evs1 ← RespondWithFailure idx c message;
      evs2 ← fail_all (S idx) rest message;
      mret (evs1 ++ evs2)
  end.

(** [RedisServiceImpl::Impl::Handle]. [setup] is the status of
    [SetUpYBClient] ([OK] too when the client was initialized before), and
    [setup_text] its [ToString()]. The result is the scheduler as [Commit]
    found it and the state in which the handler thread leaves the batch.
    The nested launches of [Commit] are bounded by the number of Blocks,
    which is enough ([Commit_order]). *)
Definition Handle (setup : Status) (setup_text : string)
    (batch : list RedisClientCommand) : outcome (BatchContext * Exec) :=
  if ok setup then
    '(context, evs) ← handle_loop 0 batch BatchContext_init;
    '(evs', fl) ← Commit session_apply (length (heap context)) context;
    mret (context, {| inflight := fl; trace := evs ++ evs' |})
  else
    evs ← fail_all 0 batch (String.append "Could not open .redis table. " setup_text);
    mret (BatchContext_init, {| inflight := []; trace := evs |}).

End Dispatcher.

(** ** Vocabulary of the properties *)

(** The arguments of one [BatchContext::Apply] call: the batch index, whether
    the operation is a read, and the keys. *)
Definition SchedOp := (nat * bool * list string)%type.

Definition apply_op (oc : outcome BatchContext) (o : SchedOp) : outcome BatchContext :=
  c ← oc; Apply o.1.1 o.1.2 o.2 c.

(** a fresh [BatchContext] after the [Apply] calls [ops], in order *)
Definition run_ops (ops : list SchedOp) : outcome BatchContext :=
  foldl apply_op (Ret BatchContext_init) ops.

Definition is_response (idx : nat) (e : Event) : bool :=
  match e with
  | RespondSuccess i _ | RespondFailure i _ => Nat.eqb i idx
  | _ => false
  end.

Definition is_backend_call (e : Event) : bool :=
  match e with
  | NewSession _ | SessionApply _ | FlushAsync _ => true
  | _ => false
  end.

(** how often index [idx] has been answered in a trace *)
Definition responses_at (idx : nat) (tr : list Event) : nat :=
  length (List.filter (is_response idx) tr).

(** index [idx] has been answered in a trace *)
Definition responded (idx : nat) (tr : list Event) : Prop :=
  ∃ e, e ∈ tr ∧ is_response idx e = true.

(** Parsers used to run concrete batches: every command parses, and the key
    of the operation is the second token. *)
Definition example_parser (_ : string) (_ : RedisClientCommand) : Status := OK.

Definition example_GetBinary (_ : string) (command : RedisClientCommand)
  : Status * string :=
  match command !! 1 with
  | Some key => (OK, key)
  | None => (Failed "key missing", "")
  end.

(** A session that turns down the operation of index 0 and takes the rest. *)
Definition reject_first (idx : nat) : Status :=
  match idx with 0 => Failed "rejected" | _ => OK end.

Definition accept_all (_ : nat) : Status := OK.

(** ** The scheduler invariant *)

Definition idx (o : SchedOp) : nat := o.1.1.
Definition kind (o : SchedOp) : bool := o.1.2.
Definition keys_of (o : SchedOp) : list string := o.2.
Definition to_op (o : SchedOp) : Operation := {| index := idx o; read := kind o |}.

(** the operations and the successor of the Block at [p] *)
Definition blk_ops (h : list Block) (p : nat) : list Operation :=
  default [] (ops_ <$> h !! p).

Definition blk_next (h : list Block) (p : nat) : option nat :=
  h !! p ≫= next_.

(** [chain] lists Blocks of [h], each the successor of the one before it and
    the last without successor. *)
Definition linked (h : list Block) (chain : list nat) : Prop :=
  ∀ i p, chain !! i = Some p → p < length h ∧ blk_next h p = chain !! S i.

(** batch indices handed to [Apply] in increasing order, as [Handle] does *)
Definition ascending (ops : list SchedOp) : Prop :=
  ∀ n1 n2 o1 o2,
    ops !! n1 = Some o1 → ops !! n2 = Some o2 → n1 < n2 → idx o1 < idx o2.

(** two operations of opposite kinds with a key in common *)
Definition conflicting (o1 o2 : SchedOp) : Prop :=
  kind o1 ≠ kind o2 ∧ ∃ k, k ∈ keys_of o1 ∧ k ∈ keys_of o2.

(** No conflict seen yet: at most one Block per kind, none chained. *)
Definition parallel_phase (ops : list SchedOp) (c : BatchContext) : Prop :=
  flush_head_ c = None ∧
  (∀ p, blk_next (heap c) p = None) ∧
  (∀ o, o ∈ ops →
        ∃ p, block (data (kind o) c) = Some p ∧ to_op o ∈ blk_ops (heap c) p) ∧
  (∀ o k, o ∈ ops → k ∈ keys_of o → k ∈ used_keys (data (kind o) c)) ∧
  (∀ o1 o2, o1 ∈ ops → o2 ∈ ops → ¬ conflicting o1 o2).

(** every operation of [ops] sits in a Block of [chain] *)
Definition placed (h : list Block) (chain : list nat) (ops : list SchedOp) : Prop :=
  ∀ o, o ∈ ops → ∃ i p, chain !! i = Some p ∧ to_op o ∈ blk_ops h p.

(** of two conflicting operations, the one with the smaller batch index sits
    in a Block that comes earlier in [chain] *)
Definition ordered (h : list Block) (chain : list nat) (ops : list SchedOp) : Prop :=
  ∀ o1 o2 i1 i2 p1 p2,
    o1 ∈ ops → o2 ∈ ops → idx o1 < idx o2 → conflicting o1 o2 →
    chain !! i1 = Some p1 → to_op o1 ∈ blk_ops h p1 →
    chain !! i2 = Some p2 → to_op o2 ∈ blk_ops h p2 →
    i1 < i2.

(** the keys of the operations of Block [T] are among [keys] *)
Definition covered (h : list Block) (T : nat) (keys : gset string)
    (ops : list SchedOp) : Prop :=
  ∀ o k, o ∈ ops → to_op o ∈ blk_ops h T → k ∈ keys_of o → k ∈ keys.

(** Some conflict seen, the last one led by kind [r]: the Blocks form the
    chain [pre ++ [P; T]] from [flush_head_]; [T] is the open Block of kind
    [r], [P] the open Block of the other kind. *)
Definition chain_phase (ops : list SchedOp) (c : BatchContext)
    (r : bool) (pre : list nat) (P T : nat) : Prop :=
  NoDup (pre ++ [P; T]) ∧
  flush_head_ c = head (pre ++ [P; T]) ∧
  block (data r c) = Some T ∧
  block (data (negb r) c) = Some P ∧
  linked (heap c) (pre ++ [P; T]) ∧
  placed (heap c) (pre ++ [P; T]) ops ∧
  (ascending ops →
   covered (heap c) T (used_keys (data r c)) ops ∧
   ordered (heap c) (pre ++ [P; T]) ops).

(** What holds of the scheduler after the [Apply] calls [ops]. *)
Record Inv (ops : list SchedOp) (c : BatchContext) : Prop := {
  inv_dfatal : dfatal c = [];
  inv_valid : ∀ rd p, block (data rd c) = Some p → p < length (heap c);
  inv_keys : ∀ rd, block (data rd c) = None → used_keys (data rd c) = ∅;
  inv_nonempty : ∀ p, p < length (heap c) → blk_ops (heap c) p ≠ [];
  inv_kind : ∀ rd p op,
    block (data rd c) = Some p → op ∈ blk_ops (heap c) p → read op = rd;
  inv_from : ∀ p op, op ∈ blk_ops (heap c) p → ∃ o, o ∈ ops ∧ to_op o = op;
  inv_once : ascending ops → ∀ p q op op',
    op ∈ blk_ops (heap c) p → op' ∈ blk_ops (heap c) q →
    index op = index op' → p = q;
  inv_phase :
    match last_conflict_was_read_ c with
    | indeterminate => parallel_phase ops c
    | t => ∃ r pre P T, t = tribool_of_bool r ∧ chain_phase ops c r pre P T
    end
}.

(** ** The three updates of the heap of Blocks *)

Definition heap_alloc (h : list Block) : list Block :=
  h ++ [{| ops_ := []; next_ := None |}].

Definition heap_set_next (p : nat) (n : option nat) (h : list Block) : list Block :=
  match h !! p with
  | Some b => <[p := {| ops_ := ops_ b; next_ := n |}]> h
  | None => h
  end.

Definition heap_add (p : nat) (op : Operation) (h : list Block) : list Block :=
  match h !! p with
  | Some b => <[p := AddOperation op b]> h
  | None => h
  end.

(** ** One [Apply], seen from the invariant *)

(** What every path through [Apply] does: the operation [op] lands at the
    end of the Block [X], which is the open Block of its kind afterwards and
    was so before unless it is fresh; the other kind's slot is untouched. *)
Record Step (c c' : BatchContext) (op : Operation) (X : nat) : Prop := {
  step_dfatal : dfatal c' = dfatal c;
  step_ops : ∀ p, blk_ops (heap c') p =
                  if decide (p = X) then blk_ops (heap c) X ++ [op]
                  else blk_ops (heap c) p;
  step_len : length (heap c') = length (heap c) ∨
             (length (heap c') = S (length (heap c)) ∧ X = length (heap c));
  step_lt : X < length (heap c');
  step_block : block (data (read op) c') = Some X;
  step_origin : block (data (read op) c) = Some X ∨ X = length (heap c);
  step_opp : data (negb (read op)) c' = data (negb (read op)) c
}.

(** ** Order of the calls in a trace *)

(** index [i] is answered before the operation of index [j] is handed to a
    session *)
Definition answers_first (tr : list Event) (i j : nat) : Prop :=
  ∀ t1 t2, tr = t1 ++ SessionApply j :: t2 → responded i t1.

(** the operations of the first [m] Blocks of [chain] have been answered *)
Definition answered_before (h : list Block) (chain : list nat) (m : nat)
    (tr : list Event) : Prop :=
  ∀ i p op, i < m → chain !! i = Some p → op ∈ blk_ops h p →
            responded (index op) tr.

(** wherever index [j] sits in [chain], index [i] sits in an earlier Block *)
Definition precedes (h : list Block) (chain : list nat) (i j : nat) : Prop :=
  ∀ pj q opj, chain !! pj = Some q → opj ∈ blk_ops h q → index opj = j →
    ∃ pi p opi, pi < pj ∧ chain !! pi = Some p ∧ opi ∈ blk_ops h p ∧ index opi = i.

Definition trace_ok (h : list Block) (chain : list nat) (tr : list Event) : Prop :=
  ∀ i j, precedes h chain i j → answers_first tr i j.

(** the state of a batch whose Blocks run one after the other along [chain] *)
Definition chain_exec (h : list Block) (chain : list nat) (e : Exec) : Prop :=
  trace_ok h chain (trace e) ∧
  (inflight e = [] ∨
   ∃ m p, inflight e = [p] ∧ chain !! m = Some p ∧
          answered_before h chain m (trace e)).

(** ** What [Handle] hands to the scheduler *)

Definition functor_read (t : CommandType) : option bool :=
  match t with
  | READ => Some true
  | WRITE => Some false
  | ECHO => None
  end.

Section Scheduled.

Variable parser : string → RedisClientCommand → Status.
Variable GetBinary : string → RedisClientCommand → Status * string.
Variable FLAGS_redis_safe_batch : bool.

(** The arguments of the [Apply] call that the loop body of [Handle] makes
    for the command [c] of index [i]; none when the command is answered by
    the dispatcher itself. *)
Definition sched_op (i : nat) (c : RedisClientCommand) : option SchedOp :=
  match dispatch c with
  | Invoke info =>
      match functor_read (functor info),
            parse_keys parser GetBinary FLAGS_redis_safe_batch info c with
      | Some rd, (OK, keys) => Some (i, rd, keys)
      | _, _ => None
      end
  | _ => None
  end.

Fixpoint sched_ops (i : nat) (batch : list RedisClientCommand) : list SchedOp :=
  match batch with
  | [] => []
  | c :: rest => option_list (sched_op i c) ++ sched_ops (S i) rest
  end.

End Scheduled.

(** ** The whole life of a batch *)

Section Order.

Variable session_apply : nat → Status.
Variable flush_status : nat → Status.

(** [Commit] returns; from then on every completion returns, and at every
    moment an operation is handed to a session only after every conflicting
    operation of smaller index has been answered. *)
Definition runs_in_order (ops : list SchedOp) (c : BatchContext)
    (tr0 : list Event) : Prop :=
  ∃ evs fl,
    Commit session_apply (length (heap c)) c = Ret (evs, fl) ∧
    ∀ e, rtc (step session_apply flush_status (heap c))
             {| inflight := fl; trace := tr0 ++ evs |} e →
         (inflight e = [] ∨ ∃ e', step session_apply flush_status (heap c) e e') ∧
         ∀ o1 o2, o1 ∈ ops → o2 ∈ ops → idx o1 < idx o2 → conflicting o1 o2 →
                  answers_first (trace e) (idx o1) (idx o2).

End Order.

(** ** What the Blocks hold *)

(** the operations of every Block, Block after Block *)
Definition all_ops (h : list Block) : list Operation :=
  flat_map (blk_ops h) (seq 0 (length h)).

(** the batch indices of a list of operations grow along the list *)
Definition increasing (ops : list Operation) : Prop :=
  ∀ n1 n2 op1 op2,
    ops !! n1 = Some op1 → ops !! n2 = Some op2 → n1 < n2 → index op1 < index op2.

(** Every Block is of one kind; where [Apply] was called in index order,
    every Block holds its operations in that order. *)
Record Tidy (ops : list SchedOp) (h : list Block) : Prop := {
  tidy_kind : ∀ p op op',
    op ∈ blk_ops h p → op' ∈ blk_ops h p → read op = read op';
  tidy_order : ascending ops → ∀ p, increasing (blk_ops h p)
}.

(** ** A batch without conflict *)

(** the calls of one kind, in call order *)
Definition of_kind (rd : bool) (ops : list SchedOp) : list SchedOp :=
  filter (λ o, kind o = rd) ops.

(** No conflict seen: each kind has at most its one open Block, which holds
    every operation of the kind in call order; no other Block exists, and
    the keys remembered for a kind are keys of its calls. *)
Record Unchained (ops : list SchedOp) (c : BatchContext) : Prop := {
  un_lcr : last_conflict_was_read_ c = indeterminate;
  un_keys : ∀ rd k, k ∈ used_keys (data rd c) →
                    ∃ o, o ∈ ops ∧ kind o = rd ∧ k ∈ keys_of o;
  un_block : ∀ rd p, block (data rd c) = Some p →
                     blk_ops (heap c) p = to_op <$> of_kind rd ops;
  un_none : ∀ rd, block (data rd c) = None → of_kind rd ops = [];
  un_open : ∀ p, p < length (heap c) → ∃ rd, block (data rd c) = Some p
}.

(** ** Counting the calls of a trace *)

Definition is_apply (j : nat) (e : Event) : bool :=
  match e with SessionApply i => Nat.eqb i j | _ => false end.

(** how often the operation of index [j] has been handed to a session *)
Definition applies_at (j : nat) (tr : list Event) : nat :=
  length (List.filter (is_apply j) tr).

(** how many operations of a list carry the batch index [i] *)
Definition count_idx (i : nat) (ops : list Operation) : nat :=
  length (List.filter (λ op, Nat.eqb (index op) i) ops).

Section Accounting.

Variable session_apply : nat → Status.

(** how many operations of a list carry the batch index [i] and are turned
    down by the session *)
Definition count_rej (i : nat) (ops : list Operation) : nat :=
  length (List.filter
            (λ op, Nat.eqb (index op) i && negb (ok (session_apply (index op))))
            ops).

(** the responses for index [i] that the launch of the Block at [p] makes *)
Definition launch_answers (h : list Block) (i p : nat) : nat :=
  count_rej i (blk_ops h p).

(** the responses for index [i] made for the Block at [p] from its launch
    to the end of its completion; a Block none of whose operations was
    accepted is not flushed and has no completion *)
Definition block_answers (h : list Block) (i p : nat) : nat :=
  count_rej i (blk_ops h p) +
  (if has_ok session_apply (blk_ops h p) then count_idx i (blk_ops h p) else 0).

(** the [session->Apply] calls for index [j] that the launch of the Block
    at [p] makes *)
Definition block_applies (h : list Block) (j p : nat) : nat :=
  count_idx j (blk_ops h p).

(** A batch between [Commit] and its last completion. [fin] are the Blocks
    that are through (completed, or launched and not flushed), [pend] the
    Blocks not launched yet; together with the Blocks in flight they are all
    the Blocks, each once. The responses and the [session->Apply] calls of
    the trace, beyond those of [tr0], are those of the Blocks launched so
    far. Either nothing is pending and no Block in flight has a successor, or
    one Block is in flight and the pending ones are chained behind it. *)
Definition running (h : list Block) (tr0 : list Event)
    (fin pend : list nat) (e : Exec) : Prop :=
  fin ++ inflight e ++ pend ≡ₚ seq 0 (length h) ∧
  (∀ q, q ∈ inflight e → has_ok session_apply (blk_ops h q) = true) ∧
  (∀ i, responses_at i (trace e) =
        responses_at i tr0 + sum_list_with (block_answers h i) fin +
        sum_list_with (launch_answers h i) (inflight e)) ∧
  (∀ j, applies_at j (trace e) =
        applies_at j tr0 + sum_list_with (block_applies h j) (fin ++ inflight e)) ∧
  ((pend = [] ∧ ∀ q, q ∈ inflight e → blk_next h q = None) ∨
   (∃ p, inflight e = [p] ∧ linked h (p :: pend))).

End Accounting.

(** ** The client, from call to call *)

(** What a run of [SetUpYBClient] that finds the flag unset meets: the
    status of [client_builder.Build] and, when that one is OK, the status of
    [client_->OpenTable]. *)
Record Attempt := { build_status : Status; open_table_status : Status }.

(** [RedisServiceImpl::Impl::SetUpYBClient]: the status returned and
    [yb_client_initialized_] afterwards. The mutex it holds makes its runs
    follow one another. *)
Definition SetUpYBClient (yb_client_initialized_ : bool) (a : Attempt)
  : Status * bool :=
  if negb yb_client_initialized_ then
    match build_status a with
    | Failed message => (Failed message, yb_client_initialized_)
    | OK =>
        match open_table_status a with
        | Failed message => (Failed message, yb_client_initialized_)
        | OK => (OK, true)
        end
    end
  else (OK, yb_client_initialized_).

Section Service.

Variable parser : string → RedisClientCommand → Status.
Variable GetBinary : string → RedisClientCommand → Status * string.
Variable FLAGS_redis_safe_batch : bool.
Variable session_apply : nat → Status.

(** [status.ToString()] *)
Variable ToString : Status → string.

(** One call of [Handle], from its test of [yb_client_initialized_] on: what
    it does with the batch, and the flag afterwards. *)
Definition Handle_call (yb_client_initialized_ : bool) (a : Attempt)
    (batch : list RedisClientCommand)
  : outcome (BatchContext * Exec) * bool :=
  if negb yb_client_initialized_ then
    let '(status, initialized) := SetUpYBClient yb_client_initialized_ a in
    (Handle parser GetBinary FLAGS_redis_safe_batch session_apply
            status (ToString status) batch, initialized)
  else
    (Handle parser GetBinary FLAGS_redis_safe_batch session_apply OK "" batch,
     yb_client_initialized_).

(** Calls handled one after the other, each with the attempt it would
    make. *)
Fixpoint serve (yb_client_initialized_ : bool)
    (calls : list (Attempt * list RedisClientCommand))
  : list (outcome (BatchContext * Exec)) :=
  match calls with
  | [] => []
  | (a, batch) :: rest =>
      let '(r, initialized) := Handle_call yb_client_initialized_ a batch in
      r :: serve initialized rest
  end.

End Service.

(** the status with which an attempt ends *)
Definition attempt_status (a : Attempt) : Status :=
  match build_status a with
  | Failed message => Failed message
  | OK => open_table_status a
  end.

(** * Properties *)

(** ** The command table and the branch taken *)

Lemma foldl_SetupMethod_lookup (l : list RedisCommandInfo)
    (m : gmap string RedisCommandInfo) k info :
  foldl SetupMethod m l !! k = Some info → info ∈ l ∨ m !! k = Some info.
Proof.
  revert m. induction l as [|x l IH]; intros m; simpl; [by right|].
  intros H. destruct (IH _ H) as [Hin | Hm].
  - left. apply elem_of_cons. by right.
  - unfold SetupMethod in Hm. rewrite lookup_insert in Hm.
    case_decide; [left; apply elem_of_cons; left; congruence | by right].
Qed.

Lemma FetchHandler_in_table c info :
  FetchHandler c = Some info → info ∈ REDIS_COMMANDS.
Proof.
  destruct c as [|cmd rest]; [done|]. simpl. intros H.
  apply foldl_SetupMethod_lookup in H as [H | H]; [done|].
  by rewrite lookup_empty in H.
Qed.

Lemma table_arity_bounds info :
  info ∈ REDIS_COMMANDS → (-4 ≤ arity info ≤ 4)%Z ∧ arity info ≠ 0%Z.
Proof.
  unfold REDIS_COMMANDS. rewrite !elem_of_cons, elem_of_nil.
  intros H. repeat (destruct H as [-> | H]; [simpl; lia|]). done.
Qed.

Lemma dispatch_Unsupported c : dispatch c = Unsupported ↔ FetchHandler c = None.
Proof.
  unfold dispatch. destruct (FetchHandler c); [|done].
  split; [|done]. repeat case_match; done.
Qed.

Lemma dispatch_Invoke c info : dispatch c = Invoke info → FetchHandler c = Some info.
Proof.
  unfold dispatch. destruct (FetchHandler c); [|done].
  repeat case_match; congruence.
Qed.

(** ** Failure messages *)

Lemma RespondWithFailure_cons idx cmd rest error :
  RespondWithFailure idx (cmd :: rest) error =
  Ret [RespondFailure idx (failure_status cmd error)].
Proof. reflexivity. Qed.

Lemma in_table_echo info :
  info ∈ REDIS_COMMANDS → functor info = ECHO → arity info = 2%Z.
Proof.
  unfold REDIS_COMMANDS. rewrite !elem_of_cons, elem_of_nil.
  intros H. repeat (destruct H as [-> | H]; [simpl; congruence|]). done.
Qed.

(** The scheduler makes no event: what [Command] emits is what
    [RespondWithFailure] emitted. *)
Lemma Command_events parser GetBinary safe rd info idx cmd rest context context' evs :
  Command parser GetBinary safe rd info idx (cmd :: rest) context = Ret (context', evs) →
  evs = [] ∨ ∃ error, evs = [RespondFailure idx (failure_status cmd error)].
Proof.
  unfold Command. destruct (parse_keys _ _ _ _ _) as [[|message] keys]; simpl.
  - destruct (Apply _ _ _ _); simpl; [|done]. intros [= _ <-]. by left.
  - intros [= _ <-]. right. by eexists.
Qed.

Lemma launch_events_failure session_apply ops i s :
  RespondFailure i s ∈ launch_events session_apply ops → s = session_apply i.
Proof.
  unfold launch_events. intros (op & _ & Hin)%list_elem_of_In%in_flat_map.
  apply list_elem_of_In in Hin. unfold launch_op in Hin.
  apply elem_of_cons in Hin as [[=] | Hin].
  destruct (ok _); [by apply elem_of_nil in Hin|].
  apply list_elem_of_singleton in Hin. by injection Hin as -> ->.
Qed.

Lemma done_events_failure status ops i s :
  RespondFailure i s ∈ done_events status ops → s = status.
Proof.
  unfold done_events. destruct (ok status);
    intros (op & Heq & _)%list_elem_of_fmap; [done|]. by injection Heq as _ ->.
Qed.

Lemma fail_all_prefix batch : ∀ i message evs j s,
  fail_all i batch message = Ret evs → RespondFailure j s ∈ evs →
  ∃ cmd rest, batch !! (j - i) = Some (cmd :: rest) ∧ i ≤ j ∧
              s = failure_status cmd message.
Proof.
  induction batch as [|c batch IH]; intros i message evs j s H Hin; simpl in H.
  - injection H as <-. by apply elem_of_nil in Hin.
  - destruct c as [|cmd rest]; [done|]. simpl in H.
    destruct (fail_all (S i) batch message) as [evs2|] eqn:H2; [|done].
    simpl in H. injection H as <-.
    apply elem_of_cons in Hin as [[= -> ->] | Hin].
    + exists cmd, rest. by rewrite Nat.sub_diag.
    + destruct (IH _ _ _ _ _ H2 Hin) as (cmd' & rest' & Hl & Hle & ->).
      exists cmd', rest'. split; [|split; [lia | done]].
      by replace (j - i) with (S (j - S i)) by lia.
Qed.

(** C8, as the code has it. Every failure that the dispatcher itself reports
    for a command (unknown command, arity, parser or key error, and the
    client that cannot be set up) carries the command's first token exactly
    as the client sent it, then ": ", then the error text; the token is not
    lowercased. An unknown command is answered, at its index, with that token
    followed by ": Unsupported call.". A failure reported by a Block carries
    the status of the session or of the flush as it is, without any prefix. *)
Theorem C8_failure_prefix parser GetBinary safe idx cmd rest context context' evs :
  handle_command parser GetBinary safe idx (cmd :: rest) context = Ret (context', evs) →
  (∀ i s, RespondFailure i s ∈ evs →
          i = idx ∧ ∃ error, s = failure_status cmd error) ∧
  (FetchHandler (cmd :: rest) = None →
   context' = context ∧
   evs = [RespondFailure idx (failure_status cmd "Unsupported call.")]) ∧
  (∀ i batch message evs' j s,
     fail_all i batch message = Ret evs' → RespondFailure j s ∈ evs' →
     ∃ cmd' rest', batch !! (j - i) = Some (cmd' :: rest') ∧
                   s = failure_status cmd' message) ∧
  (∀ session_apply ops i s,
     RespondFailure i s ∈ launch_events session_apply ops → s = session_apply i) ∧
  (∀ status ops i s,
     RespondFailure i s ∈ done_events status ops → s = status).
Proof.
  intros H. split; [|split; [|split; [|split]]].
  - intros i s Hin. unfold handle_command in H.
    destruct (dispatch (cmd :: rest)) as [| | |info].
    1-3: injection H as _ <-; apply list_elem_of_singleton in Hin;
         injection Hin as -> ->; split; [done | by eexists].
    destruct (functor info).
    1-2: apply Command_events in H as [-> | [error ->]];
         [by apply elem_of_nil in Hin
         | apply list_elem_of_singleton in Hin; injection Hin as -> ->;
           split; [done | by eexists]].
    unfold EchoCommand in H. destruct (ParseEcho _); simpl in H; [|done].
    injection H as _ <-. apply list_elem_of_singleton in Hin. done.
  - intros Hf. apply dispatch_Unsupported in Hf.
    unfold handle_command in H. rewrite Hf in H. simpl in H.
    by injection H as <- <-.
  - intros i batch message evs' j s Hfa Hin.
    destruct (fail_all_prefix _ _ _ _ _ _ Hfa Hin) as (cmd' & rest' & ? & _ & ?).
    by exists cmd', rest'.
  - apply launch_events_failure.
  - apply done_events_failure.
Qed.

Lemma C8_failure_prefix_witness :
  ∃ context' evs,
    handle_command example_parser example_GetBinary true 0 ["FOO"; "a"; "b"]
                   BatchContext_init = Ret (context', evs) ∧
    context' = BatchContext_init ∧
    evs = [RespondFailure 0 (Failed "FOO: Unsupported call.")].
Proof.
  eexists _, _. split; [reflexivity|].
  apply (C8_failure_prefix example_parser example_GetBinary true 0 "FOO" ["a"; "b"]
           BatchContext_init).
  - reflexivity.
  - reflexivity.
Defined.

(** C8, as the specification words it, fails twice. The batch [FOO a b] is
    answered with "FOO: Unsupported call.", and not with
    "foo: Unsupported call."; and when the session turns down the operation
    of [SET a 1], index 0 is answered with the session's status "rejected",
    which no command name precedes. *)
Lemma C8_counterexample :
  Handle example_parser example_GetBinary true accept_all OK "" [["FOO"; "a"; "b"]] =
  Ret (BatchContext_init,
       {| inflight := [];
          trace := [RespondFailure 0 (Failed "FOO: Unsupported call.")] |}) ∧
  RespondFailure 0 (Failed "FOO: Unsupported call.") ≠
  RespondFailure 0 (Failed "foo: Unsupported call.") ∧
  ∃ context,
    Handle example_parser example_GetBinary true reject_first OK "" [["SET"; "a"; "1"]] =
    Ret (context,
         {| inflight := [];
            trace := [NewSession false; SessionApply 0;
                      RespondFailure 0 (Failed "rejected")] |}).
Proof.
  split; [reflexivity|]. split; [discriminate|].
  eexists. vm_compute. reflexivity.
Qed.

(** ** ECHO *)

Lemma echo_lookup :
  command_name_to_info_map_ !! "echo" =
  Some {| name := "echo"; functor := ECHO; arity := 2 |}.
Proof. vm_compute. reflexivity. Qed.

(** C9. An ECHO command of exactly two tokens (its name in any mix of cases)
    is answered at its index with a success whose [string_response] is the
    second token, byte for byte; the scheduler is left as it was, so no
    Operation is made and no Block is entered, and a batch made of that one
    command ends with no backend call and nothing in flight. *)
Theorem C9_echo parser GetBinary safe idx cmd arg context :
  to_lower cmd = "echo" →
  handle_command parser GetBinary safe idx [cmd; arg] context =
    Ret (context, [RespondSuccess idx (string_response arg)]) ∧
  ∀ session_apply text,
    Handle parser GetBinary safe session_apply OK text [[cmd; arg]] =
    Ret (BatchContext_init,
         {| inflight := []; trace := [RespondSuccess 0 (string_response arg)] |}).
Proof.
  intros Hl.
  assert (Hd : dispatch [cmd; arg] = Invoke {| name := "echo"; functor := ECHO; arity := 2 |}).
  { unfold dispatch, FetchHandler. rewrite Hl, echo_lookup. reflexivity. }
  assert (Hh : ∀ i c, handle_command parser GetBinary safe i [cmd; arg] c =
                      Ret (c, [RespondSuccess i (string_response arg)])).
  { intros i c. unfold handle_command. rewrite Hd. reflexivity. }
  split; [apply Hh|].
  intros session_apply text. unfold Handle. cbn [ok handle_loop].
  rewrite Hh. vm_compute. reflexivity.
Qed.

Lemma C9_echo_witness :
  to_lower "EcHo" = "echo" ∧
  handle_command example_parser example_GetBinary true 7 ["EcHo"; "hello"]
                 BatchContext_init =
  Ret (BatchContext_init, [RespondSuccess 7 (string_response "hello")]).
Proof.
  split; [reflexivity|].
  apply (C9_echo example_parser example_GetBinary true 7 "EcHo" "hello" BatchContext_init).
  reflexivity.
Defined.

(** ** Reads of the token vector *)

Lemma SetNext_crash h p n f : SetNext h p n = Crash f → f = NullDeref.
Proof. unfold SetNext. repeat case_match; congruence. Qed.

Lemma ConflictFound_crash rd c f : ConflictFound rd c = Crash f → f = NullDeref.
Proof.
  unfold ConflictFound. destruct (is_indeterminate _); simpl; [|done].
  destruct (SetNext _ _ _) as [[o h]|f'] eqn:E; simpl; [done|].
  intros [= <-]. by eapply SetNext_crash.
Qed.

Lemma CheckConflicts_crash rd keys c f :
  CheckConflicts rd keys c = Crash f → f = NullDeref.
Proof.
  unfold CheckConflicts. repeat case_match; try done. apply ConflictFound_crash.
Qed.

Lemma acquire_block_crash idx rd c f :
  acquire_block idx rd c = Crash f → f = NullDeref.
Proof.
  unfold acquire_block. destruct (block (data rd c)); [done|].
  destruct (tribool_eq _ _); [|done].
  destruct (SetNext _ _ _) as [[o h]|f'] eqn:E; simpl; [done|].
  intros [= <-]. by eapply SetNext_crash.
Qed.

Lemma add_to_block_crash op c f : add_to_block op c = Crash f → f = NullDeref.
Proof. unfold add_to_block. repeat case_match; try done; congruence. Qed.

(** The scheduler reads no token: the only fault [Apply] could raise is a
    null dereference. *)
Lemma Apply_crash idx rd keys c f : Apply idx rd keys c = Crash f → f = NullDeref.
Proof.
  unfold Apply.
  destruct (CheckConflicts rd keys c) as [c1|f1] eqn:E1; simpl;
    [|intros [= <-]; by eapply CheckConflicts_crash].
  destruct (acquire_block idx rd c1) as [c2|f2] eqn:E2; simpl;
    [|intros [= <-]; by eapply acquire_block_crash].
  destruct (add_to_block _ c2) as [c3|f3] eqn:E3; simpl; [done|].
  intros [= <-]; by eapply add_to_block_crash.
Qed.

Lemma dispatch_Invoke_size c info :
  dispatch c = Invoke info →
  ((0 < arity info)%Z → size c = arity info) ∧
  ((arity info < 0)%Z → (Z.abs (arity info) ≤ size c)%Z).
Proof.
  intros Hd. pose proof (dispatch_Invoke _ _ Hd) as Hf.
  pose proof (table_arity_bounds _ (FetchHandler_in_table _ _ Hf)) as [Hb Hnz].
  unfold dispatch in Hd. rewrite Hf in Hd. unfold to_size_t in Hd.
  split; intros Ha.
  - rewrite (Z.mod_small (arity info)) in Hd by lia.
    destruct (Z.ltb_spec (arity info) 0); [lia|]. simpl in Hd.
    destruct (Z.ltb_spec 0 (arity info)); [|lia]. simpl in Hd.
    destruct (Z.eqb_spec (size c) (arity info)); [done | simpl in Hd; done].
  - rewrite (Z.mod_small (-1 * arity info)) in Hd by lia.
    destruct (Z.ltb_spec (arity info) 0); [|lia]. simpl in Hd.
    destruct (Z.ltb_spec (size c) (-1 * arity info)); [simpl in Hd; done | lia].
Qed.

(** C10. [RespondWithFailure] reads the first token whatever the command:
    on a command with at least one token it answers, on a command with none
    the read is out of bounds. [FetchHandler] finds no handler for a command
    without tokens, so the dispatcher takes it to [RespondWithFailure]: the
    loop body of [Handle] reads out of bounds exactly on the commands that
    have no token. *)
Theorem C10_failure_reads_first_token parser GetBinary safe idx
    (c : RedisClientCommand) context error :
  (RespondWithFailure idx c error = Crash OutOfBounds ↔ c = []) ∧
  (∀ cmd rest, RespondWithFailure idx (cmd :: rest) error =
               Ret [RespondFailure idx (failure_status cmd error)]) ∧
  FetchHandler [] = None ∧
  (handle_command parser GetBinary safe idx c context = Crash OutOfBounds ↔ c = []).
Proof.
  split; [|split; [|split]].
  - destruct c; simpl; split; done.
  - reflexivity.
  - reflexivity.
  - split; [|by intros ->].
    destruct c as [|cmd rest]; [done|]. intros H. exfalso.
    unfold handle_command in H.
    destruct (dispatch (cmd :: rest)) as [| | |info] eqn:Hd; try done.
    destruct (functor info) eqn:Hfun.
    1-2: unfold Command in H;
         destruct (parse_keys _ _ _ _ _) as [[|message] keys]; simpl in H; [|done];
         destruct (Apply _ _ _ _) as [c'|f] eqn:HA; simpl in H; [done|];
         apply Apply_crash in HA; injection H as ->; done.
    pose proof (dispatch_Invoke _ _ Hd) as Hf.
    pose proof (FetchHandler_in_table _ _ Hf) as Hin.
    pose proof (in_table_echo _ Hin Hfun) as Ha.
    destruct (dispatch_Invoke_size _ _ Hd) as [Hsz _]. specialize (Hsz ltac:(lia)).
    unfold size in Hsz. simpl in Hsz.
    destruct rest as [|arg rest]; [simpl in Hsz; lia|]. done.
Qed.

(** ** Block::Launch *)

Lemma has_ok_false session_apply ops :
  has_ok session_apply ops = false ↔
  Forall (λ op, ok (session_apply (index op)) = false) ops.
Proof.
  unfold has_ok. induction ops as [|op ops IH]; simpl.
  - split; [constructor | done].
  - rewrite orb_false_iff, IH, Forall_cons. done.
Qed.

Lemma has_ok_true session_apply ops :
  has_ok session_apply ops = true ↔
  Exists (λ op, ok (session_apply (index op)) = true) ops.
Proof.
  unfold has_ok. induction ops as [|op ops IH]; simpl.
  - split; [done | by intros ?%Exists_nil].
  - rewrite orb_true_iff, IH, Exists_cons. done.
Qed.

Lemma launch_events_no_flush session_apply ops :
  Forall (λ e, ∀ q, e ≠ FlushAsync q) (launch_events session_apply ops).
Proof.
  unfold launch_events. induction ops as [|op ops IH]; simpl; [constructor|].
  constructor; [done|]. unfold launch_op.
  destruct (ok _); simpl; [done|]. by constructor.
Qed.

(** C6. A launched Block none of whose operations the session accepts makes
    no [FlushAsync]: after its session calls it launches its successor, if it
    has one, and is itself not left in flight. A Block with at least one
    accepted operation ends its launch with the [FlushAsync] of its own
    callback and is left in flight. *)
Theorem C6_launch_flush_or_skip session_apply fuel h p b front rest :
  h !! p = Some b →
  ops_ b = front :: rest →
  let calls := NewSession (read front) :: launch_events session_apply (ops_ b) in
  (Forall (λ op, ok (session_apply (index op)) = false) (ops_ b) →
     Forall (λ e, ∀ q, e ≠ FlushAsync q) calls ∧
     Launch session_apply (S fuel) h p =
       match next_ b with
       | Some n =>
           '(evs', fl) ← Launch session_apply fuel h n;
           mret (calls ++ evs', fl)
       | None => mret (calls, [])
       end) ∧
  (Exists (λ op, ok (session_apply (index op)) = true) (ops_ b) →
     Launch session_apply (S fuel) h p = Ret (calls ++ [FlushAsync p], [p])).
Proof.
  intros Hp Hops calls. split.
  - intros Hall. split.
    + constructor; [done | apply launch_events_no_flush].
    + apply has_ok_false in Hall. simpl. rewrite Hp, Hops.
      rewrite <- Hops, Hall. reflexivity.
  - intros Hex. apply has_ok_true in Hex. simpl. rewrite Hp, Hops.
    rewrite <- Hops, Hex. reflexivity.
Qed.

Lemma C6_launch_flush_or_skip_witness :
  let h := [ {| ops_ := [{| index := 0; read := true |}]; next_ := Some 1 |};
             {| ops_ := [{| index := 1; read := false |}]; next_ := None |} ] in
  Launch reject_first 2 h 0 =
  Ret ([NewSession true; SessionApply 0; RespondFailure 0 (Failed "rejected");
        NewSession false; SessionApply 1; FlushAsync 1], [1]).
Proof.
  intros h.
  pose proof (C6_launch_flush_or_skip reject_first 1 h 0
                {| ops_ := [{| index := 0; read := true |}]; next_ := Some 1 |}
                {| index := 0; read := true |} [] eq_refl eq_refl) as [Hskip _].
  destruct Hskip as [_ ->].
  - repeat constructor.
  - reflexivity.
Defined.

(** ** An operation the session turns down *)

(** C1 fails on the code. The batch [GET a], [GET b] puts both reads in one
    Block. When the session turns down the first and takes the second,
    [Launch] answers index 0 with the failure and flushes; [Done] then
    answers every operation of the Block, index 0 among them. Index 0 is
    answered twice and the batch of two commands gets three responses. *)
Theorem C1_rejected_op_answered_twice :
  ∃ c e0 e,
    Handle example_parser example_GetBinary true reject_first OK ""
           [["GET"; "a"]; ["GET"; "b"]] = Ret (c, e0) ∧
    run reject_first accept_all 2 (heap c) e0 = Ret e ∧
    inflight e = [] ∧
    trace e = [ NewSession true;
                SessionApply 0; RespondFailure 0 (Failed "rejected");
                SessionApply 1;
                FlushAsync 0;
                RespondSuccess 0 (op_response 0);
                RespondSuccess 1 (op_response 1) ] ∧
    responses_at 0 (trace e) = 2 ∧
    responses_at 0 (trace e) + responses_at 1 (trace e) = 3.
Proof.
  eexists _, _, _. split; [vm_compute; reflexivity|].
  split; [vm_compute; reflexivity|].
  repeat split.
Qed.

(** C2 fails on the code in its middle part. In the Block of [SET a 1],
    [SET b 2] with the first operation turned down by the session, [Launch]
    answers index 0 at once and still flushes for index 1, but the operation
    of index 0 stays in [ops_]: when the flush completes, here with a
    failure, [Done] answers index 0 a second time. *)
Theorem C2_rejected_op_stays_in_block :
  let h := [ {| ops_ := [ {| index := 0; read := false |};
                          {| index := 1; read := false |} ];
                next_ := None |} ] in
  let timed_out := Failed "timed out" in
  (∃ c e0, Handle example_parser example_GetBinary true reject_first OK ""
                  [["SET"; "a"; "1"]; ["SET"; "b"; "2"]] = Ret (c, e0) ∧
           heap c = h ∧
           e0 = {| inflight := [0];
                   trace := [ NewSession false;
                              SessionApply 0; RespondFailure 0 (Failed "rejected");
                              SessionApply 1;
                              FlushAsync 0 ] |}) ∧
  Done reject_first 1 h 0 timed_out =
  Ret ([RespondFailure 0 timed_out; RespondFailure 1 timed_out], []).
Proof.
  intros h timed_out. split.
  - eexists _, _. split; [vm_compute; reflexivity|]. done.
  - reflexivity.
Qed.

(** ** The heap of Blocks under the three updates of the scheduler *)

Lemma length_heap_alloc h : length (heap_alloc h) = S (length h).
Proof. unfold heap_alloc. rewrite length_app. simpl. lia. Qed.

Lemma length_heap_set_next p n h : length (heap_set_next p n h) = length h.
Proof. unfold heap_set_next. destruct (h !! p); [apply length_insert | done]. Qed.

Lemma length_heap_add p op h : length (heap_add p op h) = length h.
Proof. unfold heap_add. destruct (h !! p); [apply length_insert | done]. Qed.

Lemma blk_ops_alloc h p : blk_ops (heap_alloc h) p = blk_ops h p.
Proof.
  unfold blk_ops, heap_alloc. destruct (decide (p < length h)) as [Hlt|Hge].
  - by rewrite lookup_app_l.
  - rewrite (lookup_ge_None_2 h p) by lia.
    destruct (decide (p = length h)) as [->|Hne].
    + by rewrite list_lookup_middle.
    + rewrite lookup_ge_None_2; [done|]. rewrite length_app. simpl. lia.
Qed.

Lemma blk_next_alloc h p : blk_next (heap_alloc h) p = blk_next h p.
Proof.
  unfold blk_next, heap_alloc. destruct (decide (p < length h)) as [Hlt|Hge].
  - by rewrite lookup_app_l.
  - rewrite (lookup_ge_None_2 h p) by lia.
    destruct (decide (p = length h)) as [->|Hne].
    + by rewrite list_lookup_middle.
    + rewrite lookup_ge_None_2; [done|]. rewrite length_app. simpl. lia.
Qed.

Lemma blk_ops_set_next i n h p : blk_ops (heap_set_next i n h) p = blk_ops h p.
Proof.
  unfold blk_ops, heap_set_next. destruct (h !! i) as [b|] eqn:Hi; [|done].
  destruct (decide (i = p)) as [->|Hne].
  - rewrite list_lookup_insert_eq by (by eapply lookup_lt_Some). by rewrite Hi.
  - by rewrite list_lookup_insert_ne.
Qed.

Lemma blk_next_set_next i n h p :
  i < length h →
  blk_next (heap_set_next i n h) p = if decide (p = i) then n else blk_next h p.
Proof.
  intros Hlt. unfold blk_next, heap_set_next.
  destruct (lookup_lt_is_Some_2 h i Hlt) as [b Hi]. rewrite Hi.
  destruct (decide (p = i)) as [->|Hne].
  - by rewrite list_lookup_insert_eq.
  - by rewrite list_lookup_insert_ne.
Qed.

Lemma blk_ops_add i op h p :
  i < length h →
  blk_ops (heap_add i op h) p =
  if decide (p = i) then blk_ops h i ++ [op] else blk_ops h p.
Proof.
  intros Hlt. unfold blk_ops, heap_add.
  destruct (lookup_lt_is_Some_2 h i Hlt) as [b Hi]. rewrite Hi.
  destruct (decide (p = i)) as [->|Hne].
  - by rewrite list_lookup_insert_eq.
  - by rewrite list_lookup_insert_ne.
Qed.

Lemma blk_next_add i op h p : blk_next (heap_add i op h) p = blk_next h p.
Proof.
  unfold blk_next, heap_add. destruct (h !! i) as [b|] eqn:Hi; [|done].
  destruct (decide (i = p)) as [->|Hne].
  - rewrite list_lookup_insert_eq by (by eapply lookup_lt_Some). by rewrite Hi.
  - by rewrite list_lookup_insert_ne.
Qed.

Lemma heap_set_next_id p h : blk_next h p = None → heap_set_next p None h = h.
Proof.
  unfold blk_next, heap_set_next. destruct (h !! p) as [[ops n]|] eqn:Hp; [|done].
  simpl. intros ->. by apply list_insert_id.
Qed.

Lemma SetNext_Some h p n :
  p < length h → SetNext h (Some p) n = Ret (blk_next h p, heap_set_next p n h).
Proof.
  intros Hlt. unfold SetNext, blk_next, heap_set_next.
  destruct (lookup_lt_is_Some_2 h p Hlt) as [b ->]. done.
Qed.

Lemma add_to_block_Some op c p :
  block (data (read op) c) = Some p → p < length (heap c) →
  add_to_block op c = Ret (set_heap (heap_add p op (heap c)) c).
Proof.
  intros Hb Hlt. unfold add_to_block, heap_add. rewrite Hb.
  destruct (lookup_lt_is_Some_2 _ p Hlt) as [b ->]. done.
Qed.

(** ** Projections of the updated context *)

Lemma data_set_data_eq rd d c : data rd (set_data rd d c) = d.
Proof. by destruct rd. Qed.

Lemma data_set_data_ne rd d c : data (negb rd) (set_data rd d c) = data (negb rd) c.
Proof. by destruct rd. Qed.

Lemma bool_cases (rd rd' : bool) : rd' = rd ∨ rd' = negb rd.
Proof. destruct rd, rd'; auto. Qed.

Lemma tribool_eq_of_bool r rd : tribool_eq (tribool_of_bool r) rd = bool_decide (r = rd).
Proof. by destruct r, rd. Qed.

Lemma has_conflict_true d keys :
  has_conflict d keys = true ↔ ∃ k, k ∈ keys ∧ k ∈ used_keys d.
Proof.
  unfold has_conflict. rewrite existsb_exists. split.
  - intros (k & Hin & Hk). exists k. split; [by apply list_elem_of_In|].
    by apply bool_decide_eq_true_1 in Hk.
  - intros (k & Hin & Hk). exists k. split; [by apply list_elem_of_In|].
    by apply bool_decide_eq_true_2.
Qed.

Lemma has_conflict_false d keys :
  has_conflict d keys = false ↔ ∀ k, k ∈ keys → k ∉ used_keys d.
Proof.
  rewrite <- not_true_iff_false, has_conflict_true. split.
  - intros H k Hin Hk. apply H. eauto.
  - intros H (k & Hin & Hk). by eapply H.
Qed.

Lemma RememberKeys_keys rd keys c k :
  k ∈ used_keys (data rd (RememberKeys rd keys c)) ↔
  k ∈ keys ∨ k ∈ used_keys (data rd c).
Proof.
  unfold RememberKeys. rewrite data_set_data_eq. simpl.
  generalize (used_keys (data rd c)). induction keys as [|k' keys IH]; intros s; simpl.
  - rewrite elem_of_nil. tauto.
  - rewrite IH, elem_of_cons, elem_of_union, elem_of_singleton. tauto.
Qed.

(** ** The four ways through [Apply] *)

(** No phase change, the kind has its Block: the operation joins it. *)
Lemma Apply_join idx rd keys c p :
  CheckConflicts rd keys c = Ret c →
  block (data rd c) = Some p → p < length (heap c) →
  Apply idx rd keys c =
  Ret (RememberKeys rd keys
         (set_heap (heap_add p {| index := idx; read := rd |} (heap c)) c)).
Proof.
  intros Hcc Hb Hlt. unfold Apply. rewrite Hcc. cbn [mbind outcome_bind].
  unfold acquire_block. rewrite Hb. cbn [mbind mret outcome_bind outcome_ret].
  rewrite (add_to_block_Some _ _ p) by done. done.
Qed.

(** No conflict and no Block of the kind yet: a Block is made and stays
    unchained. *)
Lemma Apply_open idx rd keys c :
  CheckConflicts rd keys c = Ret c →
  block (data rd c) = None →
  tribool_eq (last_conflict_was_read_ c) rd = false →
  Apply idx rd keys c =
  Ret (RememberKeys rd keys
         (set_heap (heap_add (length (heap c)) {| index := idx; read := rd |}
                             (heap_alloc (heap c)))
            (set_data rd {| used_keys := used_keys (data rd c);
                            block := Some (length (heap c)) |} c))).
Proof.
  intros Hcc Hb Hlc. unfold Apply. rewrite Hcc. cbn [mbind outcome_bind].
  unfold acquire_block. rewrite Hb. destruct rd; simpl in *; rewrite Hlc;
    cbn [mbind mret outcome_bind outcome_ret].
  all: erewrite add_to_block_Some;
    [ | simpl; reflexivity | simpl; rewrite length_app; simpl; lia ].
  all: reflexivity.
Qed.

(** The first conflict, the kind having its Block already: the opposite
    Block becomes the head and this Block its successor. *)
Lemma Apply_first_conflict_join idx rd keys c P T :
  last_conflict_was_read_ c = indeterminate →
  has_conflict (data (negb rd) c) keys = true →
  block (data (negb rd) c) = Some P → P < length (heap c) →
  block (data rd c) = Some T → T < length (heap c) →
  Apply idx rd keys c =
  Ret (RememberKeys rd keys
         (set_heap (heap_add T {| index := idx; read := rd |}
                             (heap_set_next P (Some T) (heap c)))
            (set_last_conflict (tribool_of_bool rd)
               (set_flush_head (Some P) c)))).
Proof.
  intros Hlc Hcf HP HPlt HT HTlt. unfold Apply, CheckConflicts.
  rewrite Hlc, Hcf. simpl tribool_eq. cbv iota.
  unfold ConflictFound. rewrite Hlc. simpl is_indeterminate. cbv iota.
  destruct rd; simpl in *; rewrite HP, HT, (SetNext_Some _ P) by done;
    cbn [mbind mret outcome_bind outcome_ret].
  all: unfold acquire_block; simpl; rewrite HT;
    cbn [mbind mret outcome_bind outcome_ret].
  all: erewrite add_to_block_Some;
    [ | simpl; eassumption | simpl; by rewrite length_heap_set_next ].
  all: reflexivity.
Qed.

(** The first conflict, the kind having no Block: the opposite Block becomes
    the head and a fresh Block its successor. *)
Lemma Apply_first_conflict_open idx rd keys c P :
  last_conflict_was_read_ c = indeterminate →
  has_conflict (data (negb rd) c) keys = true →
  block (data (negb rd) c) = Some P → P < length (heap c) →
  blk_next (heap c) P = None →
  block (data rd c) = None →
  Apply idx rd keys c =
  Ret (RememberKeys rd keys
         (set_heap (heap_add (length (heap c)) {| index := idx; read := rd |}
                      (heap_set_next P (Some (length (heap c)))
                         (heap_alloc (heap c))))
            (set_data rd {| used_keys := used_keys (data rd c);
                            block := Some (length (heap c)) |}
               (set_last_conflict (tribool_of_bool rd)
                  (set_flush_head (Some P) c))))).
Proof.
  intros Hlc Hcf HP HPlt Hnext HT. unfold Apply, CheckConflicts.
  rewrite Hlc, Hcf. simpl tribool_eq. cbv iota.
  unfold ConflictFound. rewrite Hlc. simpl is_indeterminate. cbv iota.
  destruct rd; simpl in *; rewrite HP, HT, (SetNext_Some _ P) by done;
    rewrite heap_set_next_id by done;
    cbn [mbind mret outcome_bind outcome_ret].
  all: unfold acquire_block; simpl; rewrite HT, HP.
  all: rewrite (SetNext_Some _ P) by (fold (heap_alloc (heap c)); rewrite length_heap_alloc; lia).
  all: fold (heap_alloc (heap c)); rewrite blk_next_alloc, Hnext;
    cbn [mbind mret outcome_bind outcome_ret].
  all: erewrite add_to_block_Some;
    [ | simpl; reflexivity
      | simpl; rewrite length_heap_set_next, length_heap_alloc; lia ].
  all: reflexivity.
Qed.

(** A later conflict: the kind's Block and keys are let go, and a fresh
    Block becomes the successor of the opposite Block. *)
Lemma Apply_flip idx rd keys c T :
  last_conflict_was_read_ c = tribool_of_bool (negb rd) →
  has_conflict (data (negb rd) c) keys = true →
  block (data (negb rd) c) = Some T → T < length (heap c) →
  blk_next (heap c) T = None →
  Apply idx rd keys c =
  Ret (RememberKeys rd keys
         (set_heap (heap_add (length (heap c)) {| index := idx; read := rd |}
                      (heap_set_next T (Some (length (heap c)))
                         (heap_alloc (heap c))))
            (set_data rd {| used_keys := ∅; block := Some (length (heap c)) |}
               (set_last_conflict (tribool_of_bool rd) c)))).
Proof.
  intros Hlc Hcf HT HTlt Hnext. unfold Apply, CheckConflicts.
  rewrite Hlc, Hcf. unfold ConflictFound. rewrite Hlc.
  destruct rd; simpl in *; cbn [mbind mret outcome_bind outcome_ret].
  all: unfold acquire_block; simpl; rewrite HT.
  all: rewrite (SetNext_Some _ T) by (fold (heap_alloc (heap c)); rewrite length_heap_alloc; lia).
  all: fold (heap_alloc (heap c)); rewrite blk_next_alloc, Hnext;
    cbn [mbind mret outcome_bind outcome_ret].
  all: erewrite add_to_block_Some;
    [ | simpl; reflexivity
      | simpl; rewrite length_heap_set_next, length_heap_alloc; lia ].
  all: reflexivity.
Qed.

(** ** What a step of the scheduler keeps *)

Lemma ascending_snoc ops o :
  ascending (ops ++ [o]) → ascending ops ∧ ∀ o', o' ∈ ops → idx o' < idx o.
Proof.
  intros Ha. split.
  - intros n1 n2 o1 o2 H1 H2 Hlt.
    apply (Ha n1 n2); [by apply lookup_app_l_Some | by apply lookup_app_l_Some | done].
  - intros o' [n Hn]%list_elem_of_lookup.
    apply (Ha n (length ops)).
    + by apply lookup_app_l_Some.
    + by rewrite list_lookup_middle.
    + by eapply lookup_lt_Some.
Qed.

Lemma blk_ops_out (h : list Block) (p : nat) : (length h ≤ p)%nat → blk_ops h p = [].
Proof. intros Hle. unfold blk_ops. by rewrite lookup_ge_None_2. Qed.

Lemma Step_mono c c' op X p op' :
  Step c c' op X → op' ∈ blk_ops (heap c) p → op' ∈ blk_ops (heap c') p.
Proof.
  intros HS Hin. rewrite (step_ops _ _ _ _ HS). case_decide; [subst|done].
  apply elem_of_app. by left.
Qed.

Lemma Step_in c c' op X : Step c c' op X → op ∈ blk_ops (heap c') X.
Proof.
  intros HS. rewrite (step_ops _ _ _ _ HS). rewrite decide_True by done.
  apply elem_of_app. right. by apply list_elem_of_singleton.
Qed.

Lemma Step_old ops c c' o X o' p :
  Inv ops c → Step c c' (to_op o) X → ascending (ops ++ [o]) →
  o' ∈ ops → to_op o' ∈ blk_ops (heap c') p → to_op o' ∈ blk_ops (heap c) p.
Proof.
  intros HI HS Ha Ho' Hin. rewrite (step_ops _ _ _ _ HS) in Hin.
  case_decide; [subst|done].
  apply elem_of_app in Hin as [Hin | Hin%list_elem_of_singleton]; [done|].
  apply ascending_snoc in Ha as [_ Ha]. specialize (Ha _ Ho').
  apply (f_equal index) in Hin. simpl in Hin. lia.
Qed.

Lemma Step_new ops c c' o X p :
  Inv ops c → Step c c' (to_op o) X → ascending (ops ++ [o]) →
  to_op o ∈ blk_ops (heap c') p → p = X.
Proof.
  intros HI HS Ha Hin. rewrite (step_ops _ _ _ _ HS) in Hin.
  case_decide; [done|]. exfalso.
  destruct (inv_from _ _ HI _ _ Hin) as (o' & Ho' & Heq).
  apply ascending_snoc in Ha as [_ Ha]. specialize (Ha _ Ho').
  apply (f_equal index) in Heq. simpl in Heq. lia.
Qed.

Lemma Step_block_other c c' op X :
  Step c c' op X →
  block (data (negb (read op)) c') = block (data (negb (read op)) c).
Proof. intros HS. by rewrite (step_opp _ _ _ _ HS). Qed.

(** The open Block of the other kind is not the Block the operation joins. *)
Lemma Step_other_ne ops c c' op X p :
  Inv ops c → Step c c' op X →
  block (data (negb (read op)) c) = Some p → p ≠ X.
Proof.
  intros HI HS Hp ->.
  pose proof (inv_valid _ _ HI _ _ Hp) as Hlt.
  destruct (step_origin _ _ _ _ HS) as [Hb | ->]; [|lia].
  pose proof (inv_nonempty _ _ HI _ Hlt) as Hne.
  destruct (blk_ops (heap c) X) as [|op' l] eqn:E; [done|].
  assert (Hin : op' ∈ blk_ops (heap c) X) by (rewrite E; left).
  pose proof (inv_kind _ _ HI _ _ _ Hp Hin) as H1.
  pose proof (inv_kind _ _ HI _ _ _ Hb Hin) as H2.
  rewrite H1 in H2. by destruct (read op).
Qed.

Lemma Step_kind ops c c' op X rd p op' :
  Inv ops c → Step c c' op X →
  block (data rd c') = Some p → op' ∈ blk_ops (heap c') p → read op' = rd.
Proof.
  intros HI HS Hb Hin.
  destruct (bool_cases (read op) rd) as [-> | ->].
  - rewrite (step_block _ _ _ _ HS) in Hb. injection Hb as <-.
    rewrite (step_ops _ _ _ _ HS), decide_True in Hin by done.
    apply elem_of_app in Hin as [Hin | ->%list_elem_of_singleton]; [|done].
    destruct (step_origin _ _ _ _ HS) as [Hb | ->].
    + by eapply (inv_kind _ _ HI).
    + rewrite blk_ops_out in Hin by done. by apply elem_of_nil in Hin.
  - rewrite (Step_block_other _ _ _ _ HS) in Hb.
    pose proof (Step_other_ne _ _ _ _ _ _ HI HS Hb) as Hne.
    rewrite (step_ops _ _ _ _ HS), decide_False in Hin by done.
    by eapply (inv_kind _ _ HI).
Qed.

(** The part of the invariant that does not depend on the phase. *)
Lemma Step_Inv ops c c' o X :
  Inv ops c → Step c c' (to_op o) X →
  match last_conflict_was_read_ c' with
  | indeterminate => parallel_phase (ops ++ [o]) c'
  | t => ∃ r pre P T, t = tribool_of_bool r ∧ chain_phase (ops ++ [o]) c' r pre P T
  end →
  Inv (ops ++ [o]) c'.
Proof.
  intros HI HS Hphase. split; [| | | | | | |exact Hphase].
  - rewrite (step_dfatal _ _ _ _ HS). apply (inv_dfatal _ _ HI).
  - intros rd p Hb. destruct (bool_cases (read (to_op o)) rd) as [-> | ->].
    + rewrite (step_block _ _ _ _ HS) in Hb. injection Hb as <-.
      apply (step_lt _ _ _ _ HS).
    + rewrite (Step_block_other _ _ _ _ HS) in Hb.
      pose proof (inv_valid _ _ HI _ _ Hb).
      destruct (step_len _ _ _ _ HS) as [-> | [-> _]]; lia.
  - intros rd Hb. destruct (bool_cases (read (to_op o)) rd) as [-> | ->].
    + by rewrite (step_block _ _ _ _ HS) in Hb.
    + rewrite (step_opp _ _ _ _ HS) in *. by apply (inv_keys _ _ HI).
  - intros p Hlt. rewrite (step_ops _ _ _ _ HS). case_decide.
    + by intros [? ?]%app_eq_nil.
    + apply (inv_nonempty _ _ HI).
      destruct (step_len _ _ _ _ HS) as [Hl | [Hl Hx]]; lia.
  - intros rd p op'. by apply (Step_kind ops c c' (to_op o) X).
  - intros p op' Hin. rewrite (step_ops _ _ _ _ HS) in Hin.
    assert (op' ∈ blk_ops (heap c) p ∨ op' = to_op o) as [Hin' | ->].
    { case_decide; [subst|by left].
      apply elem_of_app in Hin as [? | ?%list_elem_of_singleton]; auto. }
    + destruct (inv_from _ _ HI _ _ Hin') as (o' & Ho' & Heq).
      exists o'. split; [|done]. apply elem_of_app. by left.
    + exists o. split; [|done]. apply elem_of_app. right. by apply list_elem_of_singleton.
  - intros Ha p q op1 op2 H1 H2 Heq.
    pose proof (ascending_snoc _ _ Ha) as [Ha' Hlt].
    assert (Hfresh : ∀ p' op', op' ∈ blk_ops (heap c) p' → index op' ≠ idx o).
    { intros p' op' Hin. destruct (inv_from _ _ HI _ _ Hin) as (o' & Ho' & <-).
      specialize (Hlt _ Ho'). simpl. lia. }
    rewrite (step_ops _ _ _ _ HS) in H1, H2.
    destruct (decide (p = X)) as [->|Hp], (decide (q = X)) as [->|Hq]; [done| | |].
    + apply elem_of_app in H1 as [H1 | ->%list_elem_of_singleton].
      * destruct (step_origin _ _ _ _ HS) as [Hb | ->].
        -- by eapply (inv_once _ _ HI Ha').
        -- rewrite blk_ops_out in H1 by done. by apply elem_of_nil in H1.
      * exfalso. by eapply Hfresh.
    + apply elem_of_app in H2 as [H2 | ->%list_elem_of_singleton].
      * destruct (step_origin _ _ _ _ HS) as [Hb | ->].
        -- by eapply (inv_once _ _ HI Ha').
        -- rewrite blk_ops_out in H2 by done. by apply elem_of_nil in H2.
      * exfalso. by eapply Hfresh.
    + by eapply (inv_once _ _ HI Ha').
Qed.

Lemma data_RememberKeys_ne rd keys c :
  data (negb rd) (RememberKeys rd keys c) = data (negb rd) c.
Proof. unfold RememberKeys. by rewrite data_set_data_ne. Qed.

Lemma block_RememberKeys rd keys c :
  block (data rd (RememberKeys rd keys c)) = block (data rd c).
Proof. unfold RememberKeys. by rewrite data_set_data_eq. Qed.

(** Every path of [Apply] is a [Step]: the context [c1] and the heap [h1]
    are what the path has made of [c] before the operation is added. *)
Lemma Step_make c c1 h1 op X keys :
  dfatal c1 = dfatal c →
  (∀ p, blk_ops h1 p = blk_ops (heap c) p) →
  (length h1 = length (heap c) ∨
   (length h1 = S (length (heap c)) ∧ X = length (heap c))) →
  X < length h1 →
  block (data (read op) c1) = Some X →
  (block (data (read op) c) = Some X ∨ X = length (heap c)) →
  data (negb (read op)) c1 = data (negb (read op)) c →
  Step c (RememberKeys (read op) keys (set_heap (heap_add X op h1) c1)) op X.
Proof.
  intros Hd Hops Hlen Hlt Hb Ho Hopp. split.
  - exact Hd.
  - intros p. cbn [heap RememberKeys set_data set_heap].
    rewrite blk_ops_add by done. rewrite !Hops. done.
  - cbn [heap RememberKeys set_data set_heap]. by rewrite length_heap_add.
  - cbn [heap RememberKeys set_data set_heap]. by rewrite length_heap_add.
  - rewrite block_RememberKeys. exact Hb.
  - exact Ho.
  - rewrite data_RememberKeys_ne. exact Hopp.
Qed.

Lemma chain_lookup_P (pre : list nat) P T : (pre ++ [P; T]) !! length pre = Some P.
Proof. by rewrite list_lookup_middle. Qed.

Lemma chain_lookup_T (pre : list nat) P T : (pre ++ [P; T]) !! S (length pre) = Some T.
Proof.
  replace (pre ++ [P; T]) with ((pre ++ [P]) ++ [T]) by (by rewrite <- app_assoc).
  rewrite list_lookup_middle; [done|]. rewrite length_app. simpl. lia.
Qed.

Lemma chain_lookup_lt (pre : list nat) P T i p :
  (pre ++ [P; T]) !! i = Some p → i < length pre + 2.
Proof. intros H%lookup_lt_Some. rewrite length_app in H. simpl in H. lia. Qed.

Lemma chain_pos_P (pre : list nat) P T i :
  NoDup (pre ++ [P; T]) → (pre ++ [P; T]) !! i = Some P → i = length pre.
Proof. intros Hnd Hi. eapply NoDup_lookup; [done..|apply chain_lookup_P]. Qed.

Lemma chain_pos_T (pre : list nat) P T i :
  NoDup (pre ++ [P; T]) → (pre ++ [P; T]) !! i = Some T → i = S (length pre).
Proof. intros Hnd Hi. eapply NoDup_lookup; [done..|apply chain_lookup_T]. Qed.

Lemma elem_of_snoc (ops : list SchedOp) o o' : o' ∈ ops ++ [o] ↔ o' ∈ ops ∨ o' = o.
Proof. rewrite elem_of_app, list_elem_of_singleton. done. Qed.

Lemma conflicting_kind o1 o2 : conflicting o1 o2 → kind o1 = negb (kind o2).
Proof. intros [Hk _]. destruct (kind o1), (kind o2); done. Qed.

(** *** Staying in the parallel phase *)

Lemma phase_parallel ops c c' o X :
  Inv ops c →
  last_conflict_was_read_ c = indeterminate →
  Step c c' (to_op o) X →
  (∀ p, block (data (kind o) c) = Some p → p = X) →
  has_conflict (data (negb (kind o)) c) (keys_of o) = false →
  flush_head_ c' = flush_head_ c →
  (∀ p, blk_next (heap c') p = blk_next (heap c) p) →
  (∀ k, k ∈ used_keys (data (kind o) c') ↔
        k ∈ keys_of o ∨ k ∈ used_keys (data (kind o) c)) →
  parallel_phase (ops ++ [o]) c'.
Proof.
  intros HI Hlc HS Hsame Hnc Hfh Hnext Hkeys.
  pose proof (inv_phase _ _ HI) as Hph. rewrite Hlc in Hph.
  destruct Hph as (Hhead & Hnone & Hplace & Hcover & Hfree).
  rewrite has_conflict_false in Hnc.
  pose proof (step_block _ _ _ _ HS) as HbX. simpl in HbX.
  pose proof (step_opp _ _ _ _ HS) as Hopp. simpl in Hopp.
  split; [|split; [|split; [|split]]].
  - by rewrite Hfh.
  - intros p. by rewrite Hnext.
  - intros o' [Ho' | ->]%elem_of_snoc.
    + destruct (Hplace _ Ho') as (p & Hb & Hin).
      destruct (bool_cases (kind o) (kind o')) as [Hk | Hk]; rewrite Hk in *.
      * apply Hsame in Hb. subst p. exists X. split; [done | by eapply Step_mono].
      * exists p. rewrite Hopp. split; [done | by eapply Step_mono].
    + exists X. split; [done | by eapply Step_in].
  - intros o' k [Ho' | ->]%elem_of_snoc Hk.
    + specialize (Hcover _ _ Ho' Hk).
      destruct (bool_cases (kind o) (kind o')) as [Hkd | Hkd]; rewrite Hkd in *.
      * apply Hkeys. by right.
      * by rewrite Hopp.
    + apply Hkeys. by left.
  - intros o1 o2 [H1 | ->]%elem_of_snoc [H2 | ->]%elem_of_snoc Hc.
    + by apply (Hfree o1 o2).
    + pose proof (conflicting_kind _ _ Hc) as Hk.
      destruct Hc as (_ & k & Hk1 & Hk2).
      apply (Hnc k Hk2). rewrite <- Hk. by eapply Hcover.
    + destruct Hc as (Hne & k & Hk1 & Hk2).
      assert (kind o2 = negb (kind o)) as Hk by (destruct (kind o), (kind o2); done).
      apply (Hnc k Hk1). rewrite <- Hk. by eapply Hcover.
    + by destruct Hc as [Hne _].
Qed.

(** *** Placement and order along a chain that stays or grows by one Block *)

Lemma placed_step ops c c' o X (chain chain' : list nat) iX :
  Step c c' (to_op o) X →
  (∀ i p, chain !! i = Some p → chain' !! i = Some p) →
  chain' !! iX = Some X →
  placed (heap c) chain ops →
  placed (heap c') chain' (ops ++ [o]).
Proof.
  intros HS Hext HX Hpl o' [Ho' | ->]%elem_of_snoc.
  - destruct (Hpl _ Ho') as (i & p & Hi & Hin).
    exists i, p. split; [by apply Hext | by eapply Step_mono].
  - exists iX, X. split; [done | by eapply Step_in].
Qed.

Lemma ordered_step ops c c' o X (chain chain' : list nat) iX :
  Inv ops c →
  Step c c' (to_op o) X →
  ascending (ops ++ [o]) →
  chain' = chain ∨ (chain' = chain ++ [X] ∧ X = length (heap c)) →
  NoDup chain' →
  chain' !! iX = Some X →
  ordered (heap c) chain ops →
  (∀ o1 i1 p1, o1 ∈ ops → conflicting o1 o →
               chain' !! i1 = Some p1 → to_op o1 ∈ blk_ops (heap c) p1 →
               i1 < iX) →
  ordered (heap c') chain' (ops ++ [o]).
Proof.
  intros HI HS Ha Hch Hnd HX Hord Hnew.
  pose proof (ascending_snoc _ _ Ha) as [Ha' Hlt].
  assert (Hback : ∀ i p o', o' ∈ ops → chain' !! i = Some p →
                            to_op o' ∈ blk_ops (heap c) p → chain !! i = Some p).
  { intros i p o' Ho' Hi Hin. destruct Hch as [-> | [-> ->]]; [done|].
    apply lookup_app_Some in Hi as [Hi | [Hge Hi]]; [done|].
    apply list_lookup_singleton_Some in Hi as [_ <-].
    rewrite blk_ops_out in Hin by done. by apply elem_of_nil in Hin. }
  intros o1 o2 i1 i2 p1 p2 [H1 | ->]%elem_of_snoc [H2 | ->]%elem_of_snoc
         Hidx Hc Hi1 Hin1 Hi2 Hin2.
  - pose proof (Step_old _ _ _ _ _ _ _ HI HS Ha H1 Hin1) as Hin1'.
    pose proof (Step_old _ _ _ _ _ _ _ HI HS Ha H2 Hin2) as Hin2'.
    eapply (Hord o1 o2 i1 i2 p1 p2); eauto.
  - pose proof (Step_old _ _ _ _ _ _ _ HI HS Ha H1 Hin1) as Hin1'.
    pose proof (Step_new _ _ _ _ _ _ HI HS Ha Hin2) as ->.
    assert (i2 = iX) as -> by (by eapply NoDup_lookup).
    by eapply Hnew.
  - specialize (Hlt _ H2). lia.
  - lia.
Qed.

Lemma Step_length c c' op X : Step c c' op X → length (heap c) ≤ length (heap c').
Proof. intros HS. destruct (step_len _ _ _ _ HS) as [-> | [-> _]]; lia. Qed.

Lemma blk_next_out (h : list Block) (p : nat) : (length h ≤ p)%nat → blk_next h p = None.
Proof. intros Hle. unfold blk_next. by rewrite lookup_ge_None_2. Qed.

(** *** The first conflict *)

Lemma phase_first_conflict ops c c' o P T :
  Inv ops c →
  last_conflict_was_read_ c = indeterminate →
  Step c c' (to_op o) T →
  (∀ p, block (data (kind o) c) = Some p → p = T) →
  block (data (negb (kind o)) c) = Some P →
  flush_head_ c' = Some P →
  blk_next (heap c') P = Some T →
  blk_next (heap c') T = None →
  (∀ k, k ∈ used_keys (data (kind o) c') ↔
        k ∈ keys_of o ∨ k ∈ used_keys (data (kind o) c)) →
  chain_phase (ops ++ [o]) c' (kind o) [] P T.
Proof.
  intros HI Hlc HS Hsame HP Hfh HnP HnT Hkeys.
  pose proof (inv_phase _ _ HI) as Hph. rewrite Hlc in Hph.
  destruct Hph as (Hhead & Hnone & Hplace & Hcover & Hfree).
  pose proof (step_block _ _ _ _ HS) as HbX. simpl in HbX.
  pose proof (step_opp _ _ _ _ HS) as Hopp. simpl in Hopp.
  pose proof (Step_other_ne _ _ _ _ _ _ HI HS HP) as HPT.
  assert (HbP : block (data (negb (kind o)) c') = Some P) by (by rewrite Hopp).
  assert (Hnd : NoDup ([] ++ [P; T])).
  { simpl. apply NoDup_cons. split; [by intros ->%list_elem_of_singleton|].
    apply NoDup_singleton. }
  assert (Hpos : ∀ o', o' ∈ ops →
            (kind o' = kind o ∧ to_op o' ∈ blk_ops (heap c) T) ∨
            (kind o' = negb (kind o) ∧ to_op o' ∈ blk_ops (heap c) P)).
  { intros o' Ho'. destruct (Hplace _ Ho') as (p & Hb & Hin).
    destruct (bool_cases (kind o) (kind o')) as [Hk | Hk]; rewrite Hk in Hb.
    - left. apply Hsame in Hb. by subst p.
    - right. rewrite HP in Hb. injection Hb as <-. done. }
  split; [done|]. split; [done|]. split; [done|]. split; [done|].
  split; [|split].
  - intros i p Hi. destruct i as [|[|i]]; simpl in Hi; [| |done].
    + injection Hi as <-. split; [|done].
      pose proof (inv_valid _ _ HI _ _ HP). pose proof (Step_length _ _ _ _ HS). lia.
    + injection Hi as <-. split; [apply (step_lt _ _ _ _ HS) | done].
  - intros o' [Ho' | ->]%elem_of_snoc.
    + destruct (Hpos _ Ho') as [[_ Hin] | [_ Hin]].
      * exists 1, T. split; [done | by eapply Step_mono].
      * exists 0, P. split; [done | by eapply Step_mono].
    + exists 1, T. split; [done | by eapply Step_in].
  - intros Ha. pose proof (ascending_snoc _ _ Ha) as [Ha' Hlt]. split.
    + intros o' k [Ho' | ->]%elem_of_snoc Hin Hk; apply Hkeys; [right | by left].
      pose proof (Step_kind _ _ _ _ _ _ _ _ HI HS HbX Hin) as Hkd. simpl in Hkd.
      rewrite <- Hkd. by eapply Hcover.
    + intros o1 o2 i1 i2 p1 p2 [H1 | ->]%elem_of_snoc [H2 | ->]%elem_of_snoc
             Hidx Hc Hi1 Hin1 Hi2 Hin2.
      * exfalso. by apply (Hfree o1 o2).
      * pose proof (Step_new _ _ _ _ _ _ HI HS Ha Hin2) as ->.
        assert (i2 = 1) as -> by (by eapply NoDup_lookup).
        destruct i1 as [|[|i1]]; simpl in Hi1; [lia| |done].
        injection Hi1 as <-.
        pose proof (Step_kind _ _ _ _ _ _ _ _ HI HS HbX Hin1) as Hkd. simpl in Hkd.
        destruct Hc as [Hne _]. done.
      * specialize (Hlt _ H2). lia.
      * lia.
Qed.

(** *** An operation of the kind that led the last conflict *)

Lemma phase_chain_T ops c c' o pre P T :
  Inv ops c →
  chain_phase ops c (kind o) pre P T →
  Step c c' (to_op o) T →
  flush_head_ c' = flush_head_ c →
  (∀ p, blk_next (heap c') p = blk_next (heap c) p) →
  (∀ k, k ∈ used_keys (data (kind o) c') ↔
        k ∈ keys_of o ∨ k ∈ used_keys (data (kind o) c)) →
  chain_phase (ops ++ [o]) c' (kind o) pre P T.
Proof.
  intros HI (Hnd & Hhead & HbT & HbP & Hlink & Hpl & Htrack) HS Hfh Hnext Hkeys.
  pose proof (step_block _ _ _ _ HS) as HbX. simpl in HbX.
  pose proof (step_opp _ _ _ _ HS) as Hopp. simpl in Hopp.
  split; [done|]. split; [by rewrite Hfh|]. split; [done|].
  split; [by rewrite Hopp|]. split; [|split].
  - intros i p Hi. destruct (Hlink _ _ Hi) as [Hlt Hn].
    split; [pose proof (Step_length _ _ _ _ HS); lia | by rewrite Hnext].
  - eapply placed_step; [done | done | apply chain_lookup_T | done].
  - intros Ha. pose proof (ascending_snoc _ _ Ha) as [Ha' Hlt].
    destruct (Htrack Ha') as [Hcov Hord]. split.
    + intros o' k [Ho' | ->]%elem_of_snoc Hin Hk; apply Hkeys; [right | by left].
      eapply Hcov; [done| |done]. by eapply Step_old.
    + eapply ordered_step; [done | done | done | by left | done
                            | apply chain_lookup_T | done |].
      intros o1 i1 p1 H1 Hc Hi1 Hin1.
      pose proof (chain_lookup_lt _ _ _ _ _ Hi1).
      destruct (decide (i1 = S (length pre))) as [-> | Hne]; [|lia].
      rewrite chain_lookup_T in Hi1. injection Hi1 as <-.
      pose proof (inv_kind _ _ HI _ _ _ HbT Hin1) as Hkd. simpl in Hkd.
      destruct Hc as [Hne _]. done.
Qed.

(** *** An operation of the other kind, without conflict *)

Lemma phase_chain_P ops c c' o r pre P T :
  Inv ops c →
  chain_phase ops c r pre P T →
  kind o = negb r →
  Step c c' (to_op o) P →
  has_conflict (data r c) (keys_of o) = false →
  flush_head_ c' = flush_head_ c →
  (∀ p, blk_next (heap c') p = blk_next (heap c) p) →
  chain_phase (ops ++ [o]) c' r pre P T.
Proof.
  intros HI (Hnd & Hhead & HbT & HbP & Hlink & Hpl & Htrack) Hk HS Hnc Hfh Hnext.
  pose proof (step_block _ _ _ _ HS) as HbX. simpl in HbX.
  pose proof (step_opp _ _ _ _ HS) as Hopp. simpl in Hopp.
  rewrite has_conflict_false in Hnc.
  assert (r = negb (kind o)) as Hr by (rewrite Hk; by destruct r).
  rewrite <- Hr in Hopp. rewrite <- Hk in HbP.
  assert (P ≠ T) as HPT.
  { intros ->. apply NoDup_app in Hnd as (_ & _ & Hnd).
    apply NoDup_cons in Hnd as [Hnin _]. apply Hnin. left. }
  split; [done|]. split; [by rewrite Hfh|]. split; [by rewrite Hopp|].
  split; [by rewrite <- Hk|]. split; [|split].
  - intros i p Hi. destruct (Hlink _ _ Hi) as [Hlt Hn].
    split; [pose proof (Step_length _ _ _ _ HS); lia | by rewrite Hnext].
  - eapply placed_step; [done | done | apply chain_lookup_P | done].
  - intros Ha. pose proof (ascending_snoc _ _ Ha) as [Ha' Hlt].
    destruct (Htrack Ha') as [Hcov Hord]. rewrite Hopp. split.
    + intros o' k [Ho' | ->]%elem_of_snoc Hin Hk'.
      * eapply Hcov; [done| |done]. by eapply Step_old.
      * exfalso. by pose proof (Step_new _ _ _ _ _ _ HI HS Ha Hin).
    + eapply ordered_step; [done | done | done | by left | done
                            | apply chain_lookup_P | done |].
      intros o1 i1 p1 H1 Hc Hi1 Hin1.
      pose proof (chain_lookup_lt _ _ _ _ _ Hi1).
      destruct (decide (i1 = S (length pre))) as [-> | Hne1].
      { exfalso. rewrite chain_lookup_T in Hi1. injection Hi1 as <-.
        destruct Hc as (_ & k & Hk1 & Hk2).
        apply (Hnc k Hk2). by eapply Hcov. }
      destruct (decide (i1 = length pre)) as [-> | Hne2]; [|lia].
      exfalso. rewrite chain_lookup_P in Hi1. injection Hi1 as <-.
      pose proof (inv_kind _ _ HI _ _ _ HbP Hin1) as Hkd. simpl in Hkd.
      destruct Hc as [Hne _]. done.
Qed.

(** *** A later conflict *)

Lemma phase_flip ops c c' o r pre P T :
  Inv ops c →
  chain_phase ops c r pre P T →
  kind o = negb r →
  Step c c' (to_op o) (length (heap c)) →
  flush_head_ c' = flush_head_ c →
  (∀ p, blk_next (heap c') p =
        if decide (p = T) then Some (length (heap c)) else blk_next (heap c) p) →
  (∀ k, k ∈ used_keys (data (kind o) c') ↔ k ∈ keys_of o) →
  chain_phase (ops ++ [o]) c' (kind o) (pre ++ [P]) T (length (heap c)).
Proof.
  intros HI (Hnd & Hhead & HbT & HbP & Hlink & Hpl & Htrack) Hk HS Hfh Hnext Hkeys.
  pose proof (step_block _ _ _ _ HS) as HbX. simpl in HbX.
  pose proof (step_opp _ _ _ _ HS) as Hopp. simpl in Hopp.
  assert (r = negb (kind o)) as Hr by (rewrite Hk; by destruct r).
  rewrite <- Hr in Hopp.
  unfold chain_phase.
  set (N := length (heap c)) in *.
  assert (Hchain : (pre ++ [P]) ++ [T; N] = (pre ++ [P; T]) ++ [N]).
  { by rewrite <- !app_assoc. }
  assert (Hold : ∀ i p, (pre ++ [P; T]) !! i = Some p → p < N).
  { intros i p Hi. by destruct (Hlink _ _ Hi). }
  assert (Hnd' : NoDup ((pre ++ [P; T]) ++ [N])).
  { apply NoDup_app. split; [done|]. split; [|apply NoDup_singleton].
    intros p [i Hi]%list_elem_of_lookup ->%list_elem_of_singleton.
    apply Hold in Hi. lia. }
  assert (HiN : ((pre ++ [P; T]) ++ [N]) !! (length pre + 2) = Some N).
  { rewrite lookup_app_r; rewrite length_app; simpl; [|lia].
    by replace (length pre + 2 - (length pre + 2)) with 0 by lia. }
  rewrite Hchain.
  split; [done|]. split.
  { rewrite Hfh, Hhead. destruct pre; done. }
  split; [done|]. split; [by rewrite <- Hr, Hopp|]. split; [|split].
  - intros i p Hi. apply lookup_app_Some in Hi as [Hi | [Hge Hi]].
    + destruct (Hlink _ _ Hi) as [Hlt Hn].
      split; [pose proof (Step_length _ _ _ _ HS); lia|].
      rewrite Hnext. case_decide as HpT.
      * subst p. apply chain_pos_T in Hi; [|done]. subst i.
        rewrite lookup_app_r; rewrite length_app; simpl; [|lia].
        by replace (S (S (length pre)) - (length pre + 2)) with 0 by lia.
      * rewrite Hn. pose proof (chain_lookup_lt _ _ _ _ _ Hi).
        destruct (decide (S i < length pre + 2)) as [Hlt'|Hge'].
        -- rewrite (lookup_app_l (pre ++ [P; T]) [N]); [done|].
           rewrite length_app. simpl. lia.
        -- exfalso. assert (i = S (length pre)) as -> by lia.
           rewrite chain_lookup_T in Hi. by injection Hi as <-.
    + apply list_lookup_singleton_Some in Hi as [Hi <-].
      split; [apply (step_lt _ _ _ _ HS)|].
      rewrite Hnext. case_decide as HNT.
      * exfalso. pose proof (Hold _ _ (chain_lookup_T pre P T)). lia.
      * rewrite blk_next_out by done. symmetry. apply lookup_ge_None_2.
        rewrite !length_app in *. simpl in *. lia.
  - eapply placed_step; [done| |apply HiN|done].
    intros i p Hi. by apply lookup_app_l_Some.
  - intros Ha. pose proof (ascending_snoc _ _ Ha) as [Ha' Hlt].
    destruct (Htrack Ha') as [Hcov Hord]. split.
    + intros o' k [Ho' | ->]%elem_of_snoc Hin Hk'; apply Hkeys; [|done].
      exfalso. pose proof (Step_old _ _ _ _ _ _ _ HI HS Ha Ho' Hin) as Hin'.
      rewrite blk_ops_out in Hin' by done. by apply elem_of_nil in Hin'.
    + eapply ordered_step; [done | done | done | by right | done
                            | apply HiN | done |].
      intros o1 i1 p1 H1 Hc Hi1 Hin1.
      apply lookup_app_Some in Hi1 as [Hi1 | [Hge Hi1]].
      * pose proof (chain_lookup_lt _ _ _ _ _ Hi1). lia.
      * apply list_lookup_singleton_Some in Hi1 as [_ <-].
        rewrite blk_ops_out in Hin1 by done. by apply elem_of_nil in Hin1.
Qed.

(** *** Every [Apply] keeps the invariant *)

Lemma data_set_heap rd h c : data rd (set_heap h c) = data rd c.
Proof. reflexivity. Qed.

Lemma data_set_last_conflict rd t c : data rd (set_last_conflict t c) = data rd c.
Proof. reflexivity. Qed.

Lemma data_set_flush_head rd p c : data rd (set_flush_head p c) = data rd c.
Proof. reflexivity. Qed.

Lemma phase_of_chain ops c r pre P T :
  last_conflict_was_read_ c = tribool_of_bool r →
  chain_phase ops c r pre P T →
  match last_conflict_was_read_ c with
  | indeterminate => parallel_phase ops c
  | t => ∃ r pre P T, t = tribool_of_bool r ∧ chain_phase ops c r pre P T
  end.
Proof.
  intros -> H. destruct r; simpl; [exists true | exists false];
    by exists pre, P, T.
Qed.

Ltac ctx_simpl :=
  rewrite ?data_set_heap, ?data_set_data_eq, ?data_set_data_ne,
    ?data_set_last_conflict, ?data_set_flush_head.

(** A successor that is in place stays: [Apply] installs a successor only
    in a Block that has none. *)
Ltac next_kept c' :=
  let q := fresh "q" in let n := fresh "n" in let Hq := fresh "Hq" in
  intros q n Hq; subst c';
  cbn [heap RememberKeys set_data set_heap set_last_conflict];
  rewrite ?blk_next_add;
  rewrite ?blk_next_set_next by (rewrite ?length_heap_alloc; lia);
  rewrite ?blk_next_alloc; try case_decide; congruence.

Lemma Apply_Inv_parallel ops c o :
  Inv ops c →
  last_conflict_was_read_ c = indeterminate →
  ∃ c' X, Apply (idx o) (kind o) (keys_of o) c = Ret c' ∧
    Step c c' (to_op o) X ∧
    (∀ q n, blk_next (heap c) q = Some n → blk_next (heap c') q = Some n) ∧
    Inv (ops ++ [o]) c'.
Proof.
  intros HI Hlc.
  pose proof (inv_phase _ _ HI) as Hph. rewrite Hlc in Hph.
  destruct Hph as (Hhead & Hnone & Hplace & Hcover & Hfree).
  destruct (has_conflict (data (negb (kind o)) c) (keys_of o)) eqn:Hcf.
  - (* the first conflict *)
    destruct (block (data (negb (kind o)) c)) as [P|] eqn:HP.
    2: { apply has_conflict_true in Hcf as (k & _ & Hk).
         rewrite (inv_keys _ _ HI _ HP) in Hk. by apply not_elem_of_empty in Hk. }
    pose proof (inv_valid _ _ HI _ _ HP) as HPlt.
    destruct (block (data (kind o) c)) as [T|] eqn:HT.
    + pose proof (inv_valid _ _ HI _ _ HT) as HTlt.
      eexists _, _. split; [by apply (Apply_first_conflict_join _ _ _ _ P T)|].
      match goal with |- _ ∧ _ ∧ Inv _ ?x => set (c' := x) end.
      assert (HS : Step c c' (to_op o) T).
      { apply (Step_make c _ _ (to_op o)); simpl; ctx_simpl; try done.
        - intros p. apply blk_ops_set_next.
        - left. apply length_heap_set_next.
        - by rewrite length_heap_set_next.
        - by left. }
      pose proof (Step_other_ne _ _ _ _ _ _ HI HS HP) as HPT.
      split; [exact HS|]. split; [intros q n Hq; by rewrite Hnone in Hq|]. apply (Step_Inv _ _ _ _ T HI HS).
      apply (phase_of_chain _ _ (kind o) [] P T); [done|].
      apply (phase_first_conflict _ c _ _ _ _ HI Hlc HS); try done.
      * intros q Hq. congruence.
      * subst c'. cbn [heap RememberKeys set_data set_heap].
        rewrite blk_next_add, blk_next_set_next by done. by rewrite decide_True.
      * subst c'. cbn [heap RememberKeys set_data set_heap].
        rewrite blk_next_add, blk_next_set_next by done.
        rewrite decide_False by done. apply Hnone.
      * intros k. subst c'. rewrite RememberKeys_keys. by ctx_simpl.
    + eexists _, _. split; [by apply (Apply_first_conflict_open _ _ _ _ P)|].
      match goal with |- _ ∧ _ ∧ Inv _ ?x => set (c' := x) end.
      assert (HS : Step c c' (to_op o) (length (heap c))).
      { apply (Step_make c _ _ (to_op o)); simpl; ctx_simpl; try done.
        - intros p. by rewrite blk_ops_set_next, blk_ops_alloc.
        - right. by rewrite length_heap_set_next, length_heap_alloc.
        - rewrite length_heap_set_next, length_heap_alloc. lia.
        - by right. }
      split; [exact HS|]. split; [intros q n Hq; by rewrite Hnone in Hq|]. apply (Step_Inv _ _ _ _ _ HI HS).
      apply (phase_of_chain _ _ (kind o) [] P (length (heap c))); [done|].
      apply (phase_first_conflict _ c _ _ _ _ HI Hlc HS); try done.
      * intros q Hq. congruence.
      * subst c'. cbn [heap RememberKeys set_data set_heap].
        rewrite blk_next_add, blk_next_set_next
          by (rewrite length_heap_alloc; lia).
        by rewrite decide_True.
      * subst c'. cbn [heap RememberKeys set_data set_heap].
        rewrite blk_next_add, blk_next_set_next
          by (rewrite length_heap_alloc; lia).
        rewrite decide_False by lia. rewrite blk_next_alloc. apply Hnone.
      * intros k. subst c'. rewrite RememberKeys_keys. by ctx_simpl.
  - (* no conflict *)
    assert (Hcc : CheckConflicts (kind o) (keys_of o) c = Ret c).
    { unfold CheckConflicts. by rewrite Hlc, Hcf. }
    destruct (block (data (kind o) c)) as [p|] eqn:Hp.
    + pose proof (inv_valid _ _ HI _ _ Hp) as Hplt.
      eexists _, _. split; [by apply (Apply_join _ _ _ _ p)|].
      match goal with |- _ ∧ _ ∧ Inv _ ?x => set (c' := x) end.
      assert (HS : Step c c' (to_op o) p).
      { apply (Step_make c _ _ (to_op o)); simpl; try done; by left. }
      split; [exact HS|]. split; [intros q n Hq; by rewrite Hnone in Hq|]. apply (Step_Inv _ _ _ _ _ HI HS).
      change (last_conflict_was_read_ c') with (last_conflict_was_read_ c).
      rewrite Hlc. apply (phase_parallel _ c _ _ _ HI Hlc HS); try done.
      * intros p' Hp'. congruence.
      * intros q. subst c'. cbn [heap RememberKeys set_data set_heap].
        apply blk_next_add.
      * intros k. subst c'. rewrite RememberKeys_keys. by ctx_simpl.
    + eexists _, _. split; [apply Apply_open; [done | done | by rewrite Hlc]|].
      match goal with |- _ ∧ _ ∧ Inv _ ?x => set (c' := x) end.
      assert (HS : Step c c' (to_op o) (length (heap c))).
      { apply (Step_make c _ _ (to_op o)); simpl; ctx_simpl; try done.
        - intros p. apply blk_ops_alloc.
        - right. by rewrite length_heap_alloc.
        - rewrite length_heap_alloc. lia.
        - by right. }
      split; [exact HS|]. split; [intros q n Hq; by rewrite Hnone in Hq|]. apply (Step_Inv _ _ _ _ _ HI HS).
      change (last_conflict_was_read_ c') with (last_conflict_was_read_ c).
      rewrite Hlc. apply (phase_parallel _ c _ _ _ HI Hlc HS); try done.
      * intros q Hq. congruence.
      * intros q. subst c'. cbn [heap RememberKeys set_data set_heap].
        by rewrite blk_next_add, blk_next_alloc.
      * intros k. subst c'. rewrite RememberKeys_keys. by ctx_simpl.
Qed.

Lemma chain_T_next (h : list Block) pre P T :
  linked h (pre ++ [P; T]) → T < length h ∧ blk_next h T = None.
Proof.
  intros Hl. destruct (Hl _ _ (chain_lookup_T pre P T)) as [Hlt Hn].
  split; [done|]. rewrite Hn. apply lookup_ge_None_2.
  rewrite length_app. simpl. lia.
Qed.

Lemma Apply_Inv_chain ops c o r pre P T :
  Inv ops c →
  last_conflict_was_read_ c = tribool_of_bool r →
  chain_phase ops c r pre P T →
  ∃ c' X, Apply (idx o) (kind o) (keys_of o) c = Ret c' ∧
    Step c c' (to_op o) X ∧
    (∀ q n, blk_next (heap c) q = Some n → blk_next (heap c') q = Some n) ∧
    Inv (ops ++ [o]) c'.
Proof.
  intros HI Hlc Hch.
  pose proof Hch as (Hnd & Hhead & HbT & HbP & Hlink & Hpl & Htrack).
  pose proof (inv_valid _ _ HI _ _ HbT) as HTlt.
  pose proof (inv_valid _ _ HI _ _ HbP) as HPlt.
  destruct (bool_cases r (kind o)) as [Hk | Hk].
  - (* the kind that led the last conflict *)
    subst r.
    assert (Hcc : CheckConflicts (kind o) (keys_of o) c = Ret c).
    { unfold CheckConflicts. rewrite Hlc, tribool_eq_of_bool.
      by rewrite bool_decide_eq_true_2. }
    eexists _, _. split; [by apply (Apply_join _ _ _ _ T)|].
    match goal with |- _ ∧ _ ∧ Inv _ ?x => set (c' := x) end.
    assert (HS : Step c c' (to_op o) T).
    { apply (Step_make c _ _ (to_op o)); simpl; try done; by left. }
    split; [exact HS|]. split; [next_kept c'|]. apply (Step_Inv _ _ _ _ _ HI HS).
    apply (phase_of_chain _ _ (kind o) pre P T); [done|].
    apply (phase_chain_T _ c _ _ _ _ _ HI Hch HS); try done.
    + intros q. subst c'. cbn [heap RememberKeys set_data set_heap].
      apply blk_next_add.
    + intros k. subst c'. rewrite RememberKeys_keys. by ctx_simpl.
  - (* the other kind *)
    assert (Hr : r = negb (kind o)) by (rewrite Hk; by destruct r).
    assert (Hte : tribool_eq (last_conflict_was_read_ c) (kind o) = false).
    { rewrite Hlc, tribool_eq_of_bool. apply bool_decide_eq_false_2.
      rewrite Hr. by destruct (kind o). }
    rewrite <- Hk in HbP.
    destruct (has_conflict (data (negb (kind o)) c) (keys_of o)) eqn:Hcf.
    + (* a later conflict *)
      destruct (chain_T_next _ _ _ _ Hlink) as [_ HnT].
      rewrite Hr in HbT, Hlc.
      eexists _, _. split; [by apply (Apply_flip _ _ _ _ T)|].
      match goal with |- _ ∧ _ ∧ Inv _ ?x => set (c' := x) end.
      assert (HS : Step c c' (to_op o) (length (heap c))).
      { apply (Step_make c _ _ (to_op o)); simpl; ctx_simpl; try done.
        - intros p. by rewrite blk_ops_set_next, blk_ops_alloc.
        - right. by rewrite length_heap_set_next, length_heap_alloc.
        - rewrite length_heap_set_next, length_heap_alloc. lia.
        - by right. }
      split; [exact HS|]. split; [next_kept c'|]. apply (Step_Inv _ _ _ _ _ HI HS).
      apply (phase_of_chain _ _ (kind o) (pre ++ [P]) T (length (heap c))); [done|].
      apply (phase_flip _ c _ _ _ _ _ _ HI Hch Hk HS); try done.
      * intros q. subst c'. cbn [heap RememberKeys set_data set_heap].
        rewrite blk_next_add, blk_next_set_next
          by (rewrite length_heap_alloc; lia).
        by rewrite blk_next_alloc.
      * intros k. subst c'. rewrite RememberKeys_keys. ctx_simpl. simpl.
        rewrite elem_of_empty. tauto.
    + (* no conflict *)
      assert (Hcc : CheckConflicts (kind o) (keys_of o) c = Ret c).
      { unfold CheckConflicts. by rewrite Hte, Hcf. }
      eexists _, _. split; [by apply (Apply_join _ _ _ _ P)|].
      match goal with |- _ ∧ _ ∧ Inv _ ?x => set (c' := x) end.
      assert (HS : Step c c' (to_op o) P).
      { apply (Step_make c _ _ (to_op o)); simpl; try done; by left. }
      split; [exact HS|]. split; [next_kept c'|]. apply (Step_Inv _ _ _ _ _ HI HS).
      apply (phase_of_chain _ _ r pre P T); [done|].
      rewrite <- Hr in Hcf.
      apply (phase_chain_P _ c _ _ _ _ _ _ HI Hch Hk HS); try done.
      intros q. subst c'. cbn [heap RememberKeys set_data set_heap].
      apply blk_next_add.
Qed.

(** Every [Apply] returns, changes the Blocks by one appended operation,
    leaves every successor in place, and keeps the invariant. *)
Lemma Apply_Inv_Step ops c o :
  Inv ops c →
  ∃ c' X, Apply (idx o) (kind o) (keys_of o) c = Ret c' ∧
    Step c c' (to_op o) X ∧
    (∀ q n, blk_next (heap c) q = Some n → blk_next (heap c') q = Some n) ∧
    Inv (ops ++ [o]) c'.
Proof.
  intros HI. pose proof (inv_phase _ _ HI) as Hph.
  destruct (last_conflict_was_read_ c) eqn:Hlc.
  - destruct Hph as (r & pre & P & T & Hr & Hch).
    eapply Apply_Inv_chain; [done | by rewrite Hlc | done].
  - destruct Hph as (r & pre & P & T & Hr & Hch).
    eapply Apply_Inv_chain; [done | by rewrite Hlc | done].
  - by apply Apply_Inv_parallel.
Qed.

(** Every [Apply] returns, and keeps the invariant. *)
Lemma Apply_Inv ops c o :
  Inv ops c →
  ∃ c', Apply (idx o) (kind o) (keys_of o) c = Ret c' ∧ Inv (ops ++ [o]) c'.
Proof.
  intros HI. destruct (Apply_Inv_Step ops c o HI) as (c' & X & H & _ & _ & HI').
  by exists c'.
Qed.

Lemma blk_ops_nil p : blk_ops [] p = [].
Proof. unfold blk_ops. by rewrite lookup_nil. Qed.

Lemma Inv_init : Inv [] BatchContext_init.
Proof.
  split.
  - done.
  - by intros [] p.
  - by intros [].
  - simpl. intros p Hlt. lia.
  - intros rd p op. by destruct rd.
  - simpl. intros p op. rewrite blk_ops_nil. by intros ?%elem_of_nil.
  - simpl. intros _ p q op op'. rewrite blk_ops_nil. by intros ?%elem_of_nil.
  - simpl. split; [done|]. split; [done|].
    split; [by intros o ?%elem_of_nil|]. split; [by intros o k ?%elem_of_nil|].
    by intros o1 o2 ?%elem_of_nil.
Qed.

Lemma apply_op_Crash ops f : foldl apply_op (Crash f) ops = Crash f.
Proof. induction ops; simpl; done. Qed.

Lemma run_ops_snoc ops o :
  run_ops (ops ++ [o]) = c ← run_ops ops; Apply (idx o) (kind o) (keys_of o) c.
Proof. unfold run_ops. by rewrite foldl_app. Qed.

(** The scheduler never faults, and the invariant holds after every
    sequence of [Apply] calls. *)
Lemma run_ops_Inv ops : ∃ c, run_ops ops = Ret c ∧ Inv ops c.
Proof.
  induction ops as [|o ops IH] using rev_ind.
  - exists BatchContext_init. split; [done | apply Inv_init].
  - destruct IH as (c & Hrun & HI).
    destruct (Apply_Inv _ _ o HI) as (c' & HA & HI').
    exists c'. split; [|done]. rewrite run_ops_snoc, Hrun. done.
Qed.

(** ** Blocks run along the chain *)

Lemma responded_app_l idx tr evs : responded idx tr → responded idx (tr ++ evs).
Proof. intros (e & Hin & He). exists e. split; [|done]. apply elem_of_app. by left. Qed.

Lemma responded_app_r idx tr evs : responded idx evs → responded idx (tr ++ evs).
Proof. intros (e & Hin & He). exists e. split; [|done]. apply elem_of_app. by right. Qed.

Lemma app_eq_split {A} (l1 l2 t1 t2 : list A) x :
  l1 ++ l2 = t1 ++ x :: t2 →
  (∃ t, l1 = t1 ++ x :: t ∧ t2 = t ++ l2) ∨
  (∃ t, t1 = l1 ++ t ∧ l2 = t ++ x :: t2).
Proof.
  revert t1. induction l1 as [|y l1 IH]; intros t1 H; simpl in H.
  - right. by exists t1.
  - destruct t1 as [|z t1]; simpl in H.
    + injection H as -> <-. left. by exists l1.
    + injection H as -> H. destruct (IH _ H) as [(t & -> & ->) | (t & -> & ->)].
      * left. by exists t.
      * right. by exists t.
Qed.

(** Appending calls keeps the order when every new submission is of an index
    whose predecessors were answered already. *)
Lemma answers_first_app tr evs i j :
  answers_first tr i j →
  (SessionApply j ∈ evs → responded i tr) →
  answers_first (tr ++ evs) i j.
Proof.
  intros Hold Hnew t1 t2 Heq.
  apply app_eq_split in Heq as [(t & -> & ->) | (t & -> & ->)].
  - by eapply Hold.
  - apply responded_app_l, Hnew. apply elem_of_app. right. left.
Qed.

Lemma answered_before_mono h chain m tr evs :
  answered_before h chain m tr → answered_before h chain m (tr ++ evs).
Proof. intros H i p op Hi Hp Hin. by eapply responded_app_l, H. Qed.

Lemma answered_before_S h chain m p tr :
  chain !! m = Some p →
  answered_before h chain m tr →
  (∀ op, op ∈ blk_ops h p → responded (index op) tr) →
  answered_before h chain (S m) tr.
Proof.
  intros Hm Hold Hnew i q op Hi Hq Hin.
  destruct (decide (i = m)) as [-> | Hne].
  - rewrite Hm in Hq. injection Hq as <-. by apply Hnew.
  - eapply Hold; [|done..]. lia.
Qed.

Lemma blk_lookup (h : list Block) p b :
  h !! p = Some b → blk_ops h p = ops_ b ∧ blk_next h p = next_ b.
Proof. intros H. unfold blk_ops, blk_next. by rewrite H. Qed.

Section Chain.

Variable session_apply : nat → Status.
Variable flush_status : nat → Status.
Variable h : list Block.
Variable chain : list nat.
Hypothesis Hlinked : linked h chain.

Lemma launch_events_apply ops j :
  SessionApply j ∈ launch_events session_apply ops → ∃ op, op ∈ ops ∧ index op = j.
Proof.
  unfold launch_events. intros (op & Hop & Hin)%list_elem_of_In%in_flat_map.
  exists op. split; [by apply list_elem_of_In|].
  apply list_elem_of_In in Hin. unfold launch_op in Hin.
  apply elem_of_cons in Hin as [[= ->] | Hin]; [done|].
  destruct (ok _); [by apply elem_of_nil in Hin|].
  by apply list_elem_of_singleton in Hin.
Qed.

Lemma launch_events_failed ops op :
  has_ok session_apply ops = false → op ∈ ops →
  responded (index op) (launch_events session_apply ops).
Proof.
  intros Hno Hin. apply has_ok_false in Hno.
  rewrite Forall_forall in Hno. specialize (Hno _ Hin).
  exists (RespondFailure (index op) (session_apply (index op))). split.
  - unfold launch_events. apply list_elem_of_In, in_flat_map.
    exists op. split; [by apply list_elem_of_In|].
    unfold launch_op. rewrite Hno. right. left. done.
  - simpl. apply Nat.eqb_refl.
Qed.

Lemma done_events_apply status ops j : SessionApply j ∉ done_events status ops.
Proof.
  unfold done_events. destruct (ok status);
    intros (op & Heq & _)%list_elem_of_fmap; done.
Qed.

Lemma done_events_responded status ops op :
  op ∈ ops → responded (index op) (done_events status ops).
Proof.
  intros Hin. unfold done_events. destruct (ok status).
  - exists (RespondSuccess (index op) (op_response (index op))).
    split; [|apply Nat.eqb_refl]. apply list_elem_of_fmap. by exists op.
  - exists (RespondFailure (index op) status).
    split; [|apply Nat.eqb_refl]. apply list_elem_of_fmap. by exists op.
Qed.

(** Launching the Block at position [m] once the Blocks before it have been
    answered keeps the order, and leaves in flight a Block of the chain whose
    predecessors have all been answered. *)
Lemma Launch_chain fuel : ∀ m p tr evs fl,
  chain !! m = Some p →
  trace_ok h chain tr →
  answered_before h chain m tr →
  Launch session_apply fuel h p = Ret (evs, fl) →
  chain_exec h chain {| inflight := fl; trace := tr ++ evs |}.
Proof.
  induction fuel as [|fuel IH]; intros m p tr evs fl Hm Hok Hans HL; [done|].
  simpl in HL. destruct (h !! p) as [b|] eqn:Hp; [|done].
  destruct (blk_lookup _ _ _ Hp) as [Hops Hnext].
  destruct (ops_ b) as [|front rest] eqn:Hb; [done|]. rewrite <- Hb in *.
  set (calls := NewSession (read front) :: launch_events session_apply (ops_ b)) in *.
  assert (Hcalls : trace_ok h chain (tr ++ calls)).
  { intros i j Hij. apply answers_first_app; [by apply Hok|].
    intros [[=] | Hin]%elem_of_cons.
    apply launch_events_apply in Hin as (op & Hin & <-).
    rewrite <- Hops in Hin.
    destruct (Hij _ _ _ Hm Hin eq_refl) as (pi & q & opi & Hlt & Hq & Hini & <-).
    by eapply Hans. }
  destruct (has_ok session_apply (ops_ b)) eqn:Hhas.
  - injection HL as <- <-.
    replace (tr ++ _) with ((tr ++ calls) ++ [FlushAsync p])
      by (by rewrite <- app_assoc).
    split; cbn [trace inflight].
    + intros i j Hij. apply answers_first_app; [by apply Hcalls|].
      by intros [=]%list_elem_of_singleton.
    + right. exists m, p. split; [done|]. split; [done|].
      by do 2 apply answered_before_mono.
  - assert (Hans' : answered_before h chain (S m) (tr ++ calls)).
    { apply (answered_before_S _ _ _ p); [done | by apply answered_before_mono |].
      intros op Hin. apply responded_app_r. rewrite Hops in Hin.
      destruct (launch_events_failed _ _ Hhas Hin) as (e & He & Hr).
      exists e. split; [by right | done]. }
    destruct (Hlinked _ _ Hm) as [_ Hn]. rewrite Hnext in Hn.
    destruct (next_ b) as [n|] eqn:Hnb.
    + destruct (Launch session_apply fuel h n) as [[evs' fl']|] eqn:HL'; [|done].
      simpl in HL. injection HL as <- <-.
      replace (tr ++ _) with ((tr ++ calls) ++ evs')
        by (by rewrite <- app_assoc).
      by eapply (IH (S m) n).
    + injection HL as <- <-. split; cbn [trace inflight]; [done | by left].
Qed.

Lemma Done_chain fuel m p tr status evs fl :
  chain !! m = Some p →
  trace_ok h chain tr →
  answered_before h chain m tr →
  Done session_apply fuel h p status = Ret (evs, fl) →
  chain_exec h chain {| inflight := fl; trace := tr ++ evs |}.
Proof.
  intros Hm Hok Hans HD. unfold Done in HD.
  destruct (h !! p) as [b|] eqn:Hp; [|done].
  destruct (blk_lookup _ _ _ Hp) as [Hops Hnext].
  set (answers := done_events status (ops_ b)) in *.
  assert (Hok' : trace_ok h chain (tr ++ answers)).
  { intros i j Hij. apply answers_first_app; [by apply Hok|].
    by intros ?%done_events_apply. }
  assert (Hans' : answered_before h chain (S m) (tr ++ answers)).
  { apply (answered_before_S _ _ _ p); [done | by apply answered_before_mono |].
    intros op Hin. apply responded_app_r. rewrite Hops in Hin.
    by apply done_events_responded. }
  destruct (Hlinked _ _ Hm) as [_ Hn]. rewrite Hnext in Hn.
  destruct (next_ b) as [n|] eqn:Hnb.
  - destruct (Launch session_apply fuel h n) as [[evs' fl']|] eqn:HL'; [|done].
    simpl in HD. injection HD as <- <-. rewrite app_assoc.
    by eapply (Launch_chain fuel (S m) n).
  - injection HD as <- <-. split; cbn [trace inflight]; [done | by left].
Qed.

(** Completions keep a chained batch in order. *)
Lemma step_chain_exec e e' :
  chain_exec h chain e → step session_apply flush_status h e e' → chain_exec h chain e'.
Proof.
  intros [Hok Hfl] Hstep. destruct Hstep as [l1 p l2 tr evs fl HD]. simpl in *.
  destruct Hfl as [Hnil | (m & p' & Heq & Hm & Hans)].
  - by destruct l1.
  - destruct l1 as [|x l1]; simpl in Heq.
    + injection Heq as -> ->. simpl. rewrite app_nil_r.
      by eapply Done_chain.
    + injection Heq as -> Heq. by destruct l1.
Qed.

Lemma rtc_chain_exec e e' :
  chain_exec h chain e → rtc (step session_apply flush_status h) e e' →
  chain_exec h chain e'.
Proof. intros He Hrtc. induction Hrtc; eauto using step_chain_exec. Qed.

End Chain.

(** ** Launches and completions return *)

Lemma linked_length (h : list Block) (chain : list nat) :
  NoDup chain → linked h chain → length chain ≤ length h.
Proof.
  intros Hnd Hl.
  assert (chain ⊆+ seq 0 (length h)) as Hsub.
  { apply NoDup_submseteq; [done|]. intros p [i Hi]%list_elem_of_lookup.
    apply elem_of_seq. destruct (Hl _ _ Hi). lia. }
  apply submseteq_length in Hsub. by rewrite length_seq in Hsub.
Qed.

Section Total.

Variable session_apply : nat → Status.
Variable flush_status : nat → Status.
Variable h : list Block.
Hypothesis Hnonempty : ∀ p, p < length h → blk_ops h p ≠ [].

Lemma Launch_chain_total (chain : list nat) fuel : ∀ m p,
  linked h chain →
  chain !! m = Some p →
  length chain ≤ m + fuel →
  ∃ evs fl, Launch session_apply fuel h p = Ret (evs, fl).
Proof.
  induction fuel as [|fuel IH]; intros m p Hl Hm Hlen.
  { apply lookup_lt_Some in Hm. lia. }
  destruct (Hl _ _ Hm) as [Hlt Hn].
  destruct (lookup_lt_is_Some_2 _ _ Hlt) as [b Hb].
  destruct (blk_lookup _ _ _ Hb) as [Hops Hnext].
  pose proof (Hnonempty _ Hlt) as Hne. rewrite Hops in Hne.
  simpl. rewrite Hb. destruct (ops_ b) as [|front rest] eqn:Hob; [done|].
  destruct (has_ok _ _); [by eexists _, _|].
  rewrite Hnext in Hn. destruct (next_ b) as [n|]; [|by eexists _, _].
  destruct (IH (S m) n Hl) as (evs & fl & ->); [done | lia |].
  by eexists _, _.
Qed.

Lemma Done_chain_total (chain : list nat) fuel m p status :
  linked h chain →
  chain !! m = Some p →
  length chain ≤ S m + fuel →
  ∃ evs fl, Done session_apply fuel h p status = Ret (evs, fl).
Proof.
  intros Hl Hm Hlen. destruct (Hl _ _ Hm) as [Hlt Hn].
  destruct (lookup_lt_is_Some_2 _ _ Hlt) as [b Hb].
  destruct (blk_lookup _ _ _ Hb) as [Hops Hnext].
  unfold Done. rewrite Hb.
  rewrite Hnext in Hn. destruct (next_ b) as [n|]; [|by eexists _, _].
  destruct (Launch_chain_total chain fuel (S m) n Hl) as (evs & fl & ->);
    [done | lia |].
  by eexists _, _.
Qed.

(** A Block without successor: its launch and its completion stop there. *)
Lemma Launch_single p fuel :
  p < length h → blk_next h p = None → fuel ≠ 0 →
  ∃ evs fl, Launch session_apply fuel h p = Ret (evs, fl) ∧
            Forall (λ q, q < length h) fl.
Proof.
  intros Hlt Hn Hfuel. destruct fuel as [|fuel]; [done|].
  destruct (lookup_lt_is_Some_2 _ _ Hlt) as [b Hb].
  destruct (blk_lookup _ _ _ Hb) as [Hops Hnext].
  pose proof (Hnonempty _ Hlt) as Hne. rewrite Hops in Hne.
  simpl. rewrite Hb. destruct (ops_ b) as [|front rest] eqn:Hob; [done|].
  rewrite Hnext in Hn. rewrite Hn.
  destruct (has_ok _ _); eexists _, _; (split; [done|]).
  - by constructor.
  - constructor.
Qed.

Lemma Done_single p fuel status :
  p < length h → blk_next h p = None →
  ∃ evs, Done session_apply fuel h p status = Ret (evs, []).
Proof.
  intros Hlt Hn. destruct (lookup_lt_is_Some_2 _ _ Hlt) as [b Hb].
  destruct (blk_lookup _ _ _ Hb) as [Hops Hnext].
  unfold Done. rewrite Hb. rewrite Hnext in Hn. rewrite Hn. by eexists.
Qed.

End Total.

(** ** From [Commit] to the last completion *)

Lemma no_backend_call_answers_first tr i j :
  Forall (λ e, is_backend_call e = false) tr → answers_first tr i j.
Proof.
  intros Hall t1 t2 ->. apply Forall_app in Hall as [_ Hall].
  apply Forall_cons in Hall as [Hf _]. done.
Qed.

Lemma chain_precedes ops c r pre P T o1 o2 :
  Inv ops c → ascending ops →
  chain_phase ops c r pre P T →
  o1 ∈ ops → o2 ∈ ops → idx o1 < idx o2 → conflicting o1 o2 →
  precedes (heap c) (pre ++ [P; T]) (idx o1) (idx o2).
Proof.
  intros HI Ha (Hnd & _ & _ & _ & _ & Hpl & Htrack) H1 H2 Hlt Hc.
  destruct (Htrack Ha) as [_ Hord].
  intros pj q opj Hpj Hin Hidx.
  destruct (Hpl _ H1) as (i1 & p1 & Hi1 & Hin1).
  destruct (Hpl _ H2) as (i2 & p2 & Hi2 & Hin2).
  assert (q = p2) as -> by (by eapply (inv_once _ _ HI Ha)).
  assert (pj = i2) as -> by (by eapply NoDup_lookup).
  exists i1, p1, (to_op o1).
  split; [by apply (Hord o1 o2 i1 i2 p1 p2)|]. done.
Qed.

Section Batch.

Variable session_apply : nat → Status.
Variable flush_status : nat → Status.

Lemma chain_exec_progress h chain e :
  (∀ p, p < length h → blk_ops h p ≠ []) →
  NoDup chain → linked h chain →
  chain_exec h chain e →
  inflight e = [] ∨ ∃ e', step session_apply flush_status h e e'.
Proof.
  intros Hne Hnd Hl [_ [Hnil | (m & p & Hfl & Hm & _)]]; [by left | right].
  pose proof (linked_length _ _ Hnd Hl) as Hlen.
  destruct (Done_chain_total session_apply h Hne chain (length h) m p
              (flush_status p) Hl Hm) as (evs & fl & HD); [lia|].
  destruct e as [infl tr]. simpl in Hfl. subst infl.
  eexists. by apply (step_callback _ _ _ [] p [] tr evs fl).
Qed.

Lemma parallel_progress h e e0 :
  (∀ p, p < length h → blk_ops h p ≠ []) →
  (∀ p, blk_next h p = None) →
  Forall (λ q, q < length h) (inflight e0) →
  rtc (step session_apply flush_status h) e0 e →
  inflight e = [] ∨ ∃ e', step session_apply flush_status h e e'.
Proof.
  intros Hne Hnone Hfl Hrtc.
  assert (Forall (λ q, q < length h) (inflight e)) as Hfl'.
  { induction Hrtc as [|e1 e2 e3 Hstep _ IH]; [done|]. apply IH.
    destruct Hstep as [l1 p l2 tr evs fl HD]. simpl in *.
    apply Forall_app in Hfl as [H1 [Hp H2]%Forall_cons].
    destruct (Done_single session_apply h p (length h) (flush_status p) Hp (Hnone p))
      as (evs' & HD').
    rewrite HD' in HD. injection HD as _ <-. simpl. by apply Forall_app. }
  destruct e as [[|p infl] tr]; [by left | right]. simpl in Hfl'.
  apply Forall_cons in Hfl' as [Hp _].
  destruct (Done_single session_apply h p (length h) (flush_status p) Hp (Hnone p))
    as (evs & HD).
  eexists. by apply (step_callback _ _ _ [] p infl tr evs []).
Qed.

Lemma Commit_order_chain ops c tr0 r pre P T :
  Inv ops c → ascending ops →
  Forall (λ e, is_backend_call e = false) tr0 →
  chain_phase ops c r pre P T →
  runs_in_order session_apply flush_status ops c tr0.
Proof.
  intros HI Ha Htr0 Hch.
  pose proof (inv_nonempty _ _ HI) as Hne.
  pose proof Hch as (Hnd & Hhead & _ & _ & Hl & _).
  set (chain := pre ++ [P; T]) in *.
  assert (∃ p0, chain !! 0 = Some p0 ∧ flush_head_ c = Some p0) as (p0 & H0 & Hfh).
  { rewrite Hhead, head_lookup. subst chain. destruct pre; by eexists. }
  pose proof (linked_length _ _ Hnd Hl) as Hlen.
  destruct (Launch_chain_total session_apply _ Hne chain (length (heap c)) 0 p0
              Hl H0) as (evs & fl & HL); [lia|].
  exists evs, fl. split; [unfold Commit; by rewrite Hfh|].
  intros e Hrtc.
  assert (chain_exec (heap c) chain e) as Hex.
  { eapply rtc_chain_exec; [done| |done].
    eapply (Launch_chain session_apply _ chain Hl _ 0 p0 tr0); [done| | |done].
    - intros i j _. by apply no_backend_call_answers_first.
    - intros i p op Hi. lia. }
  split; [by eapply chain_exec_progress|].
  intros o1 o2 H1 H2 Hlt Hc. destruct Hex as [Hok _]. apply Hok.
  by eapply chain_precedes.
Qed.

Lemma Commit_order_parallel ops c tr0 :
  Inv ops c →
  last_conflict_was_read_ c = indeterminate →
  runs_in_order session_apply flush_status ops c tr0.
Proof.
  intros HI Hlc. pose proof (inv_phase _ _ HI) as Hph. rewrite Hlc in Hph.
  pose proof (inv_nonempty _ _ HI) as Hne.
  destruct Hph as (Hhead & Hnone & _ & _ & Hfree).
  assert (Hlaunch : ∀ rd, ∃ evs fl,
            launch_opt session_apply (length (heap c)) (heap c) (block (data rd c))
            = Ret (evs, fl) ∧ Forall (λ q, q < length (heap c)) fl).
  { intros rd. destruct (block (data rd c)) as [p|] eqn:Hp; simpl.
    - pose proof (inv_valid _ _ HI _ _ Hp) as Hlt.
      apply (Launch_single session_apply _ Hne p _ Hlt (Hnone p)). lia.
    - eexists _, _. split; [done | constructor]. }
  destruct (Hlaunch true) as (e1 & f1 & HL1 & Hf1).
  destruct (Hlaunch false) as (e2 & f2 & HL2 & Hf2).
  exists (e1 ++ e2), (f1 ++ f2). split.
  { unfold Commit. rewrite Hhead. simpl in HL1, HL2. by rewrite HL1, HL2. }
  intros e Hrtc. split.
  - eapply parallel_progress; [done | done | | done]. simpl. by apply Forall_app.
  - intros o1 o2 H1 H2 _ Hc. exfalso. by apply (Hfree o1 o2).
Qed.

Lemma Commit_order ops c tr0 :
  Inv ops c → ascending ops →
  Forall (λ e, is_backend_call e = false) tr0 →
  runs_in_order session_apply flush_status ops c tr0.
Proof.
  intros HI Ha Htr0. pose proof (inv_phase _ _ HI) as Hph.
  destruct (last_conflict_was_read_ c) eqn:Hlc.
  1-2: destruct Hph as (r & pre & P & T & _ & Hch); by eapply Commit_order_chain.
  by apply Commit_order_parallel.
Qed.

End Batch.

(** ** The loop of [Handle] *)

Section HandleLoop.

Variable parser : string → RedisClientCommand → Status.
Variable GetBinary : string → RedisClientCommand → Status * string.
Variable safe : bool.

Lemma sched_op_idx i c o : sched_op parser GetBinary safe i c = Some o → idx o = i.
Proof.
  unfold sched_op. repeat case_match; try done. by intros [= <-].
Qed.

Lemma handle_command_scheduled i c o context :
  sched_op parser GetBinary safe i c = Some o →
  handle_command parser GetBinary safe i c context =
  context' ← Apply (idx o) (kind o) (keys_of o) context; mret (context', []).
Proof.
  unfold sched_op, handle_command.
  destruct (dispatch c) as [| | |info]; try done.
  unfold Command.
  destruct (functor info); simpl; [| |done];
    destruct (parse_keys _ _ _ _ _) as [[|message] keys]; try done;
    by intros [= <-].
Qed.

Lemma handle_command_answered i c context :
  sched_op parser GetBinary safe i c = None → c ≠ [] →
  ∃ evs, handle_command parser GetBinary safe i c context = Ret (context, evs) ∧
         Forall (λ e, is_backend_call e = false) evs.
Proof.
  intros Hs Hne. destruct c as [|cmd rest]; [done|].
  unfold sched_op in Hs. unfold handle_command.
  destruct (dispatch (cmd :: rest)) as [| | |info] eqn:Hd.
  1-3: eexists; split; [reflexivity | by repeat constructor].
  unfold Command. destruct (functor info) eqn:Hfun; simpl in Hs.
  1-2: destruct (parse_keys _ _ _ _ _) as [[|message] keys]; [done|];
       eexists; split; [reflexivity | by repeat constructor].
  pose proof (dispatch_Invoke _ _ Hd) as Hf.
  pose proof (in_table_echo _ (FetchHandler_in_table _ _ Hf) Hfun) as Ha.
  destruct (dispatch_Invoke_size _ _ Hd) as [Hsz _].
  specialize (Hsz ltac:(lia)). unfold size in Hsz. simpl in Hsz.
  destruct rest as [|arg rest]; [simpl in Hsz; lia|].
  eexists; split; [reflexivity | by repeat constructor].
Qed.

(** The loop of [Handle] returns on commands that have a first token; what
    it makes of the scheduler is what the [Apply] calls of [sched_ops] make
    of it, and it calls no backend. *)
Lemma handle_loop_Inv batch : ∀ i ops context,
  Forall (λ c, c ≠ []) batch →
  Inv ops context →
  ∃ context' evs,
    handle_loop parser GetBinary safe i batch context = Ret (context', evs) ∧
    Inv (ops ++ sched_ops parser GetBinary safe i batch) context' ∧
    Forall (λ e, is_backend_call e = false) evs.
Proof.
  induction batch as [|c batch IH]; intros i ops context Hne HI.
  - exists context, []. simpl. rewrite app_nil_r. done.
  - apply Forall_cons in Hne as [Hc Hne]. simpl.
    destruct (sched_op parser GetBinary safe i c) as [o|] eqn:Hs.
    + rewrite (handle_command_scheduled _ _ _ _ Hs).
      destruct (Apply_Inv _ _ o HI) as (c1 & -> & HI1). simpl.
      destruct (IH (S i) _ _ Hne HI1) as (c2 & evs & -> & HI2 & Hevs).
      simpl. exists c2, evs. rewrite <- app_assoc in HI2. done.
    + destruct (handle_command_answered _ _ context Hs Hc) as (evs1 & -> & Hevs1).
      simpl. destruct (IH (S i) _ _ Hne HI) as (c2 & evs & -> & HI2 & Hevs).
      simpl. exists c2, (evs1 ++ evs). split; [done|]. split; [done|].
      by apply Forall_app.
Qed.

Lemma sched_ops_lookup batch : ∀ i n o,
  sched_ops parser GetBinary safe i batch !! n = Some o →
  i ≤ idx o ∧
  ∃ c, batch !! (idx o - i) = Some c ∧ sched_op parser GetBinary safe (idx o) c = Some o.
Proof.
  induction batch as [|c batch IH]; intros i n o Hn; [done|]. simpl in Hn.
  apply lookup_app_Some in Hn as [Hn | [_ Hn]].
  - destruct (sched_op parser GetBinary safe i c) as [o'|] eqn:Hs; [|done].
    apply list_lookup_singleton_Some in Hn as [_ ->].
    pose proof (sched_op_idx _ _ _ Hs) as ->. split; [done|].
    exists c. by rewrite Nat.sub_diag.
  - destruct (IH _ _ _ Hn) as (Hle & c' & Hc' & Hs). split; [lia|].
    exists c'. split; [|done].
    replace (idx o - i) with (S (idx o - S i)) by lia. done.
Qed.

Lemma sched_ops_elem batch : ∀ i n c o,
  batch !! n = Some c → sched_op parser GetBinary safe (i + n) c = Some o →
  o ∈ sched_ops parser GetBinary safe i batch.
Proof.
  induction batch as [|c' batch IH]; intros i n c o Hn Hs; [done|]. simpl.
  apply elem_of_app. destruct n as [|n]; simpl in Hn.
  - injection Hn as ->. rewrite Nat.add_0_r in Hs. rewrite Hs. left. left.
  - right. apply (IH (S i) n c); [done|]. by replace (S i + n) with (i + S n) by lia.
Qed.

Lemma sched_ops_ascending batch : ∀ i, ascending (sched_ops parser GetBinary safe i batch).
Proof.
  induction batch as [|c batch IH]; intros i n1 n2 o1 o2 H1 H2 Hlt; [done|].
  simpl in H1, H2.
  destruct (sched_op parser GetBinary safe i c) as [o|] eqn:Hs; simpl in H1, H2.
  - destruct n2 as [|n2]; [lia|]. simpl in H2.
    destruct n1 as [|n1]; simpl in H1.
    + injection H1 as <-. pose proof (sched_op_idx _ _ _ Hs).
      destruct (sched_ops_lookup _ _ _ _ H2). lia.
    + apply (IH (S i) n1 n2); [done | done | lia].
  - by apply (IH (S i) n1 n2).
Qed.

End HandleLoop.

(** ** The chain of an alternating batch *)

Lemma has_conflict_singleton d k :
  has_conflict d [k] = bool_decide (k ∈ used_keys d).
Proof. unfold has_conflict. simpl. by rewrite orb_false_r. Qed.

(** evaluates one [Apply] whose keys are the one key of the goal *)
Ltac apply_step :=
  unfold Apply, CheckConflicts;
  cbn -[union singleton elem_of bool_decide has_conflict];
  rewrite ?has_conflict_singleton;
  cbn -[union singleton elem_of bool_decide has_conflict];
  first [ rewrite bool_decide_eq_true_2 by set_solver
        | rewrite bool_decide_eq_false_2 by set_solver
        | idtac ];
  cbn -[union singleton elem_of bool_decide has_conflict];
  reflexivity.

(** C4. Four operations READ, WRITE, READ, WRITE on one key, the key being
    handed to [Apply] as safe batching does: the scheduler ends with exactly
    four Blocks of one operation each; the chain head is the Block of the
    first READ, and each Block is the successor of the one before it, the
    last having none. No [SetNext] found a successor in place. It is the
    scheduler that the loop of [Handle] reaches on the batch [GET k],
    [SET k v], [GET k], [SET k v] with safe batching on, when both commands
    parse and [k] is the key of their operations. *)
Theorem C4_alternating_chain (k : string) :
  ∃ c,
    run_ops [(0, true, [k]); (1, false, [k]); (2, true, [k]); (3, false, [k])] = Ret c ∧
    heap c = [ {| ops_ := [{| index := 0; read := true |}]; next_ := Some 1 |};
               {| ops_ := [{| index := 1; read := false |}]; next_ := Some 2 |};
               {| ops_ := [{| index := 2; read := true |}]; next_ := Some 3 |};
               {| ops_ := [{| index := 3; read := false |}]; next_ := None |} ] ∧
    flush_head_ c = Some 0 ∧
    block (read_data_ c) = Some 2 ∧
    block (write_data_ c) = Some 3 ∧
    dfatal c = [] ∧
    ∀ v, handle_loop example_parser example_GetBinary true 0
           [["GET"; k]; ["SET"; k; v]; ["GET"; k]; ["SET"; k; v]]
           BatchContext_init = Ret (c, []).
Proof.
  assert (Hloop : ∀ v c,
    run_ops [(0, true, [k]); (1, false, [k]); (2, true, [k]); (3, false, [k])] = Ret c →
    handle_loop example_parser example_GetBinary true 0
      [["GET"; k]; ["SET"; k; v]; ["GET"; k]; ["SET"; k; v]]
      BatchContext_init = Ret (c, [])).
  { intros v c. unfold run_ops.
    cbn [foldl apply_op fst snd mbind outcome_bind handle_loop].
    rewrite (handle_command_scheduled _ _ _ 0 _ (0, true, [k])) by reflexivity.
    cbn [idx kind keys_of fst snd].
    destruct (Apply 0 true [k] BatchContext_init) as [c1|]; [|done].
    cbn [mbind mret outcome_bind outcome_ret].
    rewrite (handle_command_scheduled _ _ _ 1 _ (1, false, [k])) by reflexivity.
    cbn [idx kind keys_of fst snd].
    destruct (Apply 1 false [k] c1) as [c2|]; [|done].
    cbn [mbind mret outcome_bind outcome_ret].
    rewrite (handle_command_scheduled _ _ _ 2 _ (2, true, [k])) by reflexivity.
    cbn [idx kind keys_of fst snd].
    destruct (Apply 2 true [k] c2) as [c3|]; [|done].
    cbn [mbind mret outcome_bind outcome_ret].
    rewrite (handle_command_scheduled _ _ _ 3 _ (3, false, [k])) by reflexivity.
    cbn [idx kind keys_of fst snd].
    destruct (Apply 3 false [k] c3) as [c4|]; [|done].
    cbn [mbind mret outcome_bind outcome_ret]. by intros [= ->]. }
  revert Hloop.
  unfold run_ops. cbn [foldl apply_op fst snd mbind outcome_bind].
  eassert (Apply 0 true [k] BatchContext_init = Ret _) as -> by apply_step.
  cbn [mbind outcome_bind].
  eassert (Apply 1 false [k] _ = Ret _) as -> by apply_step.
  cbn [mbind outcome_bind].
  eassert (Apply 2 true [k] _ = Ret _) as -> by apply_step.
  cbn [mbind outcome_bind].
  eassert (Apply 3 false [k] _ = Ret _) as -> by apply_step.
  cbn [mbind outcome_bind].
  intros Hloop. eexists. split; [reflexivity|]. cbn.
  repeat (split; [done|]). intros v. by apply Hloop.
Qed.

(** ** The successor found by [SetNext] *)

(** Where [Apply] is about to chain a fresh Block, the opposite Block is
    there and has no successor. *)
Lemma fresh_block_opposite ops c rd keys c1 :
  Inv ops c →
  CheckConflicts rd keys c = Ret c1 →
  block (data rd c1) = None →
  tribool_eq (last_conflict_was_read_ c1) rd = true →
  ∃ P, block (data (negb rd) c1) = Some P ∧ P < length (heap c1) ∧
       blk_next (heap c1) P = None.
Proof.
  intros HI Hcc Hb Hte. pose proof (inv_phase _ _ HI) as Hph.
  unfold CheckConflicts in Hcc.
  destruct (tribool_eq (last_conflict_was_read_ c) rd) eqn:Hte0.
  { (* no check: the kind led the last conflict and has its Block *)
    injection Hcc as <-. exfalso.
    destruct (last_conflict_was_read_ c) eqn:Hlc; [| |by destruct rd].
    all: destruct Hph as (r & pre & P & T & Hr & _ & _ & HbT & _).
    all: destruct r, rd; simpl in *; congruence. }
  destruct (has_conflict (data (negb rd) c) keys) eqn:Hcf;
    [|injection Hcc as <-; congruence].
  unfold ConflictFound in Hcc.
  destruct (last_conflict_was_read_ c) eqn:Hlc; cbn [is_indeterminate] in Hcc.
  3: { (* the first conflict *)
    cbv zeta in Hcc. rewrite !data_set_flush_head in Hcc.
    cbn [heap set_flush_head] in Hcc.
    destruct Hph as (_ & Hnone & _).
    destruct (block (data (negb rd) c)) as [P|] eqn:HP.
    2: { apply has_conflict_true in Hcf as (k & _ & Hk).
         rewrite (inv_keys _ _ HI _ HP) in Hk. by apply not_elem_of_empty in Hk. }
    pose proof (inv_valid _ _ HI _ _ HP) as HPlt.
    rewrite (SetNext_Some _ P) in Hcc by done.
    cbn [mbind mret outcome_bind outcome_ret] in Hcc.
    injection Hcc as <-.
    rewrite data_set_last_conflict, data_set_heap, data_set_flush_head in Hb.
    rewrite Hb.
    exists P. rewrite data_set_last_conflict, data_set_heap, data_set_flush_head.
    split; [done|]. cbn [heap set_last_conflict set_heap].
    rewrite length_heap_set_next. split; [done|].
    rewrite blk_next_set_next, decide_True by done. done. }
  (* a later conflict *)
  all: cbn [mbind mret outcome_bind outcome_ret] in Hcc; injection Hcc as <-.
  all: destruct Hph as (r & pre & P & T & Hr & Hch).
  all: pose proof Hch as (_ & _ & HbT & _ & Hl & _).
  all: destruct (chain_T_next _ _ _ _ Hl) as [HTlt HnT].
  all: exists T; destruct r, rd; simpl in *; try done.
Qed.

(** ** The dispatcher when the client cannot be set up *)

Lemma fail_all_answered batch : ∀ i message,
  Forall (λ c : RedisClientCommand, c ≠ []) batch →
  ∃ evs, fail_all i batch message = Ret evs ∧
         Forall (λ e, is_backend_call e = false) evs.
Proof.
  induction batch as [|c batch IH]; intros i message Hne.
  - by exists [].
  - apply Forall_cons in Hne as [Hc Hne]. destruct c as [|cmd rest]; [done|].
    destruct (IH (S i) message Hne) as (evs & Hf & Hevs).
    simpl. rewrite Hf. simpl. eexists. split; [done|]. by constructor.
Qed.

Lemma step_inflight session_apply flush_status h e e' :
  step session_apply flush_status h e e' → inflight e ≠ [].
Proof. intros [l1 p l2 tr evs fl _]. simpl. by destruct l1. Qed.

(** C5. After any sequence of [Apply] calls the scheduler has logged no
    "Opposite already had next block"; and whenever a further [Apply], past
    its conflict check, finds no open Block for its kind while its kind led
    the last conflict, the [SetNext] it performs on the opposite Block, with
    the fresh Block as successor, returns the absent value. *)
Theorem C5_SetNext_returns_absent (ops : list SchedOp) :
  ∃ c,
    run_ops ops = Ret c ∧
    dfatal c = [] ∧
    ∀ rd keys c1,
      CheckConflicts rd keys c = Ret c1 →
      block (data rd c1) = None →
      tribool_eq (last_conflict_was_read_ c1) rd = true →
      ∃ h', SetNext (heap c1 ++ [{| ops_ := []; next_ := None |}])
                    (block (data (negb rd) c1))
                    (Some (length (heap c1))) = Ret (None, h').
Proof.
  destruct (run_ops_Inv ops) as (c & Hrun & HI).
  exists c. split; [done|]. split; [apply (inv_dfatal _ _ HI)|].
  intros rd keys c1 Hcc Hb Hte.
  destruct (fresh_block_opposite _ _ _ _ _ HI Hcc Hb Hte) as (P & -> & HPlt & Hn).
  fold (heap_alloc (heap c1)).
  rewrite SetNext_Some by (rewrite length_heap_alloc; lia).
  rewrite blk_next_alloc, Hn. by eexists.
Qed.

Lemma C5_SetNext_returns_absent_witness :
  ∃ c c1,
    run_ops [(0, true, ["k"]); (1, false, ["k"])] = Ret c ∧
    CheckConflicts true ["k"] c = Ret c1 ∧
    ∃ h', SetNext (heap c1 ++ [{| ops_ := []; next_ := None |}])
                  (block (data (negb true) c1))
                  (Some (length (heap c1))) = Ret (None, h').
Proof.
  destruct (C5_SetNext_returns_absent [(0, true, ["k"]); (1, false, ["k"])])
    as (c & Hrun & _ & Hnext).
  assert (Hc : Ret c = run_ops [(0, true, ["k"]); (1, false, ["k"])]) by done.
  vm_compute in Hc. injection Hc as ->.
  eexists _, _. split; [vm_compute; reflexivity|].
  split; [vm_compute; reflexivity|].
  apply (Hnext true ["k"]); vm_compute; reflexivity.
Defined.

(** ** The command table, read back *)

Lemma foldl_SetupMethod_name (l : list RedisCommandInfo)
    (m : gmap string RedisCommandInfo) k info :
  foldl SetupMethod m l !! k = Some info →
  (info ∈ l ∧ name info = k) ∨ m !! k = Some info.
Proof.
  revert m. induction l as [|x l IH]; intros m; simpl; [by right|].
  intros H. destruct (IH _ H) as [[Hin Hk] | Hm].
  - left. split; [|done]. apply elem_of_cons. by right.
  - unfold SetupMethod in Hm. rewrite lookup_insert in Hm.
    case_decide; [|by right]. injection Hm as <-. left.
    split; [apply elem_of_cons; by left | done].
Qed.

Lemma table_names_found :
  Forall (λ info, command_name_to_info_map_ !! name info = Some info)
         REDIS_COMMANDS.
Proof. repeat constructor; vm_compute; reflexivity. Qed.

(** X1. A command is recognised exactly when the lower-cased first token is
    the name of one of the 22 entries of [REDIS_COMMANDS], and the handler
    found is that entry: no entry of the table hides another one and the
    look-up ignores the case of the token. *)
Theorem FetchHandler_table cmd rest info :
  FetchHandler (cmd :: rest) = Some info ↔
  info ∈ REDIS_COMMANDS ∧ name info = to_lower cmd.
Proof.
  simpl. split.
  - intros H. apply foldl_SetupMethod_name in H as [H | H]; [done|].
    by rewrite lookup_empty in H.
  - intros [Hin <-]. pose proof table_names_found as Hall.
    rewrite Forall_forall in Hall. by apply Hall.
Qed.

(** ** The batch that meets no client *)

Lemma fail_all_imap batch : ∀ i message,
  Forall (λ c : RedisClientCommand, c ≠ []) batch →
  fail_all i batch message =
  Ret (imap (λ k c, RespondFailure (i + k)
                      (failure_status (default "" (head c)) message)) batch).
Proof.
  induction batch as [|c batch IH]; intros i message Hne; [done|].
  apply Forall_cons in Hne as [Hc Hne]. destruct c as [|cmd rest]; [done|].
  simpl. rewrite (IH (S i) message Hne). simpl. rewrite Nat.add_0_r.
  do 2 f_equal. apply imap_ext. intros k c _. simpl. do 2 f_equal. lia.
Qed.

Lemma Handle_setup_failure_eq parser GetBinary safe session_apply message text
    (batch : list RedisClientCommand) :
  Forall (λ c, c ≠ []) batch →
  Handle parser GetBinary safe session_apply (Failed message) text batch =
  Ret (BatchContext_init,
       {| inflight := [];
          trace := imap (λ i c, RespondFailure i
                     (failure_status (default "" (head c))
                        (String.append "Could not open .redis table. " text)))
                     batch |}).
Proof.
  intros Hne. unfold Handle. cbn [ok]. by rewrite (fail_all_imap batch 0 _ Hne).
Qed.

(** ** A pipeline of ECHO commands *)

Lemma handle_command_echo parser GetBinary safe i cmd arg context :
  to_lower cmd = "echo" →
  handle_command parser GetBinary safe i [cmd; arg] context =
  Ret (context, [RespondSuccess i (string_response arg)]).
Proof.
  intros Hl. unfold handle_command, dispatch, FetchHandler.
  rewrite Hl, echo_lookup. reflexivity.
Qed.

Lemma handle_loop_echo parser GetBinary safe batch : ∀ i context,
  Forall (λ c : RedisClientCommand,
            ∃ cmd arg, c = [cmd; arg] ∧ to_lower cmd = "echo") batch →
  handle_loop parser GetBinary safe i batch context =
  Ret (context,
       imap (λ k c, RespondSuccess (i + k) (string_response (default "" (c !! 1))))
            batch).
Proof.
  induction batch as [|c batch IH]; intros i context Hall; [done|].
  apply Forall_cons in Hall as [(cmd & arg & -> & Hl) Hall].
  cbn [handle_loop]. rewrite (handle_command_echo _ _ _ _ _ _ _ Hl).
  cbn [mbind outcome_bind]. rewrite (IH (S i) context Hall).
  cbn [mbind outcome_bind mret outcome_ret]. simpl. rewrite Nat.add_0_r.
  do 3 f_equal. apply imap_ext. intros k c _. simpl. do 1 f_equal. lia.
Qed.

(** X2. A batch made of two-token ECHO commands only (the name in any mix
    of cases) is answered by the handler thread itself: the trace is one
    success per index, in index order, each carrying the second token of its
    command; no Block is made, no backend is called, nothing is in flight. *)
Theorem Handle_echo_pipeline parser GetBinary safe session_apply text
    (batch : list RedisClientCommand) :
  Forall (λ c, ∃ cmd arg, c = [cmd; arg] ∧ to_lower cmd = "echo") batch →
  Handle parser GetBinary safe session_apply OK text batch =
  Ret (BatchContext_init,
       {| inflight := [];
          trace := imap (λ i c, RespondSuccess i
                                  (string_response (default "" (c !! 1))))
                        batch |}).
Proof.
  intros Hall. unfold Handle. cbn [ok].
  rewrite (handle_loop_echo _ _ _ batch 0 _ Hall).
  cbn [mbind outcome_bind]. unfold Commit. simpl. by rewrite app_nil_r.
Qed.

Lemma Handle_echo_pipeline_witness :
  let batch := [["ECHO"; "a"]; ["echo"; "b"]] in
  Forall (λ c : RedisClientCommand,
            ∃ cmd arg, c = [cmd; arg] ∧ to_lower cmd = "echo") batch ∧
  Handle example_parser example_GetBinary true accept_all OK "" batch =
  Ret (BatchContext_init,
       {| inflight := [];
          trace := [RespondSuccess 0 (string_response "a");
                    RespondSuccess 1 (string_response "b")] |}).
Proof.
  intros batch.
  assert (Hall : Forall (λ c : RedisClientCommand,
            ∃ cmd arg, c = [cmd; arg] ∧ to_lower cmd = "echo") batch).
  { repeat constructor; eexists _, _; split; reflexivity. }
  split; [exact Hall|].
  apply (Handle_echo_pipeline example_parser example_GetBinary true accept_all
           "" batch Hall).
Defined.

(** ** What the Blocks hold after any sequence of [Apply] calls *)

Lemma Step_Tidy ops c c' o X :
  Inv ops c → Step c c' (to_op o) X →
  Tidy ops (heap c) → Tidy (ops ++ [o]) (heap c').
Proof.
  intros HI HS [Hk Ho]. split.
  - intros p op op'. rewrite (step_ops _ _ _ _ HS p). case_decide as Hp; [|apply Hk].
    subst p.
    assert (Hold : ∀ op1, op1 ∈ blk_ops (heap c) X → read op1 = kind o).
    { intros op1 Hin. destruct (step_origin _ _ _ _ HS) as [Hb | ->].
      - apply (inv_kind _ _ HI _ _ _ Hb Hin).
      - rewrite blk_ops_out in Hin by done. by apply elem_of_nil in Hin. }
    rewrite !elem_of_app, !list_elem_of_singleton.
    intros [H1 | ->] [H2 | ->];
      [by rewrite (Hold _ H1), (Hold _ H2) | by rewrite (Hold _ H1)
      | by rewrite (Hold _ H2) | done].
  - intros Ha p. apply ascending_snoc in Ha as [Ha Hlt].
    rewrite (step_ops _ _ _ _ HS p). case_decide as Hp; [|by apply Ho].
    subst p. intros n1 n2 op1 op2 H1 H2 Hn.
    apply lookup_snoc_Some in H2 as [[Hn2 H2] | [Hn2 <-]].
    + rewrite lookup_app_l in H1 by lia. by apply (Ho Ha X n1 n2).
    + rewrite lookup_app_l in H1 by lia.
      apply list_elem_of_lookup_2 in H1.
      destruct (inv_from _ _ HI _ _ H1) as (o1 & Hin1 & <-).
      by apply Hlt.
Qed.

Lemma flat_map_blk_ops_ext (f g : nat → list Operation) l :
  (∀ p, p ∈ l → f p = g p) → flat_map f l = flat_map g l.
Proof.
  induction l as [|x l IH]; intros H; [done|]. simpl.
  rewrite (H x) by left. f_equal. apply IH. intros p Hp. apply H. by right.
Qed.

Lemma flat_map_snoc_at (f g : nat → list Operation) l X op :
  NoDup l → X ∈ l →
  g X = f X ++ [op] → (∀ p, p ≠ X → g p = f p) →
  flat_map g l ≡ₚ flat_map f l ++ [op].
Proof.
  intros Hnd Hin HX Hother. induction Hnd as [|x l Hx Hnd IH]; [by apply elem_of_nil in Hin|].
  simpl. destruct (decide (x = X)) as [-> | Hne].
  - rewrite HX. rewrite (flat_map_blk_ops_ext g f l).
    + rewrite <- !app_assoc. apply Permutation_app_head. apply Permutation_app_comm.
    + intros p Hp. apply Hother. intros ->. done.
  - rewrite Hother by done. rewrite <- app_assoc. apply Permutation_app_head.
    apply IH. apply elem_of_cons in Hin as [Hin | Hin]; [congruence | done].
Qed.

Lemma Step_all_ops c c' op X :
  Step c c' op X → all_ops (heap c') ≡ₚ all_ops (heap c) ++ [op].
Proof.
  intros HS. unfold all_ops.
  pose proof (step_ops _ _ _ _ HS) as Hops.
  destruct (step_len _ _ _ _ HS) as [Hlen | [Hlen HX]].
  - rewrite Hlen. apply (flat_map_snoc_at _ _ _ X).
    + apply NoDup_seq.
    + apply elem_of_seq. pose proof (step_lt _ _ _ _ HS). lia.
    + by rewrite Hops, decide_True.
    + intros p Hp. by rewrite Hops, decide_False.
  - rewrite Hlen, seq_S, !flat_map_app. simpl. rewrite !app_nil_r.
    rewrite (Hops (length (heap c))), decide_True by done.
    rewrite HX, (blk_ops_out (heap c) (length (heap c))) by done. simpl.
    rewrite (flat_map_blk_ops_ext (blk_ops (heap c')) (blk_ops (heap c))); [done|].
    intros p Hp%elem_of_seq. rewrite Hops, decide_False by lia. done.
Qed.

Lemma all_ops_concat (h : list Block) : all_ops h = concat (ops_ <$> h).
Proof.
  unfold all_ops. induction h as [|b h IH] using rev_ind; [done|].
  rewrite length_app, Nat.add_1_r, seq_S, flat_map_app, fmap_app, concat_app.
  simpl. rewrite !app_nil_r. f_equal.
  - rewrite <- IH. apply flat_map_blk_ops_ext. intros p Hp%elem_of_seq.
    unfold blk_ops. rewrite lookup_app_l by lia. done.
  - unfold blk_ops. rewrite lookup_app_r by done. by rewrite Nat.sub_diag.
Qed.

(** The scheduler returns on every sequence of [Apply] calls; its Blocks
    are tidy and hold the operations of the calls, each once. *)
Lemma run_ops_Tidy ops :
  ∃ c, run_ops ops = Ret c ∧ Inv ops c ∧ Tidy ops (heap c) ∧
       all_ops (heap c) ≡ₚ to_op <$> ops.
Proof.
  induction ops as [|o ops IH] using rev_ind.
  - exists BatchContext_init. split; [done|]. split; [apply Inv_init|].
    split; [|done]. split.
    + simpl. intros p op op'. rewrite blk_ops_nil. by intros ?%elem_of_nil.
    + simpl. intros _ p n1 n2 op1 op2. by rewrite blk_ops_nil.
  - destruct IH as (c & Hrun & HI & HT & Hall).
    destruct (Apply_Inv_Step ops c o HI) as (c' & X & HA & HS & HN & HI').
    exists c'. rewrite run_ops_snoc, Hrun. split; [done|]. split; [done|].
    split; [by eapply Step_Tidy|].
    rewrite (Step_all_ops _ _ _ _ HS), Hall, fmap_app. done.
Qed.

(** X3. After any sequence of [Apply] calls no Block is empty and every
    Block holds operations of one kind only, so the session that [Launch]
    opens from the kind of the first operation is of the kind of all of
    them; and where the calls came in index order, as [Handle] makes them,
    every Block holds its operations in that order. *)
Theorem blocks_tidy (ops : list SchedOp) :
  ∃ c, run_ops ops = Ret c ∧
    ∀ p b, heap c !! p = Some b →
      ops_ b ≠ [] ∧
      (∀ op op', op ∈ ops_ b → op' ∈ ops_ b → read op = read op') ∧
      (ascending ops → increasing (ops_ b)).
Proof.
  destruct (run_ops_Tidy ops) as (c & Hrun & HI & [Hk Ho] & _).
  exists c. split; [done|]. intros p b Hb.
  destruct (blk_lookup _ _ _ Hb) as [Hops _]. rewrite <- Hops.
  split; [|split].
  - apply (inv_nonempty _ _ HI). by eapply lookup_lt_Some.
  - apply Hk.
  - intros Ha. by apply Ho.
Qed.

Lemma blocks_tidy_witness :
  let ops := [(0, true, ["k"]); (1, true, ["j"]); (2, false, ["k"])] in
  ∃ c b, run_ops ops = Ret c ∧ heap c !! 0 = Some b ∧
         ops_ b ≠ [] ∧
         (∀ op op', op ∈ ops_ b → op' ∈ ops_ b → read op = read op').
Proof.
  intros ops. destruct (blocks_tidy ops) as (c & Hrun & Hall).
  assert (Hc : Ret c = run_ops ops) by done.
  vm_compute in Hc. injection Hc as ->.
  eexists _, _. split; [vm_compute; reflexivity|]. split; [reflexivity|].
  destruct (Hall 0 _ eq_refl) as (Hne & Hkind & _). split; [exact Hne | exact Hkind].
Defined.

(** X4. The scheduler neither drops nor doubles an operation: after any
    sequence of [Apply] calls the operations held by the Blocks, taken
    together, are those of the calls, each exactly once. *)
Theorem scheduler_keeps_every_operation (ops : list SchedOp) :
  ∃ c, run_ops ops = Ret c ∧ concat (ops_ <$> heap c) ≡ₚ to_op <$> ops.
Proof.
  destruct (run_ops_Tidy ops) as (c & Hrun & _ & _ & Hall).
  exists c. split; [done|]. by rewrite <- all_ops_concat.
Qed.

(** ** Chains of Blocks *)

Lemma linked_tail (h : list Block) p l : linked h (p :: l) → linked h l.
Proof. intros H i q Hq. by apply (H (S i) q). Qed.

Lemma linked_suffix (h : list Block) l1 l2 : linked h (l1 ++ l2) → linked h l2.
Proof. induction l1 as [|p l1 IH]; [done|]. intros H. by apply IH, (linked_tail h p). Qed.

Lemma linked_single (h : list Block) p :
  p < length h → blk_next h p = None → linked h [p].
Proof. intros Hlt Hn [|i] q Hq; [|done]. injection Hq as <-. done. Qed.

Lemma linked_head (h : list Block) p l :
  linked h (p :: l) → p < length h ∧ blk_next h p = head l.
Proof. intros H. destruct (H 0 p eq_refl) as [Hlt Hn]. by rewrite head_lookup. Qed.

(** ** The head of the chain *)

Lemma Inv_flush_head ops c :
  Inv ops c → (flush_head_ c = None ↔ last_conflict_was_read_ c = indeterminate).
Proof.
  intros HI. pose proof (inv_phase _ _ HI) as Hph.
  destruct (last_conflict_was_read_ c) eqn:Hlc.
  1-2: destruct Hph as (r & pre & P & T & _ & _ & Hh & _);
       rewrite Hh; split; [by destruct pre | done].
  destruct Hph as [Hh _]. done.
Qed.







(** ** Batches in which no two operations conflict *)

Lemma of_kind_snoc_eq ops o : of_kind (kind o) (ops ++ [o]) = of_kind (kind o) ops ++ [o].
Proof.
  unfold of_kind. rewrite filter_app. f_equal.
  rewrite filter_cons, decide_True by done. done.
Qed.

Lemma of_kind_snoc_ne ops o : of_kind (negb (kind o)) (ops ++ [o]) = of_kind (negb (kind o)) ops.
Proof.
  unfold of_kind. rewrite filter_app, filter_cons, decide_False by (by destruct (kind o)).
  by rewrite filter_nil, app_nil_r.
Qed.

Lemma Unchained_init : Unchained [] BatchContext_init.
Proof.
  split.
  - done.
  - intros [] k; simpl; by intros ?%elem_of_empty.
  - by intros [] p.
  - done.
  - simpl. intros p Hp. lia.
Qed.

Lemma Apply_Unchained ops c o :
  Inv ops c → Unchained ops c →
  (∀ o', o' ∈ ops → ¬ conflicting o' o) →
  ∃ c', Apply (idx o) (kind o) (keys_of o) c = Ret c' ∧
        Inv (ops ++ [o]) c' ∧ Unchained (ops ++ [o]) c'.
Proof.
  intros HI [Hlc Hkeys Hblock Hnone Hopen] Hfree.
  assert (Hcf : has_conflict (data (negb (kind o)) c) (keys_of o) = false).
  { apply has_conflict_false. intros k Hk Hin.
    destruct (Hkeys _ _ Hin) as (o' & Ho' & Hkind & Hk').
    apply (Hfree o' Ho'). split; [rewrite Hkind; by destruct (kind o)|].
    by exists k. }
  assert (Hcc : CheckConflicts (kind o) (keys_of o) c = Ret c).
  { unfold CheckConflicts. by rewrite Hlc, Hcf. }
  destruct (Apply_Inv_Step ops c o HI) as (c' & X & HA & HS & HN & HI').
  exists c'. split; [done|]. split; [done|].
  pose proof (step_ops _ _ _ _ HS) as Hops.
  pose proof (step_block _ _ _ _ HS) as HbX. cbn [to_op read] in HbX.
  pose proof (step_opp _ _ _ _ HS) as Hopp. cbn [to_op read] in Hopp.
  assert (Hc' : last_conflict_was_read_ c' = indeterminate ∧
                (∀ k, k ∈ used_keys (data (kind o) c') ↔
                      k ∈ keys_of o ∨ k ∈ used_keys (data (kind o) c)) ∧
                (block (data (kind o) c) = Some X ∨
                 block (data (kind o) c) = None ∧ X = length (heap c))).
  { destruct (block (data (kind o) c)) as [p|] eqn:Hb.
    - pose proof (inv_valid _ _ HI _ _ Hb) as Hlt.
      rewrite (Apply_join _ _ _ _ p Hcc Hb Hlt) in HA. injection HA as <-.
      split; [done|]. split.
      + intros k. by rewrite RememberKeys_keys.
      + left. rewrite block_RememberKeys, data_set_heap in HbX. congruence.
    - rewrite Apply_open in HA by (try done; by rewrite Hlc).
      injection HA as <-. split; [done|]. split.
      + intros k. rewrite RememberKeys_keys.
        by rewrite data_set_heap, data_set_data_eq.
      + right. split; [done|]. rewrite block_RememberKeys in HbX.
        rewrite data_set_heap, data_set_data_eq in HbX. simpl in HbX.
        by injection HbX. }
  destruct Hc' as (Hlc' & Hkeys' & Horigin).
  split.
  - done.
  - intros rd k Hk. destruct (bool_cases (kind o) rd) as [-> | ->].
    + apply Hkeys' in Hk as [Hk | Hk].
      * exists o. split; [apply elem_of_snoc; by right | done].
      * destruct (Hkeys _ _ Hk) as (o' & Ho' & Hkind & Hk').
        exists o'. split; [apply elem_of_snoc; by left | done].
    + rewrite Hopp in Hk. destruct (Hkeys _ _ Hk) as (o' & Ho' & Hkind & Hk').
      exists o'. split; [apply elem_of_snoc; by left | done].
  - intros rd p Hp. destruct (bool_cases (kind o) rd) as [-> | ->].
    + rewrite HbX in Hp. injection Hp as <-.
      rewrite Hops, decide_True, of_kind_snoc_eq, fmap_app by done. f_equal.
      destruct Horigin as [Hb | [Hb ->]].
      * by apply Hblock.
      * rewrite blk_ops_out by done. by rewrite (Hnone _ Hb).
    + rewrite Hopp in Hp.
      pose proof (Step_other_ne _ _ _ _ _ _ HI HS Hp) as Hne.
      rewrite Hops, decide_False, of_kind_snoc_ne by done. by apply Hblock.
  - intros rd Hb. destruct (bool_cases (kind o) rd) as [-> | ->]; [congruence|].
    rewrite Hopp in Hb. rewrite of_kind_snoc_ne. by apply Hnone.
  - intros p Hp. destruct (decide (p = X)) as [-> | Hne]; [by exists (kind o)|].
    assert (Hp' : p < length (heap c)).
    { destruct (step_len _ _ _ _ HS) as [Hl | [Hl HX]]; lia. }
    destruct (Hopen _ Hp') as (rd & Hrd).
    destruct (bool_cases (kind o) rd) as [-> | ->].
    + destruct Horigin as [Hb | [Hb _]]; congruence.
    + exists (negb (kind o)). by rewrite Hopp.
Qed.

Lemma run_ops_Unchained ops :
  (∀ o1 o2, o1 ∈ ops → o2 ∈ ops → ¬ conflicting o1 o2) →
  ∃ c, run_ops ops = Ret c ∧ Inv ops c ∧ Unchained ops c.
Proof.
  induction ops as [|o ops IH] using rev_ind; intros Hfree.
  - exists BatchContext_init. split; [done|]. split; [apply Inv_init | apply Unchained_init].
  - destruct IH as (c & Hrun & HI & HU).
    { intros o1 o2 H1 H2. apply Hfree; apply elem_of_snoc; by left. }
    destruct (Apply_Unchained ops c o HI HU) as (c' & HA & HI' & HU').
    { intros o' Ho'. apply Hfree; apply elem_of_snoc; [by left | by right]. }
    exists c'. rewrite run_ops_snoc, Hrun. done.
Qed.

Lemma Unchained_two_blocks ops c :
  Inv ops c → Unchained ops c → length (heap c) ≤ 2.
Proof.
  intros HI HU. destruct (decide (length (heap c) ≤ 2)) as [|Hgt]; [done|].
  destruct (un_open _ _ HU 0) as (r0 & H0); [lia|].
  destruct (un_open _ _ HU 1) as (r1 & H1); [lia|].
  destruct (un_open _ _ HU 2) as (r2 & H2); [lia|].
  destruct r0, r1, r2; congruence.
Qed.

(** X6. When no two calls of opposite kinds share a key, the scheduler
    never chains: [flush_head_] stays absent and
    [last_conflict_was_read_] indeterminate, there are at most two Blocks,
    none with a successor, and the open Block of each kind holds every
    operation of that kind, in call order; a kind without calls has no
    Block. *)
Theorem no_conflict_two_blocks (ops : list SchedOp) :
  (∀ o1 o2, o1 ∈ ops → o2 ∈ ops → ¬ conflicting o1 o2) →
  ∃ c, run_ops ops = Ret c ∧
    flush_head_ c = None ∧
    last_conflict_was_read_ c = indeterminate ∧
    length (heap c) ≤ 2 ∧
    ∀ rd,
      match block (data rd c) with
      | Some p => heap c !! p = Some {| ops_ := to_op <$> of_kind rd ops;
                                        next_ := None |}
      | None => of_kind rd ops = []
      end.
Proof.
  intros Hfree. destruct (run_ops_Unchained ops Hfree) as (c & Hrun & HI & HU).
  exists c. split; [done|].
  pose proof (inv_phase _ _ HI) as Hph. rewrite (un_lcr _ _ HU) in Hph.
  destruct Hph as (Hh & Hnext & _).
  split; [done|]. split; [apply (un_lcr _ _ HU)|].
  split; [by eapply Unchained_two_blocks|].
  intros rd. destruct (block (data rd c)) as [p|] eqn:Hb.
  - pose proof (inv_valid _ _ HI _ _ Hb) as Hlt.
    destruct (lookup_lt_is_Some_2 _ _ Hlt) as [b Hp].
    destruct (blk_lookup _ _ _ Hp) as [Hops Hn].
    rewrite (un_block _ _ HU _ _ Hb) in Hops. rewrite Hnext in Hn.
    rewrite Hp. destruct b as [o n]. simpl in *. by subst.
  - by apply (un_none _ _ HU).
Qed.

Lemma no_conflict_two_blocks_witness :
  let ops := [(0, true, ["a"]); (1, false, ["b"]); (2, true, ["c"])] in
  (∀ o1 o2, o1 ∈ ops → o2 ∈ ops → ¬ conflicting o1 o2) ∧
  ∃ c, run_ops ops = Ret c ∧ flush_head_ c = None ∧ length (heap c) ≤ 2.
Proof.
  intros ops.
  assert (Hfree : ∀ o1 o2, o1 ∈ ops → o2 ∈ ops → ¬ conflicting o1 o2).
  { intros o1 o2 H1 H2 [Hk (k & Hk1 & Hk2)]. subst ops.
    rewrite !elem_of_cons, elem_of_nil in H1, H2.
    destruct H1 as [-> | [-> | [-> | []]]], H2 as [-> | [-> | [-> | []]]];
      cbn in Hk, Hk1, Hk2; try done;
      apply list_elem_of_singleton in Hk1, Hk2; congruence. }
  split; [exact Hfree|].
  destruct (no_conflict_two_blocks ops Hfree) as (c & Hrun & Hh & _ & Hlen & _).
  by exists c.
Defined.

(** ** The loop of [Handle] and the calls it makes *)

Lemma handle_loop_run_ops parser GetBinary safe batch : ∀ i context context' evs,
  handle_loop parser GetBinary safe i batch context = Ret (context', evs) →
  foldl apply_op (Ret context) (sched_ops parser GetBinary safe i batch) = Ret context'.
Proof.
  induction batch as [|c batch IH]; intros i context context' evs Hloop.
  - simpl in *. by injection Hloop as <- _.
  - cbn [handle_loop sched_ops] in *.
    destruct (sched_op parser GetBinary safe i c) as [o|] eqn:Hs.
    + rewrite (handle_command_scheduled _ _ _ _ _ _ context Hs) in Hloop.
      destruct (Apply (idx o) (kind o) (keys_of o) context) as [c1|] eqn:HA; [|done].
      cbn [mbind mret outcome_bind outcome_ret] in Hloop.
      destruct (handle_loop parser GetBinary safe (S i) batch c1)
        as [[c2 evs2]|] eqn:HL; [|done].
      cbn [mbind mret outcome_bind outcome_ret] in Hloop. injection Hloop as <- _.
      rewrite foldl_app. change (option_list (Some o)) with [o]. cbn [foldl].
      change (apply_op (Ret context) o) with (Apply (idx o) (kind o) (keys_of o) context).
      rewrite HA. by eapply IH.
    + destruct c as [|cmd rest]; [done|].
      destruct (handle_command_answered parser GetBinary safe i (cmd :: rest) context Hs)
        as (evs1 & Hh & _); [done|].
      rewrite Hh in Hloop. cbn [mbind mret outcome_bind outcome_ret] in Hloop.
      destruct (handle_loop parser GetBinary safe (S i) batch context)
        as [[c2 evs2]|] eqn:HL; [|done].
      cbn [mbind mret outcome_bind outcome_ret] in Hloop. injection Hloop as <- _.
      change (option_list None ++ ?l) with l. by eapply IH.
Qed.

Lemma sched_op_unsafe parser GetBinary i c o :
  sched_op parser GetBinary false i c = Some o → keys_of o = [].
Proof.
  unfold sched_op. destruct (dispatch c) as [| | |info]; try done.
  unfold parse_keys. cbv zeta. rewrite andb_false_r.
  repeat case_match; try done. by intros [= <-].
Qed.

Lemma sched_ops_unsafe parser GetBinary batch : ∀ i o,
  o ∈ sched_ops parser GetBinary false i batch → keys_of o = [].
Proof.
  induction batch as [|c batch IH]; intros i o Hin; [by apply elem_of_nil in Hin|].
  simpl in Hin. apply elem_of_app in Hin as [Hin | Hin]; [|by eapply IH].
  destruct (sched_op parser GetBinary false i c) as [o'|] eqn:Hs;
    [|by apply elem_of_nil in Hin].
  apply list_elem_of_singleton in Hin as ->. by eapply sched_op_unsafe.
Qed.

(** ** Counting responses and submissions *)

Lemma responses_at_app i tr1 tr2 :
  responses_at i (tr1 ++ tr2) = responses_at i tr1 + responses_at i tr2.
Proof. unfold responses_at. by rewrite List.filter_app, length_app. Qed.

Lemma applies_at_app j tr1 tr2 :
  applies_at j (tr1 ++ tr2) = applies_at j tr1 + applies_at j tr2.
Proof. unfold applies_at. by rewrite List.filter_app, length_app. Qed.

Lemma responses_at_pos i tr : 0 < responses_at i tr → responded i tr.
Proof.
  unfold responses_at. induction tr as [|e tr IH]; simpl; [lia|].
  destruct (is_response i e) eqn:He.
  - intros _. exists e. split; [left | done].
  - intros (e' & Hin & He')%IH. exists e'. split; [by right | done].
Qed.

Lemma applies_at_pos j tr :
  0 < applies_at j tr → ∃ t1 t2, tr = t1 ++ SessionApply j :: t2.
Proof.
  unfold applies_at. induction tr as [|e tr IH]; simpl; [lia|].
  destruct (is_apply j e) eqn:He.
  - intros _. destruct e as [| i | | |]; try done.
    apply Nat.eqb_eq in He as ->. by exists [], tr.
  - intros (t1 & t2 & ->)%IH. by exists (e :: t1), t2.
Qed.

Lemma count_idx_app i ops1 ops2 :
  count_idx i (ops1 ++ ops2) = count_idx i ops1 + count_idx i ops2.
Proof. unfold count_idx. by rewrite List.filter_app, length_app. Qed.

Lemma no_backend_call_applies j tr :
  Forall (λ e, is_backend_call e = false) tr → applies_at j tr = 0.
Proof.
  unfold applies_at. induction 1 as [|e tr He _ IH]; [done|].
  simpl. by destruct e.
Qed.

Lemma done_events_responses status ops i :
  responses_at i (done_events status ops) = count_idx i ops.
Proof.
  unfold responses_at, count_idx, done_events.
  destruct (ok status); induction ops as [|op ops IH]; simpl; try done.
  all: destruct (index op =? i); simpl; by rewrite IH.
Qed.

Lemma done_events_applies status ops j : applies_at j (done_events status ops) = 0.
Proof.
  unfold applies_at, done_events.
  destruct (ok status); induction ops as [|op ops IH]; simpl; done.
Qed.

Lemma launch_events_responses session_apply ops i :
  responses_at i (launch_events session_apply ops) = count_rej session_apply i ops.
Proof.
  unfold responses_at, count_rej, launch_events.
  induction ops as [|op ops IH]; [done|]. simpl.
  destruct (ok (session_apply (index op))); simpl.
  - by rewrite andb_false_r.
  - rewrite andb_true_r. destruct (index op =? i); simpl; by rewrite IH.
Qed.

Lemma launch_events_applies session_apply ops j :
  applies_at j (launch_events session_apply ops) = count_idx j ops.
Proof.
  unfold applies_at, count_idx, launch_events.
  induction ops as [|op ops IH]; [done|]. simpl.
  destruct (ok (session_apply (index op))); simpl.
  all: destruct (index op =? j); simpl; by rewrite IH.
Qed.

Lemma count_rej_all session_apply ops i :
  has_ok session_apply ops = false → count_rej session_apply i ops = count_idx i ops.
Proof.
  intros Hno%has_ok_false. unfold count_rej, count_idx.
  induction Hno as [|op ops Hop _ IH]; [done|]. simpl.
  rewrite Hop. simpl. rewrite andb_true_r. destruct (index op =? i); simpl; by rewrite IH.
Qed.

Lemma count_idx_none i ops :
  (∀ op, op ∈ ops → index op ≠ i) → count_idx i ops = 0.
Proof.
  unfold count_idx. induction ops as [|op ops IH]; intros H; [done|]. simpl.
  destruct (Nat.eqb_spec (index op) i) as [Heq | _].
  - exfalso. by apply (H op); [left|].
  - apply IH. intros op' Hin. apply H. by right.
Qed.

Lemma count_rej_le session_apply i ops : count_rej session_apply i ops ≤ count_idx i ops.
Proof.
  unfold count_rej, count_idx. induction ops as [|op ops IH]; [done|]. simpl.
  destruct (index op =? i), (ok (session_apply (index op))); simpl; lia.
Qed.

Lemma increasing_cons op ops :
  increasing (op :: ops) →
  increasing ops ∧ ∀ op', op' ∈ ops → index op < index op'.
Proof.
  intros H. split.
  - intros n1 n2 op1 op2 H1 H2 Hlt. apply (H (S n1) (S n2)); [done | done | lia].
  - intros op' [n Hn]%list_elem_of_lookup. apply (H 0 (S n)); [done | done | lia].
Qed.

Lemma count_idx_one ops op :
  increasing ops → op ∈ ops → count_idx (index op) ops = 1.
Proof.
  induction ops as [|a ops IH]; intros Hinc Hin; [by apply elem_of_nil in Hin|].
  apply increasing_cons in Hinc as [Hinc Hlt].
  change (count_idx (index op) (a :: ops))
    with (count_idx (index op) ([a] ++ ops)).
  rewrite count_idx_app. unfold count_idx at 1. simpl.
  apply elem_of_cons in Hin as [-> | Hin].
  - rewrite Nat.eqb_refl. simpl. rewrite count_idx_none; [done|].
    intros op' Hin'. specialize (Hlt _ Hin'). lia.
  - destruct (Nat.eqb_spec (index a) (index op)) as [Heq | _].
    + specialize (Hlt _ Hin). lia.
    + simpl. by apply IH.
Qed.

Lemma count_rej_app session_apply i ops1 ops2 :
  count_rej session_apply i (ops1 ++ ops2) =
  count_rej session_apply i ops1 + count_rej session_apply i ops2.
Proof. unfold count_rej. by rewrite List.filter_app, length_app. Qed.

Lemma count_rej_one session_apply ops op :
  increasing ops → op ∈ ops →
  count_rej session_apply (index op) ops =
  if ok (session_apply (index op)) then 0 else 1.
Proof.
  induction ops as [|a ops IH]; intros Hinc Hin; [by apply elem_of_nil in Hin|].
  apply increasing_cons in Hinc as [Hinc Hlt].
  change (count_rej session_apply (index op) (a :: ops))
    with (count_rej session_apply (index op) ([a] ++ ops)).
  rewrite count_rej_app. unfold count_rej at 1. simpl.
  apply elem_of_cons in Hin as [-> | Hin].
  - rewrite Nat.eqb_refl. simpl.
    assert (count_rej session_apply (index a) ops = 0) as ->.
    { pose proof (count_rej_le session_apply (index a) ops) as Hle.
      rewrite count_idx_none in Hle; [lia|].
      intros op' Hin'. specialize (Hlt _ Hin'). lia. }
    by destruct (ok (session_apply (index a))).
  - destruct (Nat.eqb_spec (index a) (index op)) as [Heq | _].
    + specialize (Hlt _ Hin). lia.
    + simpl. by apply IH.
Qed.

Lemma sum_list_with_zero (f : nat → nat) l :
  (∀ q, q ∈ l → f q = 0) → sum_list_with f l = 0.
Proof.
  induction l as [|x l IH]; intros H; [done|]. simpl.
  rewrite (H x) by left. apply IH. intros q Hq. apply H. by right.
Qed.

Lemma sum_list_with_single (f : nat → nat) l p :
  NoDup l → p ∈ l → (∀ q, q ∈ l → q ≠ p → f q = 0) → sum_list_with f l = f p.
Proof.
  intros Hnd Hin Hz. induction Hnd as [|x l Hx Hnd IH]; [by apply elem_of_nil in Hin|].
  simpl. destruct (decide (x = p)) as [-> | Hne].
  - rewrite sum_list_with_zero; [lia|]. intros q Hq. apply Hz; [by right|].
    intros ->. done.
  - rewrite (Hz x) by (done || left). apply IH.
    + apply elem_of_cons in Hin as [-> | Hin]; done.
    + intros q Hq. apply Hz. by right.
Qed.

(** ** Launches and completions, Block by Block *)

Section Running.

Variable session_apply : nat → Status.
Variable flush_status : nat → Status.
Variable h : list Block.
Hypothesis Hnonempty : ∀ p, p < length h → blk_ops h p ≠ [].

(** One level of [Launch]: the calls for the Block itself, then the flush or
    the launch of the successor. *)
Lemma Launch_unfold fuel n :
  n < length h →
  ∃ calls,
    (∀ i, responses_at i calls = launch_answers session_apply h i n) ∧
    (∀ j, applies_at j calls = block_applies h j n) ∧
    Launch session_apply (S fuel) h n =
    if has_ok session_apply (blk_ops h n) then Ret (calls ++ [FlushAsync n], [n])
    else match blk_next h n with
         | Some n' =>
             '(evs', fl) ← Launch session_apply fuel h n'; mret (calls ++ evs', fl)
         | None => Ret (calls, [])
         end.
Proof.
  intros Hlt. destruct (lookup_lt_is_Some_2 _ _ Hlt) as [b Hb].
  destruct (blk_lookup _ _ _ Hb) as [Hops Hnext].
  pose proof (Hnonempty _ Hlt) as Hne. rewrite Hops in Hne.
  unfold launch_answers, block_applies. rewrite Hops, Hnext.
  simpl. rewrite Hb. destruct (ops_ b) as [|front rest] eqn:Hob; [done|].
  rewrite <- Hob.
  exists (NewSession (read front) :: launch_events session_apply (ops_ b)).
  split; [|split].
  - intros i. by rewrite <- (launch_events_responses session_apply).
  - intros j. by rewrite <- (launch_events_applies session_apply).
  - destruct (has_ok session_apply (ops_ b)); [done|].
    by destruct (next_ b).
Qed.

(** Launching the first of a chain of Blocks: the Blocks none of whose
    operations is accepted are passed over, the first other one is flushed,
    and the responses and submissions made are those of the launch of each
    Block reached. *)
Lemma Launch_list l : ∀ n fuel,
  linked h (n :: l) → length (n :: l) ≤ fuel →
  ∃ skipped rest evs,
    Launch session_apply fuel h n = Ret (evs, take 1 rest) ∧
    n :: l = skipped ++ rest ∧
    (∀ q, q ∈ skipped → has_ok session_apply (blk_ops h q) = false) ∧
    (∀ q, q ∈ take 1 rest → has_ok session_apply (blk_ops h q) = true) ∧
    (∀ i, responses_at i evs =
          sum_list_with (launch_answers session_apply h i) (skipped ++ take 1 rest)) ∧
    (∀ j, applies_at j evs =
          sum_list_with (block_applies h j) (skipped ++ take 1 rest)).
Proof.
  induction l as [|n' l IH]; intros n fuel Hl Hlen.
  all: destruct fuel as [|fuel]; [simpl in Hlen; lia|].
  all: destruct (linked_head _ _ _ Hl) as [Hlt Hn].
  all: destruct (Launch_unfold fuel n Hlt) as (calls & Hr & Ha & ->).
  all: destruct (has_ok session_apply (blk_ops h n)) eqn:Hhas.
  - exists [], [n], (calls ++ [FlushAsync n]). split; [done|]. split; [done|].
    split; [by intros q ?%elem_of_nil|].
    split; [by intros q ->%list_elem_of_singleton|]. split.
    + intros i. rewrite responses_at_app, Hr. simpl. unfold responses_at. simpl. lia.
    + intros j. rewrite applies_at_app, Ha. simpl. unfold applies_at. simpl. lia.
  - rewrite Hn. simpl. exists [n], [], calls. split; [done|]. split; [done|].
    split; [by intros q ->%list_elem_of_singleton|].
    split; [by intros q ?%elem_of_nil|]. split.
    + intros i. rewrite Hr. simpl. lia.
    + intros j. rewrite Ha. simpl. lia.
  - exists [], (n :: n' :: l), (calls ++ [FlushAsync n]). split; [done|]. split; [done|].
    split; [by intros q ?%elem_of_nil|].
    split; [by intros q ->%list_elem_of_singleton|]. split.
    + intros i. rewrite responses_at_app, Hr. simpl. unfold responses_at. simpl. lia.
    + intros j. rewrite applies_at_app, Ha. simpl. unfold applies_at. simpl. lia.
  - rewrite Hn. simpl.
    destruct (IH n' fuel (linked_tail _ _ _ Hl)) as
      (skipped & rest & evs & -> & Heq & Hsk & Hfl & Hr' & Ha'); [simpl in *; lia|].
    cbn [mbind mret outcome_bind outcome_ret].
    exists (n :: skipped), rest, (calls ++ evs). split; [done|].
    split; [simpl; by rewrite Heq|].
    split. { intros q [-> | Hq]%elem_of_cons; [done | by apply Hsk]. }
    split; [done|]. split.
    + intros i. rewrite responses_at_app, Hr, Hr'. done.
    + intros j. rewrite applies_at_app, Ha, Ha'. done.
Qed.

(** The completion of a Block in flight: its operations are answered, then
    the chain behind it is launched. *)
Lemma Done_list p pend fuel status :
  linked h (p :: pend) → length pend ≤ fuel →
  ∃ skipped rest evs,
    Done session_apply fuel h p status = Ret (evs, take 1 rest) ∧
    pend = skipped ++ rest ∧
    (∀ q, q ∈ skipped → has_ok session_apply (blk_ops h q) = false) ∧
    (∀ q, q ∈ take 1 rest → has_ok session_apply (blk_ops h q) = true) ∧
    (∀ i, responses_at i evs =
          count_idx i (blk_ops h p) +
          sum_list_with (launch_answers session_apply h i) (skipped ++ take 1 rest)) ∧
    (∀ j, applies_at j evs =
          sum_list_with (block_applies h j) (skipped ++ take 1 rest)).
Proof.
  intros Hl Hlen. destruct (linked_head _ _ _ Hl) as [Hlt Hn].
  destruct (lookup_lt_is_Some_2 _ _ Hlt) as [b Hb].
  destruct (blk_lookup _ _ _ Hb) as [Hops Hnext].
  unfold Done. rewrite Hb. rewrite Hnext in Hn. rewrite Hn, Hops.
  destruct pend as [|n l]; cbn [head].
  - exists [], [], (done_events status (ops_ b)). split; [done|]. split; [done|].
    split; [by intros q ?%elem_of_nil|]. split; [by intros q ?%elem_of_nil|]. split.
    + intros i. rewrite done_events_responses. simpl. lia.
    + intros j. by rewrite done_events_applies.
  - destruct (Launch_list l n fuel (linked_tail _ _ _ Hl) Hlen) as
      (skipped & rest & evs & -> & Heq & Hsk & Hfl & Hr & Ha).
    cbn [mbind mret outcome_bind outcome_ret].
    exists skipped, rest, (done_events status (ops_ b) ++ evs).
    split; [done|]. split; [done|]. split; [done|]. split; [done|]. split.
    + intros i. by rewrite responses_at_app, done_events_responses, Hr.
    + intros j. by rewrite applies_at_app, done_events_applies, Ha.
Qed.

Lemma sum_launch_skipped i skipped :
  (∀ q, q ∈ skipped → has_ok session_apply (blk_ops h q) = false) →
  sum_list_with (block_answers session_apply h i) skipped =
  sum_list_with (launch_answers session_apply h i) skipped.
Proof.
  induction skipped as [|q l IH]; intros H; [done|]. simpl.
  rewrite IH by (intros q' Hq'; apply H; by right).
  unfold block_answers, launch_answers. rewrite (H q) by left. lia.
Qed.

(** A completion returns and keeps the batch running; it leaves fewer
    Blocks to be completed. *)
Lemma Done_running tr0 fin pend l1 p l2 tr :
  running session_apply h tr0 fin pend {| inflight := l1 ++ p :: l2; trace := tr |} →
  ∃ evs fl fin' pend',
    Done session_apply (length h) h p (flush_status p) = Ret (evs, fl) ∧
    running session_apply h tr0 fin' pend'
      {| inflight := l1 ++ fl ++ l2; trace := tr ++ evs |} ∧
    length fl + length pend' ≤ length pend ∧
    (fl = [] ∨ l1 ++ l2 = []).
Proof.
  intros (Hperm & Hok & Hresp & Happ & Hstruct). cbn [inflight trace] in *.
  assert (Hp : p < length h).
  { assert (p ∈ seq 0 (length h)) as Hin%elem_of_seq; [|lia].
    rewrite <- Hperm. rewrite !elem_of_app, elem_of_cons. right. left. right. by left. }
  assert (Hlen : length pend ≤ length h).
  { apply Permutation_length in Hperm. rewrite !length_app, length_seq in Hperm. lia. }
  assert (Hpok : has_ok session_apply (blk_ops h p) = true).
  { apply Hok. rewrite elem_of_app, elem_of_cons. right. by left. }
  assert (Hbp : ∀ i, block_answers session_apply h i p =
                     launch_answers session_apply h i p + count_idx i (blk_ops h p)).
  { intros i. unfold block_answers, launch_answers. by rewrite Hpok. }
  destruct Hstruct as [[-> Hnone] | (p0 & Hfl & Hl)].
  - (* no Block pending *)
    assert (Hl : linked h [p]).
    { apply linked_single; [done|]. apply Hnone.
      rewrite elem_of_app, elem_of_cons. right. by left. }
    destruct (Done_list p [] (length h) (flush_status p) Hl Hlen) as
      (skipped & rest & evs & HD & Heq & _ & _ & Hr & Ha).
    symmetry in Heq. apply app_eq_nil in Heq as [-> ->]. simpl in *.
    exists evs, [], (fin ++ [p]), []. split; [done|]. split; [|split; [done | by left]].
    split; [|split; [|split; [|split]]]; cbn [inflight trace].
    + rewrite <- Hperm, !app_nil_r. simpl. rewrite <- app_assoc.
      apply Permutation_app_head. simpl. apply Permutation_middle.
    + intros q Hq. apply Hok. rewrite elem_of_app, elem_of_cons in *. tauto.
    + intros i. rewrite responses_at_app, Hresp, Hr.
      rewrite !sum_list_with_app. simpl. rewrite (Hbp i). lia.
    + intros j. rewrite applies_at_app, Happ, Ha.
      rewrite !sum_list_with_app. simpl. lia.
    + left. split; [done|]. intros q Hq. apply Hnone.
      rewrite elem_of_app, elem_of_cons in *. tauto.
  - (* one Block in flight, the rest of the chain behind it *)
    assert (l1 = [] ∧ l2 = [] ∧ p = p0) as (-> & -> & ->).
    { destruct l1 as [|x l1]; simpl in Hfl.
      - by injection Hfl as -> ->.
      - injection Hfl as -> Hfl. by destruct l1. }
    simpl in *. clear Hfl.
    destruct (Done_list p0 pend (length h) (flush_status p0) Hl Hlen) as
      (skipped & rest & evs & HD & -> & Hsk & Hrest & Hr & Ha).
    exists evs, (take 1 rest), (fin ++ [p0] ++ skipped), (drop 1 rest).
    split; [done|]. rewrite app_nil_r. split; [|split].
    + split; [|split; [|split; [|split]]]; cbn [inflight trace].
      * rewrite <- Hperm. rewrite <- !app_assoc. simpl.
        by rewrite take_drop.
      * done.
      * intros i. rewrite responses_at_app, Hresp, Hr.
        rewrite !sum_list_with_app. simpl.
        rewrite (sum_launch_skipped i skipped Hsk), (Hbp i). lia.
      * intros j. rewrite applies_at_app, Happ, Ha.
        rewrite !sum_list_with_app. simpl. lia.
      * destruct rest as [|p' rest];
          [left; split; [done | by intros q ?%elem_of_nil] |].
        right. exists p'. split; [done|]. simpl. rewrite drop_0.
        apply (linked_suffix h (p0 :: skipped)). exact Hl.
    + rewrite length_app. rewrite <- (take_drop 1 rest) at 3.
      rewrite length_app. lia.
    + by right.
Qed.

Lemma step_running tr0 fin pend e e' :
  running session_apply h tr0 fin pend e →
  step session_apply flush_status h e e' →
  ∃ fin' pend',
    running session_apply h tr0 fin' pend' e' ∧
    length (inflight e') + length pend' < length (inflight e) + length pend.
Proof.
  intros Hrun Hstep. destruct Hstep as [l1 p l2 tr evs fl HD].
  destruct (Done_running _ _ _ _ _ _ _ Hrun) as
    (evs' & fl' & fin' & pend' & HD' & Hrun' & Hlen & _).
  rewrite HD in HD'. injection HD' as <- <-.
  exists fin', pend'. split; [done|]. simpl. rewrite !length_app. simpl. lia.
Qed.

Lemma rtc_running tr0 e e' :
  rtc (step session_apply flush_status h) e e' →
  ∀ fin pend, running session_apply h tr0 fin pend e →
  ∃ fin' pend', running session_apply h tr0 fin' pend' e'.
Proof.
  induction 1 as [e | e1 e2 e3 Hstep _ IH]; intros fin pend Hrun.
  - by exists fin, pend.
  - destruct (step_running _ _ _ _ _ Hrun Hstep) as (fin' & pend' & Hrun' & _).
    by eapply IH.
Qed.

(** Completing the oldest flush first ends the batch within as many
    completions as Blocks are in flight or pending. *)
Lemma run_running tr0 n : ∀ e fin pend,
  running session_apply h tr0 fin pend e →
  length (inflight e) + length pend ≤ n →
  ∃ e', run session_apply flush_status n h e = Ret e' ∧ inflight e' = [] ∧
        rtc (step session_apply flush_status h) e e'.
Proof.
  induction n as [|n IH]; intros [infl tr] fin pend Hrun Hlen; simpl in Hlen.
  - destruct infl; [|simpl in Hlen; lia]. by eexists.
  - destruct infl as [|p rest]; [by eexists|].
    destruct (Done_running _ _ _ [] p rest _ Hrun) as
      (evs & fl & fin' & pend' & HD & Hrun' & Hlen' & Hone).
    simpl. rewrite HD. cbn [mbind outcome_bind].
    assert (rest ++ fl = fl ++ rest) as Heq.
    { destruct Hone as [-> | Hone]; [by rewrite app_nil_r|].
      simpl in Hone. subst rest. by rewrite app_nil_r. }
    rewrite Heq. simpl in Hrun'.
    destruct (IH _ fin' pend' Hrun') as (e' & He' & Hfl & Hrtc).
    { simpl in *. rewrite length_app. lia. }
    exists e'. split; [done|]. split; [done|].
    eapply rtc_l; [|done]. by apply (step_callback _ _ _ [] p rest tr evs fl).
Qed.

(** When nothing is in flight any more, the responses and the submissions
    made since [Commit] are those of every Block. *)
Lemma running_completed tr0 fin pend e :
  running session_apply h tr0 fin pend e → inflight e = [] →
  (∀ i, responses_at i (trace e) =
        responses_at i tr0 +
        sum_list_with (block_answers session_apply h i) (seq 0 (length h))) ∧
  (∀ j, applies_at j (trace e) =
        applies_at j tr0 + sum_list_with (block_applies h j) (seq 0 (length h))).
Proof.
  intros (Hperm & _ & Hresp & Happ & Hstruct) Hnil. rewrite Hnil in *.
  destruct Hstruct as [[-> _] | (p & Hp & _)]; [|done].
  simpl in Hperm. rewrite app_nil_r in Hperm. split.
  - intros i. rewrite Hresp. simpl. rewrite Hperm. lia.
  - intros j. rewrite Happ. by rewrite app_nil_r, Hperm.
Qed.

End Running.

(** ** Every Block is reached by [Commit] *)

Lemma Inv_placed ops c o :
  Inv ops c → o ∈ ops →
  ∃ p, p < length (heap c) ∧ to_op o ∈ blk_ops (heap c) p.
Proof.
  intros HI Ho. pose proof (inv_phase _ _ HI) as Hph.
  destruct (last_conflict_was_read_ c).
  1-2: destruct Hph as (r & pre & P & T & _ & _ & _ & _ & _ & Hl & Hpl & _);
       destruct (Hpl _ Ho) as (i & p & Hi & Hin);
       exists p; split; [by destruct (Hl _ _ Hi) | done].
  destruct Hph as (_ & _ & Hpl & _). destruct (Hpl _ Ho) as (p & Hb & Hin).
  exists p. split; [by apply (inv_valid _ _ HI _ _ Hb) | done].
Qed.

Lemma Inv_first_op ops c p :
  Inv ops c → p < length (heap c) →
  ∃ o, o ∈ ops ∧ to_op o ∈ blk_ops (heap c) p.
Proof.
  intros HI Hlt. pose proof (inv_nonempty _ _ HI _ Hlt) as Hne.
  destruct (blk_ops (heap c) p) as [|op l] eqn:E; [done|].
  destruct (inv_from _ _ HI p op) as (o & Ho & Heq); [rewrite E; left|].
  exists o. split; [done|]. rewrite Heq. left.
Qed.

Lemma chain_all_blocks ops c r pre P T :
  Inv ops c → ascending ops → chain_phase ops c r pre P T →
  pre ++ [P; T] ≡ₚ seq 0 (length (heap c)).
Proof.
  intros HI Ha (Hnd & _ & _ & _ & Hl & Hpl & _).
  apply NoDup_Permutation; [done | apply NoDup_seq |].
  intros x. rewrite elem_of_seq. split.
  - intros [i Hi]%list_elem_of_lookup. destruct (Hl _ _ Hi). lia.
  - intros [_ Hlt]. simpl in Hlt.
    destruct (Inv_first_op _ _ _ HI Hlt) as (o & Ho & Hin).
    destruct (Hpl _ Ho) as (i & p & Hi & Hin').
    rewrite (inv_once _ _ HI Ha x p _ _ Hin Hin' eq_refl).
    by eapply list_elem_of_lookup_2.
Qed.

Lemma parallel_all_blocks ops c :
  Inv ops c → ascending ops → last_conflict_was_read_ c = indeterminate →
  option_list (block (data true c)) ++ option_list (block (data false c))
  ≡ₚ seq 0 (length (heap c)).
Proof.
  intros HI Ha Hlc. pose proof (inv_phase _ _ HI) as Hph. rewrite Hlc in Hph.
  destruct Hph as (_ & _ & Hpl & _).
  apply NoDup_Permutation; [|apply NoDup_seq|].
  - destruct (block (data true c)) as [p|] eqn:Hp,
             (block (data false c)) as [q|] eqn:Hq; simpl;
      try (by repeat constructor); try apply NoDup_singleton.
    apply NoDup_cons. split; [|apply NoDup_singleton].
    intros ->%list_elem_of_singleton.
    destruct (Inv_first_op _ _ _ HI (inv_valid _ _ HI _ _ Hp)) as (o & _ & Hin).
    pose proof (inv_kind _ _ HI _ _ _ Hp Hin). pose proof (inv_kind _ _ HI _ _ _ Hq Hin).
    congruence.
  - intros x. rewrite elem_of_seq, elem_of_app. split.
    + intros [Hx | Hx].
      * destruct (block (data true c)) as [p|] eqn:Hp; [|by apply elem_of_nil in Hx].
        apply list_elem_of_singleton in Hx as ->.
        pose proof (inv_valid _ _ HI _ _ Hp). lia.
      * destruct (block (data false c)) as [p|] eqn:Hp; [|by apply elem_of_nil in Hx].
        apply list_elem_of_singleton in Hx as ->.
        pose proof (inv_valid _ _ HI _ _ Hp). lia.
    + intros [_ Hlt]. simpl in Hlt.
      destruct (Inv_first_op _ _ _ HI Hlt) as (o & Ho & Hin).
      destruct (Hpl _ Ho) as (p & Hb & Hin').
      rewrite (inv_once _ _ HI Ha x p _ _ Hin Hin' eq_refl).
      destruct (kind o); rewrite Hb; [left | right]; left.
Qed.

Section Committed.

Variable session_apply : nat → Status.

Lemma launch_opt_list (h : list Block) (po : option nat) :
  (∀ p, p < length h → blk_ops h p ≠ []) →
  (∀ p, po = Some p → p < length h ∧ blk_next h p = None) →
  ∃ skipped rest evs,
    launch_opt session_apply (length h) h po = Ret (evs, rest) ∧
    option_list po = skipped ++ rest ∧
    (∀ q, q ∈ skipped → has_ok session_apply (blk_ops h q) = false) ∧
    (∀ q, q ∈ rest → has_ok session_apply (blk_ops h q) = true) ∧
    (∀ i, responses_at i evs =
          sum_list_with (launch_answers session_apply h i) (skipped ++ rest)) ∧
    (∀ j, applies_at j evs = sum_list_with (block_applies h j) (skipped ++ rest)).
Proof.
  intros Hne Hpo. destruct po as [p|]; simpl.
  - destruct (Hpo p eq_refl) as [Hlt Hn].
    destruct (Launch_list session_apply h Hne [] p (length h)) as
      (skipped & rest & evs & HL & Heq & Hsk & Hfl & Hr & Ha).
    { by apply linked_single. }
    { simpl. lia. }
    assert (take 1 rest = rest) as Ht.
    { destruct skipped as [|x skipped]; simpl in Heq.
      - by rewrite <- Heq.
      - injection Heq as _ Heq. symmetry in Heq.
        by apply app_eq_nil in Heq as [_ ->]. }
    rewrite Ht in *. by exists skipped, rest, evs.
  - exists [], [], []. split; [done|]. split; [done|].
    split; [by intros q ?%elem_of_nil|]. split; [by intros q ?%elem_of_nil|]. done.
Qed.

(** [Commit] returns and leaves the batch running, every Block accounted
    for. *)
Lemma Commit_running ops c tr0 :
  Inv ops c → ascending ops →
  ∃ evs fl fin pend,
    Commit session_apply (length (heap c)) c = Ret (evs, fl) ∧
    running session_apply (heap c) tr0 fin pend
      {| inflight := fl; trace := tr0 ++ evs |}.
Proof.
  intros HI Ha. pose proof (inv_nonempty _ _ HI) as Hne.
  pose proof (inv_phase _ _ HI) as Hph.
  destruct (last_conflict_was_read_ c) eqn:Hlc.
  1-2: destruct Hph as (r & pre & P & T & _ & Hch);
       pose proof (chain_all_blocks _ _ _ _ _ _ HI Ha Hch) as Hperm;
       destruct Hch as (Hnd & Hhead & _ & _ & Hl & _);
       pose proof (linked_length _ _ Hnd Hl) as Hlen;
       destruct (pre ++ [P; T]) as [|p0 l] eqn:Hchain; [by destruct pre|];
       simpl in Hhead;
       destruct (Launch_list session_apply _ Hne l p0 (length (heap c)) Hl Hlen) as
         (skipped & rest & evs & HL & Heq & Hsk & Hfl & Hr & Ha');
       exists evs, (take 1 rest), skipped, (drop 1 rest);
       (split; [unfold Commit; by rewrite Hhead|]);
       (split; [|split; [|split; [|split]]]); cbn [inflight trace];
       [ by rewrite take_drop, <- Heq
       | done
       | intros i; rewrite responses_at_app, Hr, sum_list_with_app,
           (sum_launch_skipped session_apply _ i skipped Hsk); lia
       | intros j; by rewrite applies_at_app, Ha'
       | destruct rest as [|p' rest];
           [ left; split; [done | by intros q ?%elem_of_nil]
           | right; exists p'; split; [done|]; simpl; rewrite drop_0;
             apply (linked_suffix _ skipped); by rewrite <- Heq ] ].
  pose proof (parallel_all_blocks _ _ HI Ha Hlc) as Hperm.
  destruct Hph as (Hhead & Hnone & _).
  destruct (launch_opt_list (heap c) (block (data true c)) Hne) as
    (sk1 & r1 & e1 & HL1 & Heq1 & Hsk1 & Hfl1 & Hr1 & Ha1).
  { intros p Hp. split; [by apply (inv_valid _ _ HI _ _ Hp) | done]. }
  destruct (launch_opt_list (heap c) (block (data false c)) Hne) as
    (sk2 & r2 & e2 & HL2 & Heq2 & Hsk2 & Hfl2 & Hr2 & Ha2).
  { intros p Hp. split; [by apply (inv_valid _ _ HI _ _ Hp) | done]. }
  simpl in HL1, HL2.
  exists (e1 ++ e2), (r1 ++ r2), (sk1 ++ sk2), [].
  split; [unfold Commit; by rewrite Hhead, HL1, HL2|].
  rewrite Heq1, Heq2 in Hperm.
  split; [|split; [|split; [|split]]]; cbn [inflight trace].
  - rewrite <- Hperm, app_nil_r, <- !app_assoc. apply Permutation_app_head.
    apply Permutation_app_swap_app.
  - intros q [Hq | Hq]%elem_of_app; [by apply Hfl1 | by apply Hfl2].
  - intros i. rewrite !responses_at_app, Hr1, Hr2, !sum_list_with_app.
    rewrite (sum_launch_skipped session_apply _ i sk1 Hsk1).
    rewrite (sum_launch_skipped session_apply _ i sk2 Hsk2). lia.
  - intros j. rewrite !applies_at_app, Ha1, Ha2, !sum_list_with_app. lia.
  - left. split; [done|]. intros q _. apply Hnone.
Qed.

(** What the Blocks, taken together, make of one batch index. *)
Lemma block_sums_scheduled ops c o :
  Inv ops c → Tidy ops (heap c) → ascending ops → o ∈ ops →
  ∃ p, to_op o ∈ blk_ops (heap c) p ∧
    sum_list_with (block_answers session_apply (heap c) (idx o))
                  (seq 0 (length (heap c))) =
    (if ok (session_apply (idx o)) || negb (has_ok session_apply (blk_ops (heap c) p))
     then 1 else 2) ∧
    sum_list_with (block_applies (heap c) (idx o)) (seq 0 (length (heap c))) = 1.
Proof.
  intros HI HT Ha Ho. destruct (Inv_placed _ _ _ HI Ho) as (p & Hlt & Hin).
  exists p. split; [done|].
  assert (Hother : ∀ q, q ≠ p → count_idx (idx o) (blk_ops (heap c) q) = 0).
  { intros q Hq. apply count_idx_none. intros op Hop Hidx. apply Hq.
    apply (inv_once _ _ HI Ha q p op (to_op o)); done. }
  pose proof (tidy_order _ _ HT Ha p) as Hinc.
  pose proof (count_idx_one _ _ Hinc Hin) as Hone.
  pose proof (count_rej_one session_apply _ _ Hinc Hin) as Hrej.
  cbn [to_op index] in Hone, Hrej. split.
  - rewrite (sum_list_with_single _ _ p).
    + unfold block_answers. rewrite Hone, Hrej.
      destruct (ok (session_apply (idx o))) eqn:Hok; simpl.
      * assert (has_ok session_apply (blk_ops (heap c) p) = true) as ->; [|done].
        apply has_ok_true, Exists_exists. exists (to_op o).
        by split.
      * by destruct (has_ok session_apply (blk_ops (heap c) p)).
    + apply NoDup_seq.
    + apply elem_of_seq. lia.
    + intros q _ Hq. unfold block_answers.
      pose proof (count_rej_le session_apply (idx o) (blk_ops (heap c) q)) as Hle.
      rewrite (Hother q Hq) in *. destruct (has_ok _ _); lia.
  - rewrite (sum_list_with_single _ _ p); [done | apply NoDup_seq | |].
    + apply elem_of_seq. lia.
    + intros q _ Hq. by apply Hother.
Qed.

Lemma block_sums_unscheduled ops c i :
  Inv ops c → (∀ o, o ∈ ops → idx o ≠ i) →
  sum_list_with (block_answers session_apply (heap c) i) (seq 0 (length (heap c))) = 0 ∧
  sum_list_with (block_applies (heap c) i) (seq 0 (length (heap c))) = 0.
Proof.
  intros HI Hno.
  assert (Hz : ∀ q, count_idx i (blk_ops (heap c) q) = 0).
  { intros q. apply count_idx_none. intros op Hop Hidx.
    destruct (inv_from _ _ HI _ _ Hop) as (o & Ho & <-). by apply (Hno o). }
  split; apply sum_list_with_zero; intros q _.
  - unfold block_answers.
    pose proof (count_rej_le session_apply i (blk_ops (heap c) q)) as Hle.
    rewrite Hz in *. destruct (has_ok _ _); lia.
  - apply Hz.
Qed.

End Committed.

(** ** The responses of the loop of [Handle] *)

Section Answered.

Variable parser : string → RedisClientCommand → Status.
Variable GetBinary : string → RedisClientCommand → Status * string.
Variable safe : bool.

Lemma handle_command_answered_once i c context :
  sched_op parser GetBinary safe i c = None → c ≠ [] →
  ∃ e, handle_command parser GetBinary safe i c context = Ret (context, [e]) ∧
       ∀ k, is_response k e = Nat.eqb i k.
Proof.
  intros Hs Hne. destruct c as [|cmd rest]; [done|].
  unfold sched_op in Hs. unfold handle_command.
  destruct (dispatch (cmd :: rest)) as [| | |info] eqn:Hd.
  1-3: eexists; split; [reflexivity | done].
  unfold Command. destruct (functor info) eqn:Hfun; simpl in Hs.
  1-2: destruct (parse_keys _ _ _ _ _) as [[|message] keys]; [done|];
       eexists; split; [reflexivity | done].
  pose proof (dispatch_Invoke _ _ Hd) as Hf.
  pose proof (in_table_echo _ (FetchHandler_in_table _ _ Hf) Hfun) as Ha.
  destruct (dispatch_Invoke_size _ _ Hd) as [Hsz _].
  specialize (Hsz ltac:(lia)). unfold size in Hsz. simpl in Hsz.
  destruct rest as [|arg rest]; [simpl in Hsz; lia|].
  eexists; split; [reflexivity | done].
Qed.

(** The loop answers, once, the commands it does not hand to the scheduler,
    and no other index. *)
Lemma handle_loop_responses batch : ∀ i0 context context' evs,
  Forall (λ c, c ≠ []) batch →
  handle_loop parser GetBinary safe i0 batch context = Ret (context', evs) →
  ∀ i, responses_at i evs =
       if decide (i0 ≤ i) then
         match batch !! (i - i0) with
         | Some c => match sched_op parser GetBinary safe i c with
                     | Some _ => 0
                     | None => 1
                     end
         | None => 0
         end
       else 0.
Proof.
  induction batch as [|c batch IH]; intros i0 context context' evs Hne Hloop i.
  { simpl in Hloop. injection Hloop as _ <-. by case_decide. }
  apply Forall_cons in Hne as [Hc Hne]. cbn [handle_loop] in Hloop.
  assert (∃ c1 evs1, handle_command parser GetBinary safe i0 c context = Ret (c1, evs1) ∧
            responses_at i evs1 =
            if decide (i0 = i) then
              match sched_op parser GetBinary safe i c with Some _ => 0 | None => 1 end
            else 0) as (c1 & evs1 & Hh & Hr1).
  { destruct (sched_op parser GetBinary safe i0 c) as [o|] eqn:Hs.
    - rewrite (handle_command_scheduled _ _ _ _ _ _ context Hs) in Hloop |- *.
      destruct (Apply (idx o) (kind o) (keys_of o) context) as [c1|]; [|done].
      exists c1, []. split; [done|]. case_decide; [subst; by rewrite Hs | done].
    - destruct (handle_command_answered_once i0 c context Hs Hc) as (e & Hh & He).
      exists context, [e]. split; [done|]. unfold responses_at. simpl. rewrite He.
      case_decide as Hi.
      + subst. by rewrite Nat.eqb_refl, Hs.
      + by apply Nat.eqb_neq in Hi as ->. }
  rewrite Hh in Hloop. cbn [mbind outcome_bind] in Hloop.
  destruct (handle_loop parser GetBinary safe (S i0) batch c1)
    as [[c2 evs2]|] eqn:HL; [|done].
  cbn [mbind mret outcome_bind outcome_ret] in Hloop. injection Hloop as _ <-.
  rewrite responses_at_app, Hr1, (IH _ _ _ _ Hne HL i).
  destruct (decide (i0 = i)) as [-> | Hi].
  - rewrite Nat.sub_diag, decide_False, decide_True by lia. simpl. lia.
  - destruct (decide (i0 ≤ i)) as [Hle | Hgt].
    + rewrite decide_True by lia.
      replace (i - i0) with (S (i - S i0)) by lia. done.
    + by rewrite decide_False by lia.
Qed.

End Answered.

(** ** A batch from [Handle] to its last completion *)

Section Life.

Variable parser : string → RedisClientCommand → Status.
Variable GetBinary : string → RedisClientCommand → Status * string.
Variable safe : bool.
Variable session_apply : nat → Status.
Variable flush_status : nat → Status.

(** [Handle] returns and leaves the batch running: the responses so far are
    those of the loop and of the Blocks launched, every Block of the
    scheduler is accounted for. *)
Lemma Handle_running text (batch : list RedisClientCommand) :
  Forall (λ c, c ≠ []) batch →
  ∃ context evs0 evs fl fin pend,
    Handle parser GetBinary safe session_apply OK text batch =
      Ret (context, {| inflight := fl; trace := evs0 ++ evs |}) ∧
    handle_loop parser GetBinary safe 0 batch BatchContext_init = Ret (context, evs0) ∧
    Inv (sched_ops parser GetBinary safe 0 batch) context ∧
    Tidy (sched_ops parser GetBinary safe 0 batch) (heap context) ∧
    Forall (λ e, is_backend_call e = false) evs0 ∧
    running session_apply (heap context) evs0 fin pend
      {| inflight := fl; trace := evs0 ++ evs |} ∧
    Commit session_apply (length (heap context)) context = Ret (evs, fl).
Proof.
  intros Hne.
  destruct (handle_loop_Inv parser GetBinary safe batch 0 [] BatchContext_init
              Hne Inv_init) as (context & evs0 & Hloop & HI & Hevs).
  simpl in HI.
  destruct (run_ops_Tidy (sched_ops parser GetBinary safe 0 batch))
    as (c & Hrun & _ & HT & _).
  pose proof (handle_loop_run_ops _ _ _ _ _ _ _ _ Hloop) as Hrun'.
  fold (run_ops (sched_ops parser GetBinary safe 0 batch)) in Hrun'.
  rewrite Hrun in Hrun'. injection Hrun' as ->.
  destruct (Commit_running session_apply _ _ evs0 HI (sched_ops_ascending _ _ _ _ _))
    as (evs & fl & fin & pend & HC & Hrunning).
  exists context, evs0, evs, fl, fin, pend.
  split; [|done]. unfold Handle. cbn [ok]. rewrite Hloop.
  cbn [mbind outcome_bind]. by rewrite HC.
Qed.

Lemma loop_responses (batch : list RedisClientCommand) context evs0 :
  Forall (λ c, c ≠ []) batch →
  handle_loop parser GetBinary safe 0 batch BatchContext_init = Ret (context, evs0) →
  ∀ i, responses_at i evs0 =
       match batch !! i with
       | Some ci => match sched_op parser GetBinary safe i ci with
                    | Some _ => 0
                    | None => 1
                    end
       | None => 0
       end.
Proof.
  intros Hne Hloop i. rewrite (handle_loop_responses _ _ _ _ _ _ _ _ Hne Hloop i).
  by rewrite decide_True, Nat.sub_0_r by lia.
Qed.

Lemma scheduled_elem batch i ci oi :
  batch !! i = Some ci → sched_op parser GetBinary safe i ci = Some oi →
  oi ∈ sched_ops parser GetBinary safe 0 batch ∧ idx oi = i.
Proof.
  intros Hi Hs. split; [|by eapply sched_op_idx].
  by apply (sched_ops_elem _ _ _ batch 0 i ci).
Qed.

Lemma unscheduled_elem batch i :
  match batch !! i with
  | Some ci => sched_op parser GetBinary safe i ci = None
  | None => True
  end →
  ∀ o, o ∈ sched_ops parser GetBinary safe 0 batch → idx o ≠ i.
Proof.
  intros Hi o [n Hn]%list_elem_of_lookup Heq.
  destruct (sched_ops_lookup _ _ _ _ _ _ _ Hn) as (_ & c & Hc & Hs).
  rewrite Nat.sub_0_r, Heq in Hc. rewrite Hc in Hi. rewrite Heq in Hs. congruence.
Qed.

(** X7. Take a batch whose commands all have a first token. [Handle]
    returns, and whatever the session's verdicts, the statuses of the
    flushes and the order of the completions, once nothing is in flight any
    more the trace holds: no response for an index outside the batch; one
    response for a command that the dispatcher answered itself; and for a
    command that reached the scheduler one response, or two when the session
    turned its operation down while accepting another operation of the same
    Block, never more. *)
Theorem responses_once_or_twice text (batch : list RedisClientCommand) :
  Forall (λ c, c ≠ []) batch →
  ∃ context e0,
    Handle parser GetBinary safe session_apply OK text batch = Ret (context, e0) ∧
    ∀ e, rtc (step session_apply flush_status (heap context)) e0 e →
      inflight e = [] →
      ∀ i,
        match batch !! i with
        | None => responses_at i (trace e) = 0
        | Some ci =>
            match sched_op parser GetBinary safe i ci with
            | None => responses_at i (trace e) = 1
            | Some oi =>
                ∃ p, to_op oi ∈ blk_ops (heap context) p ∧
                  responses_at i (trace e) =
                  if ok (session_apply i) ||
                     negb (has_ok session_apply (blk_ops (heap context) p))
                  then 1 else 2
            end
        end.
Proof.
  intros Hne.
  destruct (Handle_running text batch Hne) as
    (context & evs0 & evs & fl & fin & pend & HH & Hloop & HI & HT & Hevs & Hrun & _).
  exists context, {| inflight := fl; trace := evs0 ++ evs |}. split; [done|].
  intros e Hrtc Hnil i.
  destruct (rtc_running _ _ _ (inv_nonempty _ _ HI) _ _ _ Hrtc _ _ Hrun)
    as (fin' & pend' & Hrun').
  destruct (running_completed _ _ _ _ _ _ Hrun' Hnil) as [Hresp _].
  pose proof (loop_responses _ _ _ Hne Hloop i) as Hr0. rewrite Hresp.
  destruct (batch !! i) as [ci|] eqn:Hi.
  - destruct (sched_op parser GetBinary safe i ci) as [oi|] eqn:Hs.
    + destruct (scheduled_elem _ _ _ _ Hi Hs) as [Hin Hidx].
      destruct (block_sums_scheduled session_apply _ _ _ HI HT
                  (sched_ops_ascending _ _ _ _ _) Hin) as (p & Hp & Hsum & _).
      rewrite Hidx in Hsum. exists p. split; [done|]. by rewrite Hr0, Hsum.
    + destruct (block_sums_unscheduled session_apply _ _ i HI) as [-> _]; [|lia].
      apply unscheduled_elem. by rewrite Hi.
  - destruct (block_sums_unscheduled session_apply _ _ i HI) as [-> _]; [|lia].
    apply unscheduled_elem. by rewrite Hi.
Qed.

(** X8. When the session accepts every operation, every index of the
    batch is answered exactly once by the time the last completion has run,
    whatever the statuses of the flushes and the order of the completions,
    and no other index is answered. *)
Theorem responses_exactly_once text (batch : list RedisClientCommand) :
  Forall (λ c, c ≠ []) batch →
  (∀ i, ok (session_apply i) = true) →
  ∃ context e0,
    Handle parser GetBinary safe session_apply OK text batch = Ret (context, e0) ∧
    ∀ e, rtc (step session_apply flush_status (heap context)) e0 e →
      inflight e = [] →
      ∀ i, responses_at i (trace e) = if decide (i < length batch) then 1 else 0.
Proof.
  intros Hne Hall.
  destruct (Handle_running text batch Hne) as
    (context & evs0 & evs & fl & fin & pend & HH & Hloop & HI & HT & Hevs & Hrun & _).
  exists context, {| inflight := fl; trace := evs0 ++ evs |}. split; [done|].
  intros e Hrtc Hnil i.
  destruct (rtc_running _ _ _ (inv_nonempty _ _ HI) _ _ _ Hrtc _ _ Hrun)
    as (fin' & pend' & Hrun').
  destruct (running_completed _ _ _ _ _ _ Hrun' Hnil) as [Hresp _].
  pose proof (loop_responses _ _ _ Hne Hloop i) as Hr0. rewrite Hresp.
  destruct (batch !! i) as [ci|] eqn:Hi.
  - rewrite decide_True by (by eapply lookup_lt_Some).
    destruct (sched_op parser GetBinary safe i ci) as [oi|] eqn:Hs.
    + destruct (scheduled_elem _ _ _ _ Hi Hs) as [Hin Hidx].
      destruct (block_sums_scheduled session_apply _ _ _ HI HT
                  (sched_ops_ascending _ _ _ _ _) Hin) as (p & Hp & Hsum & _).
      rewrite Hidx in Hsum. by rewrite Hr0, Hsum, Hall.
    + destruct (block_sums_unscheduled session_apply _ _ i HI) as [-> _]; [|lia].
      apply unscheduled_elem. by rewrite Hi.
  - rewrite decide_False by (apply lookup_ge_None in Hi; lia).
    destruct (block_sums_unscheduled session_apply _ _ i HI) as [-> _]; [|lia].
    apply unscheduled_elem. by rewrite Hi.
Qed.

(** X9. By the time the last completion has run, the operation of every
    command that reached the scheduler has been handed to a session exactly
    once, and no [session->Apply] call was made for any other index:
    commands answered by the dispatcher never reach the backend, and no
    Block is launched twice. *)
Theorem submitted_exactly_once text (batch : list RedisClientCommand) :
  Forall (λ c, c ≠ []) batch →
  ∃ context e0,
    Handle parser GetBinary safe session_apply OK text batch = Ret (context, e0) ∧
    ∀ e, rtc (step session_apply flush_status (heap context)) e0 e →
      inflight e = [] →
      ∀ j, applies_at j (trace e) =
           match batch !! j with
           | Some cj => match sched_op parser GetBinary safe j cj with
                        | Some _ => 1
                        | None => 0
                        end
           | None => 0
           end.
Proof.
  intros Hne.
  destruct (Handle_running text batch Hne) as
    (context & evs0 & evs & fl & fin & pend & HH & Hloop & HI & HT & Hevs & Hrun & _).
  exists context, {| inflight := fl; trace := evs0 ++ evs |}. split; [done|].
  intros e Hrtc Hnil j.
  destruct (rtc_running _ _ _ (inv_nonempty _ _ HI) _ _ _ Hrtc _ _ Hrun)
    as (fin' & pend' & Hrun').
  destruct (running_completed _ _ _ _ _ _ Hrun' Hnil) as [_ Happ].
  rewrite Happ, (no_backend_call_applies j evs0 Hevs).
  destruct (batch !! j) as [cj|] eqn:Hj.
  - destruct (sched_op parser GetBinary safe j cj) as [oj|] eqn:Hs.
    + destruct (scheduled_elem _ _ _ _ Hj Hs) as [Hin Hidx].
      destruct (block_sums_scheduled session_apply _ _ _ HI HT
                  (sched_ops_ascending _ _ _ _ _) Hin) as (p & _ & _ & Hsum).
      rewrite Hidx in Hsum. by rewrite Hsum.
    + destruct (block_sums_unscheduled session_apply _ _ j HI) as [_ ->]; [|done].
      apply unscheduled_elem. by rewrite Hj.
  - destruct (block_sums_unscheduled session_apply _ _ j HI) as [_ ->]; [|done].
    apply unscheduled_elem. by rewrite Hj.
Qed.

(** X10. Every batch comes to an end: completing the oldest flush first,
    at most as many completions as there are Blocks leave nothing in
    flight; and from every state that completions can reach, in whatever
    order, further completions lead to a state with nothing in flight. *)
Theorem batch_completes text (batch : list RedisClientCommand) :
  Forall (λ c, c ≠ []) batch →
  ∃ context e0,
    Handle parser GetBinary safe session_apply OK text batch = Ret (context, e0) ∧
    (∃ e, run session_apply flush_status (length (heap context)) (heap context) e0
          = Ret e ∧ inflight e = []) ∧
    ∀ e, rtc (step session_apply flush_status (heap context)) e0 e →
      ∃ e', rtc (step session_apply flush_status (heap context)) e e' ∧
            inflight e' = [].
Proof.
  intros Hne.
  destruct (Handle_running text batch Hne) as
    (context & evs0 & evs & fl & fin & pend & HH & Hloop & HI & HT & Hevs & Hrun & _).
  exists context, {| inflight := fl; trace := evs0 ++ evs |}. split; [done|].
  pose proof (inv_nonempty _ _ HI) as Hnonempty. split.
  - destruct (run_running session_apply flush_status _ Hnonempty evs0
                (length (heap context)) _ fin pend Hrun) as (e & He & Hnil & _).
    { destruct Hrun as (Hperm & _). apply Permutation_length in Hperm.
      rewrite !length_app, length_seq in Hperm. simpl in *. lia. }
    by exists e.
  - intros e Hrtc.
    destruct (rtc_running _ _ _ Hnonempty _ _ _ Hrtc _ _ Hrun) as (fin' & pend' & Hrun').
    destruct (run_running session_apply flush_status _ Hnonempty evs0
                (length (inflight e) + length pend') e fin' pend' Hrun')
      as (e' & _ & Hnil & Hrtc'); [done|].
    by exists e'.
Qed.

End Life.

Lemma responses_once_or_twice_witness :
  let batch := [["GET"; "a"]; ["GET"; "b"]; ["nope"]] in
  Forall (λ c : RedisClientCommand, c ≠ []) batch ∧
  ∃ context e0,
    Handle example_parser example_GetBinary true reject_first OK "" batch =
      Ret (context, e0) ∧
    ∀ e, rtc (step reject_first accept_all (heap context)) e0 e →
      inflight e = [] →
      responses_at 0 (trace e) = 2 ∧ responses_at 1 (trace e) = 1 ∧
      responses_at 2 (trace e) = 1 ∧ responses_at 3 (trace e) = 0.
Proof.
  intros batch.
  assert (Hne : Forall (λ c : RedisClientCommand, c ≠ []) batch)
    by (by repeat constructor).
  split; [exact Hne|].
  destruct (responses_once_or_twice example_parser example_GetBinary true
              reject_first accept_all "" batch Hne) as (context & e0 & HH & Hall).
  assert (Hc : Ret (context, e0) =
               Handle example_parser example_GetBinary true reject_first OK "" batch)
    by done.
  vm_compute in Hc. injection Hc as -> ->.
  eexists _, _. split; [vm_compute; reflexivity|].
  intros e Hrtc Hnil.
  assert (Hblk : ∀ p op,
    op ∈ blk_ops [ {| ops_ := [ {| index := 0; read := true |};
                                {| index := 1; read := true |} ];
                      next_ := None |} ] p → p = 0).
  { intros [|p] op Hin; [done|]. by apply elem_of_nil in Hin. }
  split; [|split; [|split]].
  - destruct (Hall e Hrtc Hnil 0) as (p & Hp & Hr).
    apply Hblk in Hp as ->. exact Hr.
  - destruct (Hall e Hrtc Hnil 1) as (p & Hp & Hr).
    apply Hblk in Hp as ->. exact Hr.
  - exact (Hall e Hrtc Hnil 2).
  - exact (Hall e Hrtc Hnil 3).
Defined.

Lemma responses_exactly_once_witness :
  let batch := [["SET"; "k"; "v"]; ["GET"; "k"]; ["nope"]] in
  Forall (λ c : RedisClientCommand, c ≠ []) batch ∧
  (∀ i, ok (accept_all i) = true) ∧
  ∃ context e0,
    Handle example_parser example_GetBinary true accept_all OK "" batch =
      Ret (context, e0) ∧
    ∀ e, rtc (step accept_all accept_all (heap context)) e0 e →
      inflight e = [] →
      responses_at 0 (trace e) = 1 ∧ responses_at 1 (trace e) = 1 ∧
      responses_at 2 (trace e) = 1.
Proof.
  intros batch.
  assert (Hne : Forall (λ c : RedisClientCommand, c ≠ []) batch)
    by (by repeat constructor).
  assert (Hall : ∀ i, ok (accept_all i) = true) by reflexivity.
  split; [exact Hne|]. split; [exact Hall|].
  destruct (responses_exactly_once example_parser example_GetBinary true
              accept_all accept_all "" batch Hne Hall) as (context & e0 & HH & Hone).
  exists context, e0. split; [exact HH|].
  intros e Hrtc Hnil. repeat split.
  - exact (Hone e Hrtc Hnil 0).
  - exact (Hone e Hrtc Hnil 1).
  - exact (Hone e Hrtc Hnil 2).
Defined.

Lemma submitted_exactly_once_witness :
  let batch := [["SET"; "k"; "v"]; ["GET"; "k"]; ["nope"]] in
  Forall (λ c : RedisClientCommand, c ≠ []) batch ∧
  ∃ context e0,
    Handle example_parser example_GetBinary true accept_all OK "" batch =
      Ret (context, e0) ∧
    ∀ e, rtc (step accept_all accept_all (heap context)) e0 e →
      inflight e = [] →
      applies_at 1 (trace e) = 1 ∧ applies_at 2 (trace e) = 0.
Proof.
  intros batch.
  assert (Hne : Forall (λ c : RedisClientCommand, c ≠ []) batch)
    by (by repeat constructor).
  split; [exact Hne|].
  destruct (submitted_exactly_once example_parser example_GetBinary true
              accept_all accept_all "" batch Hne) as (context & e0 & HH & Hone).
  exists context, e0. split; [exact HH|].
  intros e Hrtc Hnil. split.
  - exact (Hone e Hrtc Hnil 1).
  - exact (Hone e Hrtc Hnil 2).
Defined.

Lemma batch_completes_witness :
  let batch := [["SET"; "k"; "v"]; ["GET"; "k"]; ["nope"]] in
  Forall (λ c : RedisClientCommand, c ≠ []) batch ∧
  ∃ context e0 e,
    Handle example_parser example_GetBinary true accept_all OK "" batch =
      Ret (context, e0) ∧
    run accept_all accept_all (length (heap context)) (heap context) e0 = Ret e ∧
    inflight e = [].
Proof.
  intros batch.
  assert (Hne : Forall (λ c : RedisClientCommand, c ≠ []) batch)
    by (by repeat constructor).
  split; [exact Hne|].
  destruct (batch_completes example_parser example_GetBinary true
              accept_all accept_all "" batch Hne)
    as (context & e0 & HH & (e & He & Hnil) & _).
  by exists context, e0, e.
Defined.

(** ** Every index is answered when the client cannot be set up *)

Lemma responses_at_imap_failure (g : RedisClientCommand → Status)
    (l : list RedisClientCommand) : ∀ k i,
  responses_at i (imap (λ n c, RespondFailure (k + n) (g c)) l) =
  if decide (k ≤ i < k + length l) then 1 else 0.
Proof.
  induction l as [|c l IH]; intros k i.
  { simpl. case_decide; [lia | done]. }
  rewrite imap_cons.
  rewrite (imap_ext _ (λ n c, RespondFailure (S k + n) (g c)));
    [|intros n c' _; simpl; f_equal; lia].
  change (responses_at i (?x :: ?r)) with (responses_at i ([x] ++ r)).
  rewrite responses_at_app, IH. unfold responses_at. simpl.
  destruct (Nat.eqb_spec (k + 0) i); simpl; repeat case_decide; lia.
Qed.

(** X11. When the client cannot be set up, [Handle] answers every index of
    the batch once, in index order, with the failure
    "<first token>: Could not open .redis table. <status text>"; it leaves
    the scheduler empty, calls no backend and leaves nothing in flight, so
    no completion follows. *)
Theorem Handle_setup_failure parser GetBinary safe session_apply flush_status
    message text (batch : list RedisClientCommand) :
  Forall (λ c, c ≠ []) batch →
  ∃ e0,
    Handle parser GetBinary safe session_apply (Failed message) text batch =
      Ret (BatchContext_init, e0) ∧
    trace e0 = imap (λ i c, RespondFailure i
                 (failure_status (default "" (head c))
                    (String.append "Could not open .redis table. " text)))
                 batch ∧
    (∀ i, responses_at i (trace e0) = if decide (i < length batch) then 1 else 0) ∧
    Forall (λ e, is_backend_call e = false) (trace e0) ∧
    inflight e0 = [] ∧
    ∀ e, rtc (step session_apply flush_status []) e0 e → e = e0.
Proof.
  intros Hne. eexists. split; [by apply Handle_setup_failure_eq|].
  cbn [trace inflight]. split; [done|]. split; [|split; [|split; [done|]]].
  - intros i. rewrite (responses_at_imap_failure _ batch 0 i).
    repeat case_decide; try done; lia.
  - apply Forall_forall. intros e (n & c & -> & _)%elem_of_lookup_imap. done.
  - intros e Hrtc. apply rtc_inv in Hrtc as [<- | (e2 & Hstep & _)]; [done|].
    by apply step_inflight in Hstep.
Qed.

Lemma Handle_setup_failure_witness :
  let batch := [["GET"; "a"]; ["nope"]] in
  Forall (λ c : RedisClientCommand, c ≠ []) batch ∧
  ∃ e0,
    Handle example_parser example_GetBinary true accept_all (Failed "down") "down" batch =
      Ret (BatchContext_init, e0) ∧
    trace e0 =
      [RespondFailure 0 (failure_status "GET" "Could not open .redis table. down");
       RespondFailure 1 (failure_status "nope" "Could not open .redis table. down")].
Proof.
  intros batch.
  assert (Hne : Forall (λ c : RedisClientCommand, c ≠ []) batch)
    by (by repeat constructor).
  split; [exact Hne|].
  destruct (Handle_setup_failure example_parser example_GetBinary true accept_all
              accept_all "down" "down" batch Hne) as (e0 & HH & Htr & _).
  exists e0. split; [exact HH | exact Htr].
Defined.

(** ** Safe batching off *)

Lemma running_unchained session_apply h tr0 fin pend e :
  running session_apply h tr0 fin pend e →
  (∀ p, blk_next h p = None) →
  ∀ j, applies_at j (trace e) =
       applies_at j tr0 + sum_list_with (block_applies h j) (seq 0 (length h)).
Proof.
  intros (Hperm & _ & _ & Happ & Hstruct) Hnone j.
  assert (pend = []) as ->.
  { destruct Hstruct as [[-> _] | (p & _ & Hl)]; [done|].
    destruct (linked_head _ _ _ Hl) as [_ Hn]. rewrite Hnone in Hn.
    by destruct pend. }
  rewrite app_nil_r in Hperm. by rewrite Happ, Hperm.
Qed.

(** X12. With [FLAGS_redis_safe_batch] off, [Command] hands no key to the
    scheduler, so whatever the commands are no conflict is ever seen:
    [Handle] returns with no chain and at most two Blocks, none with a
    successor; the operations of all the reads that reached the scheduler
    sit in one Block in index order, and so do those of the writes; and
    every one of them has been handed to a session by the time [Handle]
    returns, before any flush has completed. *)
Theorem unsafe_batch_never_chains parser GetBinary session_apply text
    (batch : list RedisClientCommand) :
  Forall (λ c, c ≠ []) batch →
  ∃ context e0,
    Handle parser GetBinary false session_apply OK text batch = Ret (context, e0) ∧
    flush_head_ context = None ∧
    length (heap context) ≤ 2 ∧
    (∀ rd,
      match block (data rd context) with
      | Some p =>
          heap context !! p =
          Some {| ops_ := to_op <$> of_kind rd (sched_ops parser GetBinary false 0 batch);
                  next_ := None |}
      | None => of_kind rd (sched_ops parser GetBinary false 0 batch) = []
      end) ∧
    ∀ j cj oj,
      batch !! j = Some cj → sched_op parser GetBinary false j cj = Some oj →
      applies_at j (trace e0) = 1.
Proof.
  intros Hne.
  destruct (Handle_running parser GetBinary false session_apply text batch Hne) as
    (context & evs0 & evs & fl & fin & pend & HH & Hloop & HI & HT & Hevs & Hrunning & _).
  exists context, {| inflight := fl; trace := evs0 ++ evs |}. split; [done|].
  destruct (run_ops_Unchained (sched_ops parser GetBinary false 0 batch))
    as (c & Hrun & HI' & HU).
  { intros o1 o2 H1 _ [_ (k & Hk & _)].
    rewrite (sched_ops_unsafe _ _ _ _ _ H1) in Hk. by apply elem_of_nil in Hk. }
  apply handle_loop_run_ops in Hloop.
  fold (run_ops (sched_ops parser GetBinary false 0 batch)) in Hloop.
  rewrite Hrun in Hloop. injection Hloop as ->.
  pose proof (inv_phase _ _ HI) as Hph. rewrite (un_lcr _ _ HU) in Hph.
  destruct Hph as (Hh & Hnext & _).
  split; [done|]. split; [by eapply Unchained_two_blocks|]. split.
  - intros rd. destruct (block (data rd context)) as [p|] eqn:Hb.
    + pose proof (inv_valid _ _ HI _ _ Hb) as Hlt.
      destruct (lookup_lt_is_Some_2 _ _ Hlt) as [b Hp].
      destruct (blk_lookup _ _ _ Hp) as [Hops Hn].
      rewrite (un_block _ _ HU _ _ Hb) in Hops. rewrite Hnext in Hn.
      rewrite Hp. destruct b as [o n]. simpl in *. by subst.
    + by apply (un_none _ _ HU).
  - intros j cj oj Hj Hs.
    rewrite (running_unchained _ _ _ _ _ _ Hrunning Hnext j).
    rewrite (no_backend_call_applies j evs0 Hevs).
    destruct (scheduled_elem _ _ _ _ _ _ _ Hj Hs) as [Hin Hidx].
    destruct (block_sums_scheduled session_apply _ _ _ HI HT
                (sched_ops_ascending _ _ _ _ _) Hin) as (p & _ & _ & Hsum).
    rewrite Hidx in Hsum. by rewrite Hsum.
Qed.

Lemma unsafe_batch_never_chains_witness :
  let batch := [["SET"; "k"; "v"]; ["GET"; "k"]] in
  Forall (λ c : RedisClientCommand, c ≠ []) batch ∧
  ∃ context e0,
    Handle example_parser example_GetBinary false accept_all OK "" batch =
      Ret (context, e0) ∧
    flush_head_ context = None ∧ length (heap context) ≤ 2 ∧
    applies_at 0 (trace e0) = 1 ∧ applies_at 1 (trace e0) = 1.
Proof.
  intros batch.
  assert (Hne : Forall (λ c : RedisClientCommand, c ≠ []) batch)
    by (by repeat constructor).
  split; [exact Hne|].
  destruct (unsafe_batch_never_chains example_parser example_GetBinary accept_all
              "" batch Hne) as (context & e0 & HH & Hh & Hlen & _ & Happ).
  exists context, e0. split; [exact HH|]. split; [exact Hh|]. split; [exact Hlen|].
  split.
  - apply (Happ 0 ["SET"; "k"; "v"] (0, false, [])); reflexivity.
  - apply (Happ 1 ["GET"; "k"] (1, true, [])); reflexivity.
Defined.

(** ** The Blocks that [Commit] reaches *)

(** X13. After any sequence of [Apply] calls made in index order, [Commit]
    has every Block within reach, each once: when a conflict was seen, the
    Blocks form one chain without cycle from [flush_head_], each Block the
    successor of the one before it and the last without successor;
    otherwise the Blocks are the open Blocks of the two kinds. *)
Theorem commit_reaches_every_block (ops : list SchedOp) :
  ascending ops →
  ∃ c, run_ops ops = Ret c ∧
    match flush_head_ c with
    | Some p0 =>
        ∃ chain, head chain = Some p0 ∧ linked (heap c) chain ∧
                 chain ≡ₚ seq 0 (length (heap c))
    | None =>
        option_list (block (read_data_ c)) ++ option_list (block (write_data_ c))
        ≡ₚ seq 0 (length (heap c))
    end.
Proof.
  intros Ha. destruct (run_ops_Inv ops) as (c & Hrun & HI).
  exists c. split; [done|].
  pose proof (inv_phase _ _ HI) as Hph.
  pose proof (Inv_flush_head _ _ HI) as Hfh.
  destruct (last_conflict_was_read_ c) eqn:Hlc.
  1-2: destruct Hph as (r & pre & P & T & _ & Hch);
       pose proof (chain_all_blocks _ _ _ _ _ _ HI Ha Hch) as Hperm;
       destruct Hch as (_ & Hhead & _ & _ & Hl & _);
       destruct (flush_head_ c) as [p0|]; [|by destruct pre];
       by exists (pre ++ [P; T]).
  destruct Hfh as [_ ->]; [|done].
  by apply (parallel_all_blocks _ _ HI Ha).
Qed.

Lemma commit_reaches_every_block_witness :
  let ops := [(0, true, ["k"]); (1, false, ["k"]); (2, true, ["k"])] in
  ascending ops ∧
  ∃ c p0 chain, run_ops ops = Ret c ∧ flush_head_ c = Some p0 ∧
    head chain = Some p0 ∧ chain ≡ₚ seq 0 (length (heap c)).
Proof.
  intros ops.
  assert (Ha : ascending ops).
  { intros n1 n2 o1 o2 H1 H2 Hlt. subst ops.
    destruct n1 as [|[|[|n1]]], n2 as [|[|[|n2]]]; simpl in *; simplify_eq;
      unfold idx; simpl; lia. }
  split; [exact Ha|].
  destruct (commit_reaches_every_block ops Ha) as (c & Hrun & Hc).
  assert (Hv : Ret c = run_ops ops) by done.
  vm_compute in Hv. injection Hv as ->.
  destruct Hc as (chain & Hhead & _ & Hperm).
  eexists _, _, chain. split; [vm_compute; reflexivity|].
  split; [reflexivity|]. split; [exact Hhead | exact Hperm].
Defined.

(** ** When [Handle] returns *)

Lemma handle_command_empty parser GetBinary safe i context :
  handle_command parser GetBinary safe i [] context = Crash OutOfBounds.
Proof. reflexivity. Qed.

Lemma handle_loop_empty_command parser GetBinary safe batch : ∀ i ops context,
  Exists (λ c : RedisClientCommand, c = []) batch →
  Inv ops context →
  handle_loop parser GetBinary safe i batch context = Crash OutOfBounds.
Proof.
  induction batch as [|c batch IH]; intros i ops context Hex HI.
  { by apply Exists_nil in Hex. }
  cbn [handle_loop]. destruct c as [|cmd rest].
  { by rewrite handle_command_empty. }
  apply Exists_cons in Hex as [Hex | Hex]; [done|].
  destruct (sched_op parser GetBinary safe i (cmd :: rest)) as [o|] eqn:Hs.
  - rewrite (handle_command_scheduled _ _ _ _ _ _ context Hs).
    destruct (Apply_Inv _ _ o HI) as (c1 & -> & HI1).
    cbn [mbind mret outcome_bind outcome_ret].
    by rewrite (IH (S i) _ c1 Hex HI1).
  - destruct (handle_command_answered parser GetBinary safe i (cmd :: rest) context Hs)
      as (evs1 & -> & _); [done|].
    cbn [mbind mret outcome_bind outcome_ret].
    by rewrite (IH (S i) _ context Hex HI).
Qed.

Lemma fail_all_empty_command batch : ∀ i message,
  Exists (λ c : RedisClientCommand, c = []) batch →
  fail_all i batch message = Crash OutOfBounds.
Proof.
  induction batch as [|c batch IH]; intros i message Hex.
  { by apply Exists_nil in Hex. }
  simpl. destruct c as [|cmd rest]; [done|].
  apply Exists_cons in Hex as [Hex | Hex]; [done|].
  simpl. by rewrite (IH (S i) message Hex).
Qed.

(** X14. [Handle] returns exactly on the batches whose commands all have
    a first token, whether or not the client could be set up; on a batch
    with a command of no token it reads [command[0]] past the end of the
    token vector, and that is the only fault it can run into. *)
Theorem Handle_returns_iff parser GetBinary safe session_apply setup text
    (batch : list RedisClientCommand) :
  ((∃ r, Handle parser GetBinary safe session_apply setup text batch = Ret r) ↔
   Forall (λ c, c ≠ []) batch) ∧
  (Handle parser GetBinary safe session_apply setup text batch = Crash OutOfBounds ↔
   Exists (λ c, c = []) batch).
Proof.
  assert (Hdec : Forall (λ c : RedisClientCommand, c ≠ []) batch ∨
                 Exists (λ c : RedisClientCommand, c = []) batch).
  { induction batch as [|c batch IH]; [left; constructor|].
    destruct c as [|cmd rest]; [right; by left|].
    destruct IH as [IH | IH]; [left; by constructor | right; by right]. }
  assert (Hret : Forall (λ c : RedisClientCommand, c ≠ []) batch →
            ∃ r, Handle parser GetBinary safe session_apply setup text batch = Ret r).
  { intros Hne. destruct setup as [|message].
    - destruct (Handle_running parser GetBinary safe session_apply text batch Hne)
        as (context & evs0 & evs & fl & _ & _ & HH & _). by eexists.
    - rewrite Handle_setup_failure_eq by done. by eexists. }
  assert (Hcrash : Exists (λ c : RedisClientCommand, c = []) batch →
            Handle parser GetBinary safe session_apply setup text batch =
            Crash OutOfBounds).
  { intros Hex. unfold Handle. destruct (ok setup).
    - by rewrite (handle_loop_empty_command _ _ _ _ 0 [] _ Hex Inv_init).
    - by rewrite (fail_all_empty_command _ 0 _ Hex). }
  split; split; try done.
  - intros [r Hr]. destruct Hdec as [|Hex]; [done|].
    rewrite (Hcrash Hex) in Hr. done.
  - intros Hc. destruct Hdec as [Hne|]; [|done].
    destruct (Hret Hne) as [r Hr]. congruence.
Qed.

(** ** The responses of the handler thread come first *)

Lemma rtc_trace_extends session_apply flush_status h e e' :
  rtc (step session_apply flush_status h) e e' →
  ∃ more, trace e' = trace e ++ more.
Proof.
  induction 1 as [e | e1 e2 e3 Hstep _ (more & ->)].
  - exists []. by rewrite app_nil_r.
  - destruct Hstep as [l1 p l2 tr evs fl _]. simpl.
    exists (evs ++ more). by rewrite app_assoc.
Qed.

Lemma running_unscheduled session_apply h tr0 fin pend e i :
  running session_apply h tr0 fin pend e →
  (∀ q, count_idx i (blk_ops h q) = 0) →
  responses_at i (trace e) = responses_at i tr0.
Proof.
  intros (_ & _ & Hresp & _) Hz. rewrite Hresp.
  rewrite !sum_list_with_zero; [lia | |].
  - intros q _. unfold launch_answers.
    pose proof (count_rej_le session_apply i (blk_ops h q)). rewrite Hz in *. lia.
  - intros q _. unfold block_answers.
    pose proof (count_rej_le session_apply i (blk_ops h q)). rewrite Hz in *.
    destruct (has_ok _ _); lia.
Qed.

(** X15. A command that the dispatcher answers itself (unknown name, wrong
    number of tokens, parse failure, ECHO) gets its one response from the
    loop of [Handle], on the handler thread, before [Commit] makes the
    first backend call; whatever completions follow, no later call answers
    its index again. The commands handed to the scheduler get no response
    from the loop. *)
Theorem dispatcher_answers_first parser GetBinary safe session_apply flush_status
    text (batch : list RedisClientCommand) :
  Forall (λ c, c ≠ []) batch →
  ∃ context e0 evs0,
    Handle parser GetBinary safe session_apply OK text batch = Ret (context, e0) ∧
    handle_loop parser GetBinary safe 0 batch BatchContext_init = Ret (context, evs0) ∧
    Forall (λ e, is_backend_call e = false) evs0 ∧
    (∀ i ci oi, batch !! i = Some ci →
       sched_op parser GetBinary safe i ci = Some oi → responses_at i evs0 = 0) ∧
    ∀ e, rtc (step session_apply flush_status (heap context)) e0 e →
      ∃ rest, trace e = evs0 ++ rest ∧
        ∀ i ci, batch !! i = Some ci →
          sched_op parser GetBinary safe i ci = None →
          responses_at i evs0 = 1 ∧ responses_at i rest = 0.
Proof.
  intros Hne.
  destruct (Handle_running parser GetBinary safe session_apply text batch Hne) as
    (context & evs0 & evs & fl & fin & pend & HH & Hloop & HI & HT & Hevs & Hrun & _).
  exists context, {| inflight := fl; trace := evs0 ++ evs |}, evs0.
  split; [done|]. split; [done|]. split; [done|]. split.
  - intros i ci oi Hi Hs.
    rewrite (loop_responses _ _ _ _ _ _ Hne Hloop i), Hi, Hs. done.
  - intros e Hrtc.
    destruct (rtc_trace_extends _ _ _ _ _ Hrtc) as (more & Htr). simpl in Htr.
    exists (evs ++ more). split; [by rewrite Htr, app_assoc|].
    intros i ci Hi Hs.
    pose proof (loop_responses _ _ _ _ _ _ Hne Hloop i) as Hr0.
    rewrite Hi, Hs in Hr0. split; [done|].
    destruct (rtc_running _ _ _ (inv_nonempty _ _ HI) _ _ _ Hrtc _ _ Hrun)
      as (fin' & pend' & Hrun').
    assert (Heq : responses_at i (trace e) = responses_at i evs0).
    { apply (running_unscheduled _ _ _ _ _ _ i Hrun').
      intros q. apply count_idx_none. intros op Hop Hidx.
      destruct (inv_from _ _ HI _ _ Hop) as (o & Ho & <-).
      assert (Hun : match batch !! i with
                    | Some ci => sched_op parser GetBinary safe i ci = None
                    | None => True
                    end) by (by rewrite Hi).
      exact (unscheduled_elem parser GetBinary safe batch i Hun o Ho Hidx). }
    rewrite Htr, <- app_assoc, responses_at_app in Heq. lia.
Qed.

Lemma dispatcher_answers_first_witness :
  let batch := [["SET"; "k"; "v"]; ["nope"]; ["GET"; "k"]] in
  Forall (λ c : RedisClientCommand, c ≠ []) batch ∧
  ∃ context e0 evs0,
    Handle example_parser example_GetBinary true accept_all OK "" batch =
      Ret (context, e0) ∧
    Forall (λ e, is_backend_call e = false) evs0 ∧
    ∀ e, rtc (step accept_all accept_all (heap context)) e0 e →
      ∃ rest, trace e = evs0 ++ rest ∧
              responses_at 1 evs0 = 1 ∧ responses_at 1 rest = 0.
Proof.
  intros batch.
  assert (Hne : Forall (λ c : RedisClientCommand, c ≠ []) batch)
    by (by repeat constructor).
  split; [exact Hne|].
  destruct (dispatcher_answers_first example_parser example_GetBinary true
              accept_all accept_all "" batch Hne)
    as (context & e0 & evs0 & HH & _ & Hevs & _ & Hall).
  exists context, e0, evs0. split; [exact HH|]. split; [exact Hevs|].
  intros e Hrtc. destruct (Hall e Hrtc) as (rest & Htr & Hi).
  exists rest. split; [exact Htr|]. apply (Hi 1 ["nope"]); reflexivity.
Defined.

(** ** The client is set up once *)

Lemma SetUpYBClient_unset a :
  SetUpYBClient false a = (attempt_status a, ok (attempt_status a)).
Proof.
  unfold SetUpYBClient, attempt_status. simpl.
  destruct (build_status a); [|done]. by destruct (open_table_status a).
Qed.

Lemma serve_lookup parser GetBinary safe session_apply ToString calls :
  ∀ initialized n a batch,
  calls !! n = Some (a, batch) →
  serve parser GetBinary safe session_apply ToString initialized calls !! n =
  Some (if initialized ||
           existsb (λ c, ok (attempt_status c.1)) (take n calls)
        then Handle parser GetBinary safe session_apply OK "" batch
        else Handle parser GetBinary safe session_apply (attempt_status a)
                    (ToString (attempt_status a)) batch).
Proof.
  induction calls as [|[a0 b0] calls IH]; intros initialized n a batch Hn; [done|].
  cbn [serve]. unfold Handle_call. destruct initialized; cbn [negb].
  - destruct n as [|n]; simpl in Hn.
    + by injection Hn as <- <-.
    + simpl. by rewrite (IH true n a batch Hn).
  - rewrite SetUpYBClient_unset. destruct n as [|n]; simpl in Hn.
    + by injection Hn as <- <-.
    + cbn [lookup list_lookup take existsb fst orb].
      rewrite (IH _ n a batch Hn). done.
Qed.

(** X16. Calls being handled one after the other, a batch is refused as a
    whole ("Could not open .redis table.") exactly while no attempt to set
    the client up has succeeded, its own included: every call up to the
    first success makes a fresh attempt, and from the first success on every
    batch goes to the dispatcher without any attempt being looked at. *)
Theorem client_set_up_once parser GetBinary safe session_apply ToString
    (calls : list (Attempt * list RedisClientCommand)) n a batch :
  calls !! n = Some (a, batch) →
  serve parser GetBinary safe session_apply ToString false calls !! n =
  Some (if existsb (λ c, ok (attempt_status c.1)) (take (S n) calls)
        then Handle parser GetBinary safe session_apply OK "" batch
        else Handle parser GetBinary safe session_apply (attempt_status a)
                    (ToString (attempt_status a)) batch).
Proof.
  intros Hn. rewrite (serve_lookup _ _ _ _ _ calls false n a batch Hn).
  rewrite (take_S_r _ _ _ Hn), existsb_app. cbn [orb existsb fst].
  rewrite orb_false_r.
  destruct (existsb _ (take n calls)); [done|].
  cbn [orb]. destruct (ok (attempt_status a)) eqn:Hok; [|done].
  destruct (attempt_status a); [|done]. reflexivity.
Qed.

Lemma client_set_up_once_witness :
  let down := {| build_status := Failed "no master"; open_table_status := OK |} in
  let up := {| build_status := OK; open_table_status := OK |} in
  let calls := [(down, [["GET"; "a"]]); (up, [["ECHO"; "x"]]); (down, [["ECHO"; "y"]])] in
  calls !! 2 = Some (down, [["ECHO"; "y"]]) ∧
  serve example_parser example_GetBinary true accept_all (λ _, "down") false calls !! 2 =
  Some (Ret (BatchContext_init,
             {| inflight := []; trace := [RespondSuccess 0 (string_response "y")] |})).
Proof.
  intros down up calls.
  assert (Hn : calls !! 2 = Some (down, [["ECHO"; "y"]])) by reflexivity.
  split; [exact Hn|].
  rewrite (client_set_up_once example_parser example_GetBinary true accept_all
             (λ _, "down") calls 2 down [["ECHO"; "y"]] Hn).
  vm_compute. reflexivity.
Defined.

(** ** Conflicting commands run in the order of the batch *)

(** C3. Take a batch whose commands all have a first token, with safe
    batching on. [Handle] returns; from then on, whatever the order in which
    the backend completes the flushes, every completion returns and the
    batch can always be brought to its end. Of two commands at indices i < j
    that both reached the scheduler, one as a read and one as a write, with
    a key in common, the following holds at every moment: wherever the
    operation of j is handed to a session in the trace, a response for
    index i comes earlier in the trace. And when the client was set up and
    nothing is in flight any more, both operations have been handed to a
    session, each once, the submission of j is in the trace with a response
    for i before it, and j has been answered too. *)
Theorem C3_conflicting_commands_in_order parser GetBinary session_apply
    flush_status setup text (batch : list RedisClientCommand) :
  Forall (λ c, c ≠ []) batch →
  ∃ context e0,
    Handle parser GetBinary true session_apply setup text batch = Ret (context, e0) ∧
    ∀ e, rtc (step session_apply flush_status (heap context)) e0 e →
      (inflight e = [] ∨
       ∃ e', step session_apply flush_status (heap context) e e') ∧
      (∃ e', rtc (step session_apply flush_status (heap context)) e e' ∧
             inflight e' = []) ∧
      ∀ i j ci cj oi oj,
        i < j →
        batch !! i = Some ci → sched_op parser GetBinary true i ci = Some oi →
        batch !! j = Some cj → sched_op parser GetBinary true j cj = Some oj →
        conflicting oi oj →
        answers_first (trace e) i j ∧
        (ok setup = true → inflight e = [] →
         applies_at i (trace e) = 1 ∧ applies_at j (trace e) = 1 ∧
         responded j (trace e) ∧
         ∃ t1 t2, trace e = t1 ++ SessionApply j :: t2 ∧ responded i t1).
Proof.
  intros Hne. destruct setup as [|message].
  - destruct (Handle_running parser GetBinary true session_apply text batch Hne) as
      (context & evs0 & evs & fl & fin & pend & HH & Hloop & HI & HT & Hevs & Hrun & HC).
    pose proof (sched_ops_ascending parser GetBinary true batch 0) as Hasc.
    pose proof (inv_nonempty _ _ HI) as Hnonempty.
    destruct (Commit_order session_apply flush_status _ _ evs0 HI Hasc Hevs)
      as (evs' & fl' & HC' & Horder).
    rewrite HC in HC'. injection HC' as <- <-.
    exists context, {| inflight := fl; trace := evs0 ++ evs |}. split; [done|].
    intros e Hrtc. destruct (Horder e Hrtc) as [Hprog Hord]. split; [done|].
    destruct (rtc_running _ _ _ Hnonempty _ _ _ Hrtc _ _ Hrun) as (fin' & pend' & Hrun').
    split.
    { destruct (run_running session_apply flush_status _ Hnonempty evs0
                  (length (inflight e) + length pend') e fin' pend' Hrun')
        as (e' & _ & Hnil & Hrtc'); [done|].
      by exists e'. }
    intros i j ci cj oi oj Hlt Hi Hoi Hj Hoj Hc.
    destruct (scheduled_elem _ _ _ _ _ _ _ Hi Hoi) as [Hini Hidxi].
    destruct (scheduled_elem _ _ _ _ _ _ _ Hj Hoj) as [Hinj Hidxj].
    assert (Hfirst : answers_first (trace e) i j).
    { rewrite <- Hidxi, <- Hidxj. apply Hord; [done | done | lia | done]. }
    split; [done|]. intros _ Hnil.
    destruct (running_completed _ _ _ _ _ _ Hrun' Hnil) as [Hresp Happ].
    destruct (block_sums_scheduled session_apply _ _ _ HI HT Hasc Hini)
      as (pi & _ & _ & Hsumi).
    destruct (block_sums_scheduled session_apply _ _ _ HI HT Hasc Hinj)
      as (pj & _ & Hansj & Hsumj).
    rewrite Hidxi in Hsumi. rewrite Hidxj in Hsumj, Hansj.
    assert (Hai : applies_at i (trace e) = 1).
    { by rewrite Happ, (no_backend_call_applies i evs0 Hevs), Hsumi. }
    assert (Haj : applies_at j (trace e) = 1).
    { by rewrite Happ, (no_backend_call_applies j evs0 Hevs), Hsumj. }
    split; [done|]. split; [done|]. split.
    + apply responses_at_pos. rewrite Hresp, Hansj.
      destruct (ok (session_apply j) || negb (has_ok session_apply _)); lia.
    + destruct (applies_at_pos j (trace e)) as (t1 & t2 & Heq); [lia|].
      exists t1, t2. split; [done|]. by apply (Hfirst t1 t2).
  - destruct (fail_all_answered batch 0
                (String.append "Could not open .redis table. " text) Hne)
      as (evs & Hfail & Hevs).
    exists BatchContext_init, {| inflight := []; trace := evs |}.
    split; [unfold Handle; cbn [ok]; by rewrite Hfail|].
    intros e Hrtc.
    assert (e = {| inflight := []; trace := evs |}) as ->.
    { apply rtc_inv in Hrtc as [<- | (e2 & Hstep & _)]; [done|].
      by apply step_inflight in Hstep. }
    split; [by left|]. split; [by eexists|].
    intros. split; [by apply no_backend_call_answers_first | done].
Qed.

Lemma C3_conflicting_commands_in_order_witness :
  let batch := [["SET"; "k"; "v"]; ["GET"; "k"]] in
  Forall (λ c : RedisClientCommand, c ≠ []) batch ∧
  ∃ context e0,
    Handle example_parser example_GetBinary true accept_all OK "" batch =
      Ret (context, e0) ∧
    ∀ e, rtc (step accept_all accept_all (heap context)) e0 e →
         answers_first (trace e) 0 1 ∧
         (inflight e = [] →
          applies_at 1 (trace e) = 1 ∧
          ∃ t1 t2, trace e = t1 ++ SessionApply 1 :: t2 ∧ responded 0 t1).
Proof.
  intros batch.
  assert (Hne : Forall (λ c : RedisClientCommand, c ≠ []) batch)
    by (by repeat constructor).
  split; [exact Hne|].
  destruct (C3_conflicting_commands_in_order example_parser example_GetBinary
              accept_all accept_all OK "" batch Hne) as (context & e0 & HH & Hall).
  exists context, e0. split; [exact HH|].
  intros e Hrtc. destruct (Hall e Hrtc) as (_ & _ & Hord).
  destruct (Hord 0 1 ["SET"; "k"; "v"] ["GET"; "k"] (0, false, ["k"]) (1, true, ["k"]))
    as [Hfirst Hend];
    [lia | reflexivity | reflexivity | reflexivity | reflexivity | | ].
  { split; [done|]. exists "k". split; apply list_elem_of_singleton; reflexivity. }
  split; [exact Hfirst|]. intros Hnil.
  destruct (Hend eq_refl Hnil) as (_ & Haj & _ & Hsplit).
  split; [exact Haj | exact Hsplit].
Defined.

(** ** The arity rule in the loop of [Handle] *)

(** C7. For a command whose descriptor has positive arity the dispatcher
    takes the "Wrong number of arguments." branch exactly when the number of
    tokens differs from the arity; for one with negative arity it takes the
    "Too few arguments." branch exactly when there are fewer tokens than the
    absolute value of the arity; in every other case the command goes on to
    its handler. The two failing branches answer the index with the message
    named, behind the command's first token, and leave the scheduler as it
    was. On the remaining branch the loop body does what the parser of the
    command decides: when the parser fails, the index is answered with the
    parser's own message and the scheduler is left as it was; when it
    succeeds, the operation goes to [Apply] with no key (safe batching off)
    or with the row key (safe batching on), and the loop body answers
    nothing, unless the key cannot be read, which is answered with that
    failure; an ECHO is answered with its second token. *)
Theorem C7_arity_rule (c : RedisClientCommand) (info : RedisCommandInfo) :
  FetchHandler c = Some info →
  ((0 < arity info)%Z →
     (dispatch c = WrongNumber ↔ size c ≠ arity info) ∧
     (size c = arity info → dispatch c = Invoke info)) ∧
  ((arity info < 0)%Z →
     (dispatch c = TooFew ↔ (size c < Z.abs (arity info))%Z) ∧
     ((Z.abs (arity info) ≤ size c)%Z → dispatch c = Invoke info)) ∧
  (∀ parser GetBinary safe idx context,
     (dispatch c = WrongNumber →
        handle_command parser GetBinary safe idx c context =
        Ret (context, [RespondFailure idx
                         (failure_status (default "" (head c))
                                         "Wrong number of arguments.")])) ∧
     (dispatch c = TooFew →
        handle_command parser GetBinary safe idx c context =
        Ret (context, [RespondFailure idx
                         (failure_status (default "" (head c))
                                         "Too few arguments.")])) ∧
     (dispatch c = Invoke info →
        match functor_read (functor info) with
        | Some rd =>
            (∀ message, parser (name info) c = Failed message →
               handle_command parser GetBinary safe idx c context =
               Ret (context, [RespondFailure idx
                                (failure_status (default "" (head c)) message)])) ∧
            (parser (name info) c = OK → safe = false →
               handle_command parser GetBinary safe idx c context =
               (context' ← Apply idx rd [] context; mret (context', []))) ∧
            (∀ key, parser (name info) c = OK → safe = true →
               GetBinary (name info) c = (OK, key) →
               handle_command parser GetBinary safe idx c context =
               (context' ← Apply idx rd [key] context; mret (context', []))) ∧
            (∀ message key, parser (name info) c = OK → safe = true →
               GetBinary (name info) c = (Failed message, key) →
               handle_command parser GetBinary safe idx c context =
               Ret (context, [RespondFailure idx
                                (failure_status (default "" (head c)) message)]))
        | None =>
            ∃ arg, c !! 1 = Some arg ∧
              handle_command parser GetBinary safe idx c context =
              Ret (context, [RespondSuccess idx (string_response arg)])
        end)).
Proof.
  intros Hf.
  pose proof (table_arity_bounds _ (FetchHandler_in_table _ _ Hf)) as [Hb Hnz].
  assert (Hpos : ∀ z, (0 ≤ z ≤ 4)%Z → to_size_t z = z).
  { intros z Hz. unfold to_size_t. apply Z.mod_small. lia. }
  split; [|split].
  - unfold dispatch, size. rewrite Hf.
    intros Ha. rewrite (Hpos (arity info)) by lia.
    destruct (Z.ltb_spec (arity info) 0); [lia|]. simpl.
    destruct (Z.ltb_spec 0 (arity info)); [|lia]. simpl.
    destruct (Z.eqb_spec (Z.of_nat (length c)) (arity info)); simpl;
      split; try done; intros; try congruence.
  - unfold dispatch, size. rewrite Hf.
    intros Ha. rewrite (Hpos (-1 * arity info)%Z) by lia.
    destruct (Z.ltb_spec (arity info) 0); [|lia]. simpl.
    destruct (Z.ltb_spec (Z.of_nat (length c)) (-1 * arity info)); simpl.
    + split; [split; [lia | done] | lia].
    + destruct (Z.ltb_spec 0 (arity info)); [lia|]. simpl.
      split; [split; [done | lia] | done].
  - intros parser GetBinary safe idx context.
    assert (c ≠ []) as Hne by (intros ->; done).
    destruct c as [|cmd rest]; [done|].
    split; [|split].
    1-2: unfold handle_command; intros ->; reflexivity.
    intros Hd. unfold handle_command. rewrite Hd.
    destruct (functor info) eqn:Hfun; cbn [functor_read].
    1-2: unfold Command, parse_keys; cbv zeta; cbn [head default].
    1-2: split; [|split; [|split]].
    1,5: intros message ->; reflexivity.
    1,4: intros -> ->; reflexivity.
    1,3: intros key -> -> ->; reflexivity.
    1,2: intros message key -> -> ->; reflexivity.
    pose proof (in_table_echo _ (FetchHandler_in_table _ _ Hf) Hfun) as Ha.
    destruct (dispatch_Invoke_size _ _ Hd) as [Hsz _].
    specialize (Hsz ltac:(lia)). unfold size in Hsz. simpl in Hsz.
    destruct rest as [|arg rest]; [simpl in Hsz; lia|].
    exists arg. split; reflexivity.
Qed.

Lemma C7_arity_rule_witness :
  let c := ["SET"; "k1"] in
  let info := {| name := "set"; functor := WRITE; arity := -3 |} in
  let c' := ["GET"; "k"] in
  let info' := {| name := "get"; functor := READ; arity := 2 |} in
  FetchHandler c = Some info ∧
  dispatch c = TooFew ∧
  handle_command example_parser example_GetBinary true 0 c BatchContext_init =
  Ret (BatchContext_init, [RespondFailure 0 (Failed "SET: Too few arguments.")]) ∧
  FetchHandler c' = Some info' ∧
  dispatch c' = Invoke info' ∧
  handle_command example_parser example_GetBinary true 1 c' BatchContext_init =
  (context' ← Apply 1 true ["k"] BatchContext_init; mret (context', [])).
Proof.
  intros c info c' info'.
  assert (Hf : FetchHandler c = Some info) by reflexivity.
  assert (Hf' : FetchHandler c' = Some info') by reflexivity.
  destruct (C7_arity_rule c info Hf) as (_ & Hneg & Hmsg).
  destruct (C7_arity_rule c' info' Hf') as (Hpos & _ & Hmsg').
  split; [exact Hf|].
  assert (Hd : dispatch c = TooFew).
  { apply (proj1 (Hneg ltac:(reflexivity))). reflexivity. }
  split; [exact Hd|].
  split.
  { exact (proj1 (proj2 (Hmsg example_parser example_GetBinary true 0
                           BatchContext_init)) Hd). }
  split; [exact Hf'|].
  assert (Hd' : dispatch c' = Invoke info').
  { apply (proj2 (Hpos ltac:(reflexivity))). reflexivity. }
  split; [exact Hd'|].
  destruct (proj2 (proj2 (Hmsg' example_parser example_GetBinary true 1
                            BatchContext_init)) Hd') as (_ & _ & Hkey & _).
  apply (Hkey "k"); reflexivity.
Defined.
